(** * The krug compiler front end: lexer, parser, IR builder and the
      scope and type passes, embedded from the Go sources.

    - [Go]      the pieces of Go's standard library the sources call
    - [Lexer]   front/lex.go
    - [Ast]     the parse tree the parser builds
    - [Parser]  front/parse.go
    - [IR]      the intermediate representation
    - [Builder] the AST to IR lowering (package ir, builder)
    - [Middle]  middle/sym_resolve.go and middle/decl_type.go

    Go code that can panic or loop for ever is embedded in the [result]
    type: [Ok] for a normal return, [Panic] for a run-time panic and
    [OutOfFuel] when the step budget given to a loop is used up. *)

From Stdlib Require Import ZArith String Ascii List Lia Bool Arith.
From stdpp Require Import gmap strings list fin_maps.
Import ListNotations.

Local Open Scope string_scope.
Local Open Scope list_scope.
Set Warnings "-register-all".

(** ** Results of partial computations *)

Inductive result (A : Type) : Type :=
| Ok (a : A)
| Panic (msg : string)
| OutOfFuel.

Arguments Ok {A} a.
Arguments Panic {A} msg.
Arguments OutOfFuel {A}.

Definition rbind {A B : Type} (m : result A) (k : A -> result B) : result B :=
  match m with
  | Ok a => k a
  | Panic msg => Panic msg
  | OutOfFuel => OutOfFuel
  end.

Notation "'let*' x ':=' m 'in' k" := (rbind m (fun x => k))
  (at level 10, x name, m at level 200, k at level 200).
Notation "'let*' ' p ':=' m 'in' k" := (rbind m (fun x => let 'p := x in k))
  (at level 10, p pattern, m at level 200, k at level 200).

Definition isOk {A : Type} (r : result A) : bool :=
  match r with Ok _ => true | _ => false end.

(** ** Go's standard library, as far as the sources use it *)

Module Go.

(** A rune is an int32; [eof] is the lexer's own constant. *)
Definition rune := Z.
Definition RuneError : rune := 65533%Z.
Definition RuneSelf : rune := 128%Z.

Definition byteZ (a : ascii) : Z := Z.of_nat (nat_of_ascii a).

Definition inRange (lo hi x : Z) : bool := ((lo <=? x) && (x <=? hi))%Z.

(** [string_drop n s] is the Go slice [s[n:]] for [n <= len(s)]. *)
Fixpoint string_drop (n : nat) (s : string) : string :=
  match n, s with
  | O, _ => s
  | S n', String _ s' => string_drop n' s'
  | S _, EmptyString => EmptyString
  end.

(** utf8.DecodeRune: the first rune of [s] and its width in bytes;
    (RuneError, 0) for the empty string and (RuneError, 1) for an
    encoding that is invalid, too short, overlong or out of range. *)
Definition cont (b : Z) : bool := inRange 128 191 b.

Definition DecodeRune (s : string) : rune * nat :=
  match s with
  | EmptyString => (RuneError, 0)
  | String a0 s1 =>
    let b0 := byteZ a0 in
    if (b0 <? 128)%Z then (b0, 1)
    else if (b0 <? 194)%Z then (RuneError, 1)
    else if (b0 <? 224)%Z then
      match s1 with
      | String a1 _ =>
        let b1 := byteZ a1 in
        if cont b1
        then (Z.lor (Z.shiftl (Z.land b0 31) 6) (Z.land b1 63), 2)
        else (RuneError, 1)
      | _ => (RuneError, 1)
      end
    else if (b0 <? 240)%Z then
      match s1 with
      | String a1 (String a2 _) =>
        let b1 := byteZ a1 in
        let b2 := byteZ a2 in
        let lo := if (b0 =? 224)%Z then 160%Z else 128%Z in
        let hi := if (b0 =? 237)%Z then 159%Z else 191%Z in
        if inRange lo hi b1 && cont b2
        then (Z.lor (Z.shiftl (Z.land b0 15) 12)
                (Z.lor (Z.shiftl (Z.land b1 63) 6) (Z.land b2 63)), 3)
        else (RuneError, 1)
      | _ => (RuneError, 1)
      end
    else if (b0 <? 245)%Z then
      match s1 with
      | String a1 (String a2 (String a3 _)) =>
        let b1 := byteZ a1 in
        let b2 := byteZ a2 in
        let b3 := byteZ a3 in
        let lo := if (b0 =? 240)%Z then 144%Z else 128%Z in
        let hi := if (b0 =? 244)%Z then 143%Z else 191%Z in
        if inRange lo hi b1 && cont b2 && cont b3
        then (Z.lor (Z.shiftl (Z.land b0 7) 18)
                (Z.lor (Z.shiftl (Z.land b1 63) 12)
                   (Z.lor (Z.shiftl (Z.land b2 63) 6) (Z.land b3 63))), 4)
        else (RuneError, 1)
      | _ => (RuneError, 1)
      end
    else (RuneError, 1)
  end.

(** [strings.IndexRune(valid, r) >= 0] for a [valid] made of ASCII
    characters only, which is how the lexer calls it: a rune below
    RuneSelf is searched as a byte, and no other rune (eof included)
    occurs in an ASCII string. *)
Fixpoint IndexRuneFound (valid : string) (r : rune) : bool :=
  match valid with
  | EmptyString => false
  | String a rest => ((0 <=? r) && (r <? RuneSelf) && (byteZ a =? r))%Z
                     || IndexRuneFound rest r
  end.

(** The Unicode tables behind unicode.IsDigit and unicode.IsLetter are
    written out for Latin-1, where Go tests them directly; above U+00FF
    they are the two range tables of package unicode, taken here as the
    fields of a record. *)
Record Unicode : Type := {
  digitTable : rune -> bool;
  letterTable : rune -> bool
}.

Definition MaxLatin1 : rune := 255%Z.

Definition IsDigit (U : Unicode) (r : rune) : bool :=
  if (r <? 0)%Z then false
  else if (r <=? MaxLatin1)%Z then inRange 48 57 r
  else digitTable U r.

Definition latin1Letter (r : rune) : bool :=
  inRange 65 90 r || inRange 97 122 r
  || (r =? 170)%Z || (r =? 181)%Z || (r =? 186)%Z
  || inRange 192 214 r || inRange 216 246 r || inRange 248 255 r.

Definition IsLetter (U : Unicode) (r : rune) : bool :=
  if (r <? 0)%Z then false
  else if (r <=? MaxLatin1)%Z then latin1Letter r
  else letterTable U r.

(** A table that knows no digit or letter above Latin-1; enough to run
    the lexer on ASCII sources. *)
Definition latin1Only : Unicode :=
  {| digitTable := fun _ => false; letterTable := fun _ => false |}.

End Go.

(** ** The lexer (front/lex.go) *)

Module Lexer.
Import Go.

Inductive TokenType : Type :=
| Identifier | Number | String_ | Char | Symbol | EndOfFile | NoKind.

(** [NoKind] is the zero value of the kind, as in [BadToken]. *)

Record Token : Type := NewToken_ {
  Value : string;
  Kind : TokenType;
  Span : list nat
}.

Definition NewToken (lexeme : string) (t : TokenType) (s e : nat) : Token :=
  {| Value := lexeme; Kind := t; Span := [s; e] |}.

Definition eof : rune := (-1)%Z.

Record lexer : Type := mkLexer {
  input : string;
  pos : nat;
  start : nat;
  width : nat;
  stream : list Token
}.

Definition setPos (l : lexer) (p w : nat) : lexer :=
  {| input := input l; pos := p; start := start l; width := w;
     stream := stream l |}.

(** [l.input[l.start:l.pos]]; Go panics when the bounds are not in
    order or exceed the length. *)
Definition emit (l : lexer) (t : TokenType) : result lexer :=
  if (start l <=? pos l)%nat && (pos l <=? String.length (input l))%nat then
    let lexeme := substring (start l) (pos l - start l) (input l) in
    Ok {| input := input l; pos := pos l; start := pos l; width := width l;
          stream := stream l ++ [NewToken lexeme t (start l) (pos l)] |}
  else Panic "slice bounds out of range".

Definition ignore (l : lexer) : lexer :=
  {| input := input l; pos := pos l; start := pos l; width := width l;
     stream := stream l |}.

Definition rewind (l : lexer) : lexer :=
  setPos l (pos l - width l) (width l).

Definition consume (l : lexer) : result (rune * lexer) :=
  if (String.length (input l) <=? pos l)%nat then
    Ok (eof, setPos l (pos l) 0)
  else
    let '(res, w) := DecodeRune (string_drop (pos l) (input l)) in
    if (res =? RuneError)%Z then Panic "oh"
    else Ok (res, setPos l (pos l + w) w).

Fixpoint acceptRun_loop (fuel : nat) (valid : string) (l : lexer)
  : result lexer :=
  match fuel with
  | O => OutOfFuel
  | S fuel' =>
    let* '(r, l1) := consume l in
    if IndexRuneFound valid r then acceptRun_loop fuel' valid l1
    else Ok l1
  end.

Definition acceptRun (fuel : nat) (valid : string) (l : lexer)
  : result lexer :=
  let* l1 := acceptRun_loop fuel valid l in
  Ok (rewind l1).

Definition accept (valid : string) (l : lexer) : result (bool * lexer) :=
  let* '(r, l1) := consume l in
  if IndexRuneFound valid r then Ok (true, l1)
  else Ok (false, rewind l1).

Definition peek (l : lexer) : result (rune * lexer) :=
  let* '(res, l1) := consume l in
  Ok (res, rewind l1).

(** The state functions; [None] is the nil state that stops the loop
    of [tokenizeInput]. *)
Inductive stateFn : Type :=
| StLexStart | StLexNumber | StLexIdentifier | StLexQuote | StLexSymbol.

Definition symbols : list rune :=
  map byteZ (list_ascii_of_string "+-/*%=(){}[]<>.$!?#/,|&_~;:").

Definition isSymbol (r : rune) : bool := existsb (Z.eqb r) symbols.

Definition isSpace (r : rune) : bool := (r =? 32)%Z || (r =? 9)%Z.

Definition isEndOfLine (r : rune) : bool := (r =? 13)%Z || (r =? 10)%Z.

Definition isAlphaNumeric (U : Unicode) (r : rune) : bool :=
  (r =? 95)%Z || IsLetter U r || IsDigit U r.

Section WithUnicode.
Variable U : Unicode.

Fixpoint lexIdentifier (fuel : nat) (l : lexer)
  : result (option stateFn * lexer) :=
  match fuel with
  | O => OutOfFuel
  | S fuel' =>
    let* '(c, l1) := consume l in
    if isAlphaNumeric U c then lexIdentifier fuel' l1
    else
      let* l2 := emit (rewind l1) Identifier in
      Ok (Some StLexStart, l2)
  end.

Definition lexNumber (fuel : nat) (l : lexer)
  : result (option stateFn * lexer) :=
  let* l1 := acceptRun fuel "0123456789" l in
  let* '(dot, l2) := accept "." l1 in
  let* l3 := (if dot then acceptRun fuel "012345689" l2 else Ok l2) in
  let* l4 := emit l3 Number in
  Ok (Some StLexStart, l4).

Fixpoint lexQuote_loop (fuel : nat) (l : lexer)
  : result (option stateFn * lexer) :=
  match fuel with
  | O => OutOfFuel
  | S fuel' =>
    let* '(r, l1) := consume l in
    if (r =? 34)%Z then
      let* l2 := emit l1 String_ in
      Ok (Some StLexStart, l2)
    else lexQuote_loop fuel' l1
  end.

Definition lexQuote (fuel : nat) (l : lexer)
  : result (option stateFn * lexer) :=
  let* '(ok, l1) := accept (String (ascii_of_nat 34) EmptyString) l in
  if ok then lexQuote_loop fuel l1 else Panic "expect".

(** [doubleSym] is keyed by the two runes written as strings; only
    the six pairs of ASCII characters below are keys. *)
Definition doubleSym : list (rune * rune) :=
  [ (61, 61); (33, 61); (38, 38); (124, 124); (60, 61); (62, 61) ]%Z.

Definition isDoubleSym (c1 c2 : rune) : bool :=
  existsb (fun p => (fst p =? c1)%Z && (snd p =? c2)%Z) doubleSym.

Definition lexSymbol (l : lexer) : result (option stateFn * lexer) :=
  let* '(c1, l1) := consume l in
  let* '(c2, l2) := peek l1 in
  if isDoubleSym c1 c2 then
    let* '(_, l3) := consume l2 in
    let* l4 := emit l3 Symbol in
    Ok (Some StLexStart, l4)
  else
    let* l3 := emit l2 Symbol in
    Ok (Some StLexStart, l3).

Definition lexStart (l : lexer) : result (option stateFn * lexer) :=
  let* '(c, l1) := consume l in
  if (c =? eof)%Z then Ok (None, rewind l1)
  else if IsDigit U c then Ok (Some StLexNumber, rewind l1)
  else if isAlphaNumeric U c then Ok (Some StLexIdentifier, rewind l1)
  else if isSymbol c then Ok (Some StLexSymbol, rewind l1)
  else if (c =? 34)%Z then Ok (Some StLexQuote, rewind l1)
  else if (c <=? 32)%Z then Ok (Some StLexStart, ignore l1)
  else
    let* l2 := emit (rewind l1) EndOfFile in
    Ok (None, l2).

Definition runState (fuel : nat) (s : stateFn) (l : lexer)
  : result (option stateFn * lexer) :=
  match s with
  | StLexStart => lexStart l
  | StLexNumber => lexNumber fuel l
  | StLexIdentifier => lexIdentifier fuel l
  | StLexQuote => lexQuote fuel l
  | StLexSymbol => lexSymbol l
  end.

(** The loop [for s := lexStart; s != nil; { s = s(l) }]. *)
Fixpoint run (fuel : nat) (s : option stateFn) (l : lexer)
  : result lexer :=
  match s with
  | None => Ok l
  | Some st =>
    match fuel with
    | O => OutOfFuel
    | S fuel' =>
      let* '(s', l') := runState fuel' st l in
      run fuel' s' l'
    end
  end.

Definition tokenizeInput (fuel : nat) (inp : string) : result (list Token) :=
  let* l := run fuel (Some StLexStart) (mkLexer inp 0 0 0 []) in
  Ok (stream l).

End WithUnicode.

(** The token streams are compared by kind and lexeme. *)
Definition lexemes (ts : list Token) : list (TokenType * string) :=
  map (fun t => (Kind t, Value t)) ts.

End Lexer.


(** ** Diagnostics (package api)

    The constructors of api.CompilerError that the sources call; the
    span is the variadic list of positions given at the call. *)

Module Api.
Import Lexer.

Inductive CompilerError : Type :=
| NewParseError (expected : string) (span : list nat)
| NewUnimplementedError (what : list string) (span : list nat)
| NewUnresolvedSymbol (name : string) (span : list nat)
| NewSymbolError (name : string) (span : list nat)
| DuplicateImplementation (name : Token).

(** [DuplicateImplementation name] is the literal
    [CompilerError{Title: "Duplicate implementation for 'name'", Desc: "..."}]
    of buildTree. *)

End Api.

(** ** The parse tree (package front) *)

Module Ast.
Import Lexer.

Inductive ConstantNode : Type :=
| IntegerConstant (Value : Z)
| FloatingConstant (Text : string)
| StringConstant (Value : string)
| CharacterConstant (Value : string)
| VariableReference (Name : Token).

(** A floating constant keeps the text that strconv.ParseFloat read;
    the float64 itself is not represented. *)

Inductive InitKind : Type := InitStructure | InitOther.

(** A field of pointer type that the parser can leave nil is an
    [option]. A position that holds a type is an expression node, as
    parse.go builds it: kind TypeExpression around a TypeNode for what
    parseTypeExpression read, any other expression for what
    parseExpression read there. *)
Inductive ExpressionNode : Type :=
| ConstantExpression (c : ConstantNode)
| LambdaExpression (proto : FunctionPrototypeDeclaration)
    (body : option BlockNode)
| BinaryExpression (LHand : ExpressionNode) (Operator : string)
    (RHand : ExpressionNode)
| Grouping (Value : option ExpressionNode)
| BuiltinExpression (Name : string) (Type_ : ExpressionNode)
    (Args : list ExpressionNode)
| UnaryExpression (Operator : string) (Value : option ExpressionNode)
| AssignStatement (LHand : ExpressionNode) (Op : string)
    (RHand : option ExpressionNode)
| CallExpression (Left : ExpressionNode)
    (Params : list (option ExpressionNode))
| PathExpression (Values : list (option ExpressionNode))
| IndexExpression (Left : ExpressionNode) (Value : option ExpressionNode)
| InitializerExpression (Kind : InitKind) (LHand : Token)
    (Values : list ExpressionNode)
| TypeExpression (t : option TypeNode)
| ListExpression (Values : list (option ExpressionNode))
with TypeNode : Type :=
| PointerType (Base : ExpressionNode)
| ArrayType (Base : option ExpressionNode) (Size : option ExpressionNode)
| UnresolvedType (Name : string)
| TupleType (Types : list ExpressionNode)
| StructureType (Name : Token) (Fields : list NamedType)
with NamedType : Type :=
| mkNamedType (Mutable : bool) (Name : Token) (Owned : bool)
    (Type_ : option ExpressionNode)
with FunctionPrototypeDeclaration : Type :=
| mkPrototype (Name : Token) (Arguments : list NamedType)
    (ReturnType : option ExpressionNode)
with BlockNode : Type :=
| mkBlockNode (Statements : list ParseTreeNode)
with ParseTreeNode : Type :=
| EmptyNode
| TraitDeclStatement (Name : Token)
    (Members : list FunctionPrototypeDeclaration)
| ImplDeclStatement (Name : Token) (Functions : list FunctionDeclaration)
| FunctionDeclStatement (f : FunctionDeclaration)
| StructureDeclStatement (Name : Token) (Fields : list NamedType)
| TypeAliasStatement (Name : Token) (Type_ : option ExpressionNode)
| MutableStatement (Name : Token) (Owned : bool)
    (Type_ : option ExpressionNode) (Value : option ExpressionNode)
| LetStatement (Name : Token) (Owned : bool)
    (Type_ : option ExpressionNode) (Value : option ExpressionNode)
| ReturnStatement (Value : option ExpressionNode)
| NextStatement
| BreakStatement
| IfStatement (Cond : option ExpressionNode) (Block : option BlockNode)
    (Else : option BlockNode) (ElseIfs : list ElseIfNode)
| WhileLoopStatement (Cond : option ExpressionNode)
    (Post : option ExpressionNode) (Block : BlockNode)
| LoopStatement (Block : BlockNode)
| DeferStatement (Block : option BlockNode)
    (Statement : option ParseTreeNode)
| BlockStatement (Block : option BlockNode)
| LabelStatement (LabelName : Token)
| JumpStatement (Location : Token)
| ExpressionStatement (e : ExpressionNode)
with ElseIfNode : Type :=
| mkElseIfNode (Cond : ExpressionNode) (Block : BlockNode)
with FunctionDeclaration : Type :=
| mkFunctionDeclaration (proto : FunctionPrototypeDeclaration)
    (Body : option BlockNode).

(** [EmptyNode] is [&ParseTreeNode{}], a node with no kind set. *)

End Ast.

(** ** The parser (front/parse.go) *)

Module Parser.
Import Lexer Api Ast.

Record parser : Type := mkParser {
  toks : list Token;
  pos : nat;
  errors : list CompilerError
}.

(** A parsing function reads and updates the parser it is a method of. *)
Definition P (A : Type) : Type := parser -> result (A * parser).

Definition pure {A : Type} (a : A) : P A := fun p => Ok (a, p).

Definition pbind {A B : Type} (m : P A) (k : A -> P B) : P B :=
  fun p =>
    match m p with
    | Ok (a, p') => k a p'
    | Panic msg => Panic msg
    | OutOfFuel => OutOfFuel
    end.

Definition panic {A : Type} (msg : string) : P A := fun _ => Panic msg.
Definition outOfFuel {A : Type} : P A := fun _ => OutOfFuel.

Notation "'let!' x ':=' m 'in' k" := (pbind m (fun x => k))
  (at level 10, x name, m at level 200, k at level 200).
Notation "m1 '>>' m2" := (pbind m1 (fun _ => m2))
  (at level 100, m2 at level 200, right associativity).

(** A [for] loop: the body either continues with the next value of
    the loop variables ([inl]) or leaves the loop ([inr]); [fuel]
    bounds the number of iterations. *)
Fixpoint loop {A B : Type} (fuel : nat) (body : A -> P (A + B)) (a : A)
  : P B :=
  match fuel with
  | O => outOfFuel
  | S fuel' =>
    let! r := body a in
    match r with
    | inl a' => loop fuel' body a'
    | inr b => pure b
    end
  end.

Definition continue {A B : Type} (a : A) : P (A + B) := pure (inl a).
Definition break {A B : Type} (b : B) : P (A + B) := pure (inr b).

(** *** The token cursor *)

Definition BadToken : Token := {| Value := ""; Kind := NoKind; Span := [] |}.

Definition Matches (t : Token) (vals : list string) : bool :=
  existsb (String.eqb (Value t)) vals.

Definition kindEqb (a b : TokenType) : bool :=
  match a, b with
  | Identifier, Identifier | Number, Number | String_, String_
  | Char, Char | Symbol, Symbol | EndOfFile, EndOfFile
  | NoKind, NoKind => true
  | _, _ => false
  end.

(** The string behind a token kind, for messages. *)
Definition kindName (k : TokenType) : string :=
  match k with
  | Identifier => "identifier" | Number => "number" | String_ => "string"
  | Char => "char" | Symbol => "symbol" | EndOfFile => "eof"
  | NoKind => ""
  end.

Definition getPos : P nat := fun p => Ok (pos p, p).

Definition error (e : CompilerError) : P unit :=
  fun p => Ok (tt, {| toks := toks p; pos := pos p;
                      errors := errors p ++ [e] |}).

(** Modelled from the spec: the methods of the embedded [parser]
    (hasNext, next, peek, consume, expect, expectKind) are not in
    src/. The spec parses bare expressions such as 1 + 2 * 3 and
    a.b.c, where parse.go reads [p.next()] after the last token, so
    [next] and [peek] yield [BadToken] there; [expect] records
    "a diagnostic carrying a human-readable expectation, the
    originating position, and current position, and continues". *)
Definition hasNext : P bool :=
  fun p => Ok ((pos p <? length (toks p))%nat, p).

Definition peek (offs : nat) : P Token :=
  fun p => Ok (nth (pos p + offs) (toks p) BadToken, p).

Definition next : P Token := peek 0.

Definition consume : P Token :=
  fun p => Ok (nth (pos p) (toks p) BadToken,
               {| toks := toks p; pos := S (pos p); errors := errors p |}).

Definition expectWith (ok : Token -> bool) (what : string) : P Token :=
  let! start := getPos in
  let! h := hasNext in
  let! found :=
    (if h then
       let! tok := consume in
       pure (if ok tok then Some tok else None)
     else pure None) in
  match found with
  | Some tok => pure tok
  | None =>
    let! now := getPos in
    error (NewParseError what [start; now]) >>
    pure BadToken
  end.

Definition expect (val : string) : P Token :=
  expectWith (fun tok => Matches tok [val]) ("'" ++ val ++ "'")%string.

Definition expectKind (kind : TokenType) : P Token :=
  expectWith (fun tok => kindEqb (Kind tok) kind) (kindName kind).

(** [if p.next().Matches(vals...)] *)
Definition nextMatches (vals : list string) : P bool :=
  let! t := next in pure (Matches t vals).

(** *** Tables *)

Definition opPrec : list (string * Z) :=
  [ ("*", 5); ("/", 5); ("%", 5);
    ("+", 4); ("-", 4);
    ("==", 3); ("!=", 3); ("<", 3); ("<=", 3); (">", 3); (">=", 3);
    ("&&", 2);
    ("||", 1) ]%Z.

Fixpoint lookupPrec (tbl : list (string * Z)) (op : string) : option Z :=
  match tbl with
  | [] => None
  | (k, v) :: tbl' => if String.eqb k op then Some v else lookupPrec tbl' op
  end.

Definition getOpPrec (op : string) : Z :=
  match lookupPrec opPrec op with
  | Some prec => prec
  | None => (-1)%Z
  end.

Definition isBinaryOp (op : string) : bool :=
  match lookupPrec opPrec op with Some _ => true | None => false end.

Definition assignOperators : list string := ["="; "+="; "-="; "*="; "/="].
Definition unaryOperators : list string := ["-"; "!"; "+"; "@"; "&"; "~"].
Definition builtins : list string :=
  ["alloc"; "sizeof"; "len"; "free"; "move"; "ref"].

(** [new(big.Int).SetString(s, 10)]: an optional sign and decimal
    digits. On any other text SetString fails and leaves the value
    undefined; parse.go ignores the failure, and 0 stands for that
    value here. *)
Fixpoint digitsValue (acc : Z) (s : string) : option Z :=
  match s with
  | EmptyString => Some acc
  | String a s' =>
    let d := (Go.byteZ a - 48)%Z in
    if Go.inRange 0 9 d then digitsValue (acc * 10 + d)%Z s' else None
  end.

Definition SetString10 (s : string) : Z :=
  let unsigned (t : string) : option Z :=
    match t with EmptyString => None | _ => digitsValue 0 t end in
  match s with
  | String "-" t => match unsigned t with Some z => (- z)%Z | None => 0%Z end
  | String "+" t => match unsigned t with Some z => z | None => 0%Z end
  | _ => match unsigned s with Some z => z | None => 0%Z end
  end.

Fixpoint hasDot (s : string) : bool :=
  match s with
  | EmptyString => false
  | String a s' => Ascii.eqb a "." || hasDot s'
  end.

(** The functions of parse.go call one another in cycles; the calls
    that close a cycle go through [self], the same functions with one
    unit of fuel less. *)
Record Rec : Type := mkRec {
  rExpression : P (option ExpressionNode);
  rTypeExpression : P (option ExpressionNode);
  rLeft : P (option ExpressionNode);
  rStatement : P (option ParseTreeNode);
  rPrec : Z -> ExpressionNode -> P (option ExpressionNode)
}.

Section Grammar.

(** [floatErr s] tells whether strconv.ParseFloat(s, 64) returns an
    error. *)
Variable floatErr : string -> bool.
Variable self : Rec.
Variable fuel : nat.

(** *** Types *)

Definition parsePointerType : P (option TypeNode) :=
  let! start := getPos in
  expect "*" >>
  let! base := rTypeExpression self in
  match base with
  | None =>
    let! now := getPos in
    error (NewParseError "type after pointer" [start; now]) >>
    pure None
  | Some b => pure (Some (PointerType b))
  end.

Definition parseArrayType : P (option TypeNode) :=
  let! start := getPos in
  expect "[" >>
  let! base := rTypeExpression self in
  (match base with
   | None =>
     let! now := getPos in
     error (NewParseError "array type" [start; now])
   | Some _ => pure tt
   end) >>
  expect ";" >>
  let! size := rExpression self in
  (match size with
   | None =>
     let! now := getPos in
     error (NewParseError "array length constant" [start; now])
   | Some _ => pure tt
   end) >>
  expect "]" >>
  pure (Some (ArrayType base size)).

Definition parseUnresolvedType : P (option TypeNode) :=
  let! name := expectKind Identifier in
  pure (Some (UnresolvedType (Value name))).

Definition parseTupleType : P (option TypeNode) :=
  expect "(" >>
  let! types :=
    loop fuel (fun types : list ExpressionNode =>
      let! h := hasNext in
      if negb h then break types else
      let! comma := nextMatches [","] in
      (if comma then consume >> pure tt else pure tt) >>
      let! close := nextMatches [")"] in
      if close then break types else
      let! typ := rTypeExpression self in
      match typ with
      | Some t => continue (types ++ [t])
      | None => continue types
      end) [] in
  expect ")" >>
  pure (Some (TupleType types)).

Definition parseStructureType : P (option TypeNode) :=
  let! start := getPos in
  let! fst := expect "struct" in
  expect "{" >>
  let! fields :=
    loop fuel (fun fields : list NamedType =>
      let! h := hasNext in
      if negb h then break fields else
      let! close := nextMatches ["}"] in
      if close then break fields else
      let! name := expectKind Identifier in
      let! typ := rTypeExpression self in
      (match typ with
       | None =>
         let! now := getPos in
         error (NewParseError "type" [start; now])
       | Some _ => pure tt
       end) >>
      expect "," >>
      continue (fields ++ [mkNamedType true name false typ])) [] in
  expect "}" >>
  pure (Some (StructureType fst fields)).

Definition parseTypeExpression : P (option ExpressionNode) :=
  let! start := getPos in
  let! curr := next in
  if Matches curr ["*"] then
    let! t := parsePointerType in pure (Some (TypeExpression t))
  else if Matches curr ["["] then
    let! t := parseArrayType in pure (Some (TypeExpression t))
  else if Matches curr ["("] then
    let! t := parseTupleType in pure (Some (TypeExpression t))
  else if Matches curr ["struct"] then
    let! t := parseStructureType in pure (Some (TypeExpression t))
  else if kindEqb (Kind curr) Identifier then
    let! t := parseUnresolvedType in pure (Some (TypeExpression t))
  else
    let! now := getPos in
    error (NewUnimplementedError ["parseTypeExpression"; "type"]
             [start; now]) >>
    pure None.

Definition parseFunctionPrototypeDeclaration
  : P FunctionPrototypeDeclaration :=
  let! start := getPos in
  expect "fn" >>
  let! name := expectKind Identifier in
  expect "(" >>
  let! args :=
    loop fuel (fun st : nat * list NamedType =>
      let '(idx, args) := st in
      let! h := hasNext in
      if negb h then break args else
      let! close := nextMatches [")"] in
      if close then break args else
      (if (idx =? 0)%nat then pure tt else expect "," >> pure tt) >>
      let! isMut := nextMatches ["mut"] in
      (if isMut then consume >> pure tt else pure tt) >>
      let! tilde := nextMatches ["~"] in
      (if tilde then consume >> pure tt else pure tt) >>
      let! name := expectKind Identifier in
      let! typ := rExpression self in
      (match typ with
       | None =>
         let! now := getPos in
         error (NewParseError "type after pointer" [start; now])
       | Some _ => pure tt
       end) >>
      continue (S idx, args ++ [mkNamedType isMut name (negb tilde) typ]))
      (0%nat, []) in
  expect ")" >>
  let! body := nextMatches ["{"; ";"; ","] in
  let! typ := (if body then pure None else parseTypeExpression) in
  pure (mkPrototype name args typ).

(** *** Statements *)

Definition parseOwned : P bool :=
  let! tilde := nextMatches ["~"] in
  if tilde then consume >> pure false else pure true.

Definition parseMut : P (option ParseTreeNode) :=
  let! start := getPos in
  expect "mut" >>
  let! owned := parseOwned in
  let! name := expectKind Identifier in
  let! eq := nextMatches ["="] in
  let! typ :=
    (if eq then pure None else
       let! typ := parseTypeExpression in
       (match typ with
        | None =>
          let! now := getPos in
          error (NewParseError "type after assignment" [start; now])
        | Some _ => pure tt
        end) >>
       pure typ) in
  let! eq := nextMatches ["="] in
  let! val :=
    (if eq then
       expect "=" >>
       let! val := rExpression self in
       (match val with
        | None =>
          let! now := getPos in
          error (NewParseError "assignment" [start; now])
        | Some _ => pure tt
        end) >>
       pure val
     else pure None) in
  (match val, typ with
   | None, None =>
     let! now := getPos in
     error (NewParseError "value or type in mut statement" [start; now])
   | _, _ => pure tt
   end) >>
  pure (Some (MutableStatement name owned typ val)).

Definition parseLet : P (option ParseTreeNode) :=
  let! start := getPos in
  expect "let" >>
  let! owned := parseOwned in
  let! name := expectKind Identifier in
  let! eq := nextMatches ["="] in
  let! typ :=
    (if eq then pure None else
       let! typ := parseTypeExpression in
       (match typ with
        | None =>
          let! now := getPos in
          error (NewParseError "type or assignment" [start; now])
        | Some _ => pure tt
        end) >>
       pure typ) in
  let! eq := nextMatches ["="] in
  let! value :=
    (if eq then
       expect "=" >>
       let! value := rExpression self in
       (match value with
        | None =>
          let! now := getPos in
          error (NewParseError "expression in let statement" [start; now])
        | Some _ => pure tt
        end) >>
       pure value
     else pure None) in
  pure (Some (LetStatement name owned typ value)).

Definition parseReturn : P (option ParseTreeNode) :=
  let! isRet := nextMatches ["return"] in
  if negb isRet then pure None else
  let! start := getPos in
  expect "return" >>
  let! semi := nextMatches [";"] in
  let! res :=
    (if semi then pure None else
       let! res := rExpression self in
       (match res with
        | None =>
          let! now := getPos in
          error (NewParseError "semi-colon or expression" [start; now])
        | Some _ => pure tt
        end) >>
       pure res) in
  pure (Some (ReturnStatement res)).

Definition parseNext : P (option ParseTreeNode) :=
  expect "next" >> pure (Some NextStatement).

Definition parseBreak : P (option ParseTreeNode) :=
  expect "break" >> pure (Some BreakStatement).

Definition parseTypeAlias : P (option ParseTreeNode) :=
  let! start := getPos in
  expect "type" >>
  let! name := expectKind Identifier in
  expect "=" >>
  let! typ := parseTypeExpression in
  (match typ with
   | None =>
     let! now := getPos in
     error (NewParseError "type or assignment" [start; now])
   | Some _ => pure tt
   end) >>
  pure (Some (TypeAliasStatement name typ)).

Definition parseLabel : P (option ParseTreeNode) :=
  let! isLabel := nextMatches ["$"] in
  if negb isLabel then pure None else
  expect "$" >>
  let! labelName := expectKind Identifier in
  pure (Some (LabelStatement labelName)).

Definition parseJump : P (option ParseTreeNode) :=
  let! isJump := nextMatches ["jump"] in
  if negb isJump then pure None else
  expect "jump" >>
  let! label := expectKind Identifier in
  pure (Some (JumpStatement label)).

Definition parseExpressionStatement : P (option ParseTreeNode) :=
  let! expr := rExpression self in
  match expr with
  | Some e => pure (Some (ExpressionStatement e))
  | None => pure None
  end.

Definition parseSemicolonStatement : P (option ParseTreeNode) :=
  let! curr := next in
  if Matches curr ["mut"] then parseMut
  else if Matches curr ["let"] then parseLet
  else if Matches curr ["type"] then parseTypeAlias
  else if Matches curr ["return"] then parseReturn
  else if Matches curr ["$"] then parseLabel
  else if Matches curr ["jump"] then parseJump
  else if Matches curr ["next"] then parseNext
  else if Matches curr ["break"] then parseBreak
  else parseExpressionStatement.

Definition parseStatBlock : P (option BlockNode) :=
  let! open := nextMatches ["{"] in
  if negb open then pure None else
  expect "{" >>
  let! stats :=
    loop fuel (fun stats : list ParseTreeNode =>
      let! h := hasNext in
      if negb h then break stats else
      let! close := nextMatches ["}"] in
      if close then break stats else
      let! stat := rStatement self in
      match stat with
      | Some s => continue (stats ++ [s])
      | None => continue stats
      end) [] in
  expect "}" >>
  pure (Some (mkBlockNode stats)).

Definition parseIfElseChain : P (option ParseTreeNode) :=
  let! isIf := nextMatches ["if"] in
  if negb isIf then pure None else
  let! start := getPos in
  expect "if" >>
  let! expr := rExpression self in
  (match expr with
   | None =>
     let! now := getPos in
     error (NewParseError "condition" [start; now])
   | Some _ => pure tt
   end) >>
  let! block := parseStatBlock in
  (match block with
   | None =>
     let! now := getPos in
     error (NewParseError "block after condition" [start; now])
   | Some _ => pure tt
   end) >>
  let! isElse := nextMatches ["else"] in
  let! h := hasNext in
  let! nextIf := (let! t := peek 1 in pure (Matches t ["if"])) in
  if isElse && (h && nextIf) then
    let! elses :=
      loop fuel (fun elses : list ElseIfNode =>
        let! h := hasNext in
        if negb h then break elses else
        expect "else" >>
        expect "if" >>
        let! cond := rExpression self in
        match cond with
        | None =>
          let! now := getPos in
          error (NewParseError "condition in else if" [start; now]) >>
          break elses
        | Some c =>
          let! body := parseStatBlock in
          match body with
          | None =>
            let! now := getPos in
            error (NewParseError "block after else if" [start; now]) >>
            break elses
          | Some b => continue (elses ++ [mkElseIfNode c b])
          end
        end) [] in
    pure (Some (IfStatement expr block None elses))
  else if isElse then
    expect "else" >>
    let! body := parseStatBlock in
    (match body with
     | None =>
       let! now := getPos in
       error (NewParseError "block after else" [start; now])
     | Some _ => pure tt
     end) >>
    pure (Some (IfStatement expr block body []))
  else pure (Some (IfStatement expr block None [])).

Definition parseWhileLoop : P (option ParseTreeNode) :=
  let! isWhile := nextMatches ["while"] in
  if negb isWhile then pure None else
  let! start := getPos in
  expect "while" >>
  let! val := rExpression self in
  (match val with
   | None =>
     let! now := getPos in
     error (NewParseError "condition after while" [start; now])
   | Some _ => pure tt
   end) >>
  let! semi := nextMatches [";"] in
  let! post :=
    (if semi then
       expect ";" >>
       let! post := rExpression self in
       (match post with
        | None =>
          let! now := getPos in
          error (NewParseError "step expression in while loop" [start; now])
        | Some _ => pure tt
        end) >>
       pure post
     else pure None) in
  let! block := parseStatBlock in
  match block with
  | Some b => pure (Some (WhileLoopStatement val post b))
  | None => pure None
  end.

Definition parseDefer : P (option ParseTreeNode) :=
  let! isDefer := nextMatches ["defer"] in
  if negb isDefer then pure None else
  expect "defer" >>
  let! open := nextMatches ["{"] in
  if open then
    let! b := parseStatBlock in
    match b with
    | None =>
      error (NewParseError "Expected a block yo" []) >>
      pure None
    | Some _ => pure (Some (DeferStatement b None))
    end
  else
    let! stat := rStatement self in
    pure (Some (DeferStatement None stat)).

Definition parseLoop : P (option ParseTreeNode) :=
  let! isLoop := nextMatches ["loop"] in
  if negb isLoop then pure None else
  expect "loop" >>
  let! block := parseStatBlock in
  match block with
  | Some b => pure (Some (LoopStatement b))
  | None => pure None
  end.

Definition parseStatement : P (option ParseTreeNode) :=
  let! curr := next in
  if Matches curr ["if"] then parseIfElseChain
  else if Matches curr ["loop"] then parseLoop
  else if Matches curr ["while"] then parseWhileLoop
  else if Matches curr ["defer"] then parseDefer
  else if Matches curr ["{"] then
    let! b := parseStatBlock in
    pure (Some (BlockStatement b))
  else
    let! stat := parseSemicolonStatement in
    match stat with
    | Some _ => expect ";" >> pure stat
    | None => pure None
    end.

(** *** Declarations *)

Definition parseFunctionDeclaration : P FunctionDeclaration :=
  let! proto := parseFunctionPrototypeDeclaration in
  let! body := parseStatBlock in
  pure (mkFunctionDeclaration proto body).

Definition parseImplDeclaration : P ParseTreeNode :=
  expect "impl" >>
  let! name := expectKind Identifier in
  expect "{" >>
  let! functions :=
    loop fuel (fun functions : list FunctionDeclaration =>
      let! h := hasNext in
      if negb h then break functions else
      let! close := nextMatches ["}"] in
      if close then break functions else
      let! f := parseFunctionDeclaration in
      continue (functions ++ [f])) [] in
  expect "}" >>
  pure (ImplDeclStatement name functions).

Definition parseTraitDeclaration : P ParseTreeNode :=
  expect "trait" >>
  let! name := expectKind Identifier in
  expect "{" >>
  let! members :=
    loop fuel (fun members : list FunctionPrototypeDeclaration =>
      let! h := hasNext in
      if negb h then break members else
      let! close := nextMatches ["}"] in
      if close then break members else
      let! pt := parseFunctionPrototypeDeclaration in
      expect ";" >>
      continue (members ++ [pt])) [] in
  expect "}" >>
  pure (TraitDeclStatement name members).

(** *** Expressions *)

Definition parseUnaryExpr : P (option ExpressionNode) :=
  let! h := hasNext in
  let! isUnary := nextMatches unaryOperators in
  if negb h || negb isUnary then pure None else
  let! start := getPos in
  let! op := consume in
  let! rhand := rLeft self in
  (match rhand with
   | None =>
     let! now := getPos in
     error (NewParseError "unary expression" [start; now])
   | Some _ => pure tt
   end) >>
  pure (Some (UnaryExpression (Value op) rhand)).

Definition parseGroupedList (fst : option ExpressionNode)
  : P (option ExpressionNode) :=
  let! list :=
    loop fuel (fun list : list (option ExpressionNode) =>
      let! h := hasNext in
      let! comma := nextMatches [","] in
      if negb (h && comma) then break list else
      expect "," >>
      let! val := rExpression self in
      match val with
      | None => panic "todo"
      | Some _ => continue (list ++ [val])
      end) [fst] in
  expect ")" >>
  pure (Some (ListExpression list)).

(** What the [switch] of parseOperand builds from a consumed token. *)
Definition operandOf (curr : Token) : result (option ExpressionNode) :=
  match Kind curr with
  | Number =>
    if negb (hasDot (Value curr)) then
      Ok (Some (ConstantExpression
                  (IntegerConstant (SetString10 (Value curr)))))
    else if floatErr (Value curr) then Panic "strconv.ParseFloat"
    else Ok (Some (ConstantExpression (FloatingConstant (Value curr))))
  | Identifier => Ok (Some (ConstantExpression (VariableReference curr)))
  | Char =>
    Ok (Some (ConstantExpression (CharacterConstant (Value curr))))
  | String_ =>
    Ok (Some (ConstantExpression (StringConstant (Value curr))))
  | EndOfFile => Ok None
  | _ => Ok None
  end.

Definition isOperandKind (k : TokenType) : bool :=
  match k with
  | Number | Identifier | Char | String_ | EndOfFile => true
  | _ => false
  end.

Definition parseOperand : P (option ExpressionNode) :=
  let! h := hasNext in
  if negb h then pure None else
  let! start := getPos in
  let! curr := next in
  if Matches curr ["("] then
    expect "(" >>
    let! expr := rExpression self in
    let! comma := nextMatches [","] in
    if comma then parseGroupedList expr
    else
      expect ")" >>
      pure (Some (Grouping expr))
  else
    let! curr := consume in
    match operandOf curr with
    | Ok res =>
      if isOperandKind (Kind curr) then pure res
      else
        let! now := getPos in
        error (NewUnimplementedError ["parse"; kindName (Kind curr)]
                 [start; now]) >>
        pure None
    | Panic msg => panic msg
    | OutOfFuel => outOfFuel
    end.

Definition parseBuiltin : P (option ExpressionNode) :=
  let! builtin := expectKind Identifier in
  expect "!" >>
  let! parens := nextMatches ["("] in
  (if parens then consume >> pure tt else pure tt) >>
  let! ref := expectKind Identifier in
  let! args :=
    (if parens then
       let! args :=
         loop fuel (fun args : list ExpressionNode =>
           let! h := hasNext in
           if negb h then break args else
           let! comma := nextMatches [","] in
           (if comma then consume >> pure tt else pure tt) >>
           let! close := nextMatches [")"] in
           if close then break args else
           let! arg := rExpression self in
           match arg with
           | Some a => continue (args ++ [a])
           | None => continue args
           end) [] in
       expect ")" >>
       pure args
     else pure []) in
  pure (Some (BuiltinExpression (Value builtin)
                (ConstantExpression (VariableReference ref)) args)).

Definition parseCall (lhand : ExpressionNode) : P (option ExpressionNode) :=
  let! start := getPos in
  expect "(" >>
  let! params :=
    loop fuel (fun st : nat * list (option ExpressionNode) =>
      let '(idx, params) := st in
      let! h := hasNext in
      let! close := nextMatches [")"] in
      if negb (h && negb close) then break params else
      (if (idx =? 0)%nat then pure tt else expect "," >> pure tt) >>
      let! val := rExpression self in
      (match val with
       | None =>
         let! now := getPos in
         error (NewParseError "parameter in call expression" [start; now])
       | Some _ => pure tt
       end) >>
      continue (S idx, params ++ [val])) (0%nat, []) in
  expect ")" >>
  pure (Some (CallExpression lhand params)).

Definition parseIndex (lhand : ExpressionNode) : P (option ExpressionNode) :=
  let! start := getPos in
  expect "[" >>
  let! val := rExpression self in
  (match val with
   | None =>
     let! now := getPos in
     error (NewParseError "expression in array index" [start; now])
   | Some _ => pure tt
   end) >>
  expect "]" >>
  pure (Some (IndexExpression lhand val)).

Definition parseLambda : P (option ExpressionNode) :=
  let! proto := parseFunctionPrototypeDeclaration in
  let! body := parseStatBlock in
  pure (Some (LambdaExpression proto body)).

Definition parseInitializer : P (option ExpressionNode) :=
  expect ":" >>
  let! lhand := expectKind Identifier in
  expect "{" >>
  let! els :=
    loop fuel (fun els : list ExpressionNode =>
      let! h := hasNext in
      if negb h then break els else
      let! comma := nextMatches [","] in
      (if comma then consume >> pure tt else pure tt) >>
      let! close := nextMatches ["}"] in
      if close then break els else
      let! expr := rExpression self in
      match expr with
      | Some e => continue (els ++ [e])
      | None => continue els
      end) [] in
  expect "}" >>
  pure (Some (InitializerExpression InitStructure lhand els)).

Definition parsePrimaryExpr : P (option ExpressionNode) :=
  let! h := hasNext in
  if negb h then pure None else
  let! curr := next in
  if Matches curr ["struct"; "*"; "["; "("] then parseTypeExpression
  else if Matches curr [":"] then parseInitializer
  else if Matches curr ["fn"] then parseLambda
  else if Matches curr unaryOperators then parseUnaryExpr
  else if Matches curr builtins then parseBuiltin
  else
    let! lhand := parseOperand in
    match lhand with
    | None => pure None
    | Some l =>
      let! curr := next in
      if Matches curr ["["] then parseIndex l
      else if Matches curr ["("] then parseCall l
      else pure (Some l)
    end.

Definition parseLeft : P (option ExpressionNode) :=
  let! expr := parsePrimaryExpr in
  match expr with
  | Some _ => pure expr
  | None => parseUnaryExpr
  end.

(** One turn of the loop of parsePrec: [inl] carries the new left
    operand into the next turn, [inr] is a [return]. *)
Definition parsePrecBody (lastPrec : Z) (lhand : ExpressionNode)
  : P (ExpressionNode + option ExpressionNode) :=
  let! h := hasNext in
  if negb h then break (Some lhand) else
  let! t := next in
  let prec := getOpPrec (Value t) in
  if (prec <? lastPrec)%Z then break (Some lhand) else
  let! h := hasNext in
  if negb h then break (Some lhand) else
  let! t := next in
  if negb (isBinaryOp (Value t)) then break (Some lhand) else
  let! op := consume in
  let! rhand := parsePrimaryExpr in
  match rhand with
  | None => break None
  | Some rhand =>
    let! h := hasNext in
    if negb h then
      break (Some (BinaryExpression lhand (Value op) rhand))
    else
      let! t := next in
      let nextPrec := getOpPrec (Value t) in
      let! rhand :=
        (if (prec <? nextPrec)%Z then rPrec self (prec + 1)%Z rhand
         else pure (Some rhand)) in
      match rhand with
      | None => break None
      | Some rhand => continue (BinaryExpression lhand (Value op) rhand)
      end
  end.

(** After the loop parse.go returns [left]; the loop ends only when
    no token is left, which the first test of a turn has returned on. *)
Definition parsePrec (lastPrec : Z) (lhand : ExpressionNode)
  : P (option ExpressionNode) :=
  loop fuel (parsePrecBody lastPrec) lhand.

Definition parseAssign (lhand : ExpressionNode) : P (option ExpressionNode) :=
  let! h := hasNext in
  if negb h then pure None else
  let! start := getPos in
  let! op := consume in
  let! rhand := rExpression self in
  (match rhand with
   | None =>
     let! now := getPos in
     error (NewParseError "expression after assignment operator"
              [start; now])
   | Some _ => pure tt
   end) >>
  pure (Some (AssignStatement lhand (Value op) rhand)).

Definition parseDotList (lhand : ExpressionNode) : P (option ExpressionNode) :=
  let! start := getPos in
  let! list :=
    loop fuel (fun list : list (option ExpressionNode) =>
      let! h := hasNext in
      let! dot := nextMatches ["."] in
      if negb (h && dot) then break list else
      expect "." >>
      let! val := rExpression self in
      (match val with
       | None =>
         let! now := getPos in
         error (NewParseError "expression in dot-list" [start; now])
       | Some _ => pure tt
       end) >>
      continue (list ++ [val])) [Some lhand] in
  pure (Some (PathExpression list)).

Definition parseExpression : P (option ExpressionNode) :=
  let! lhand := parseLeft in
  match lhand with
  | None => pure None
  | Some lhand =>
    let! t := next in
    if Matches t ["."] then parseDotList lhand
    else if Matches t assignOperators then parseAssign lhand
    else if isBinaryOp (Value t) then parsePrec 0 lhand
    else pure (Some lhand)
  end.

(** *** Top level *)

Definition skipDirective : P unit :=
  expect "#" >>
  expect "{" >>
  loop fuel (fun _ : unit =>
    let! h := hasNext in
    let! close := nextMatches ["}"] in
    if negb (h && negb close) then break tt else
    consume >> continue tt) tt >>
  expect "}" >>
  pure tt.

(** The second result of parseNode is always true and is left out. *)
Definition parseNode : P (option ParseTreeNode) :=
  let! start := getPos in
  let! startingTok := next in
  let curr := startingTok in
  if Matches curr ["#"] then skipDirective >> pure None
  else if Matches curr ["trait"] then
    let! d := parseTraitDeclaration in pure (Some d)
  else if Matches curr ["impl"] then
    let! d := parseImplDeclaration in pure (Some d)
  else if Matches curr ["fn"] then
    let! d := parseFunctionDeclaration in
    pure (Some (FunctionDeclStatement d))
  else if Matches curr ["type"] then
    let! res := parseTypeAlias in expect ";" >> pure res
  else if Matches curr ["mut"] then
    let! res := parseMut in expect ";" >> pure res
  else if Matches curr ["let"] then
    let! res := parseLet in expect ";" >> pure res
  else
    let! res := parseExpressionStatement in
    (match res with
     | None =>
       let! now := getPos in
       error (NewUnimplementedError ["parse"; Value startingTok]
                [start; now])
     | Some _ => pure tt
     end) >>
    expect ";" >>
    pure res.

End Grammar.

(** The parser with [fuel] levels of nested calls; each loop of a
    level may run as many times as the level is high. *)
Fixpoint parserAt (floatErr : string -> bool) (fuel : nat) : Rec :=
  match fuel with
  | O => {| rExpression := outOfFuel; rTypeExpression := outOfFuel;
            rLeft := outOfFuel; rStatement := outOfFuel;
            rPrec := fun _ _ => outOfFuel |}
  | S n =>
    let self := parserAt floatErr n in
    {| rExpression := parseExpression floatErr self (S n);
       rTypeExpression := parseTypeExpression self (S n);
       rLeft := parseLeft floatErr self (S n);
       rStatement := parseStatement self (S n);
       rPrec := parsePrec floatErr self (S n) |}
  end.

Definition newParser (stream : list Token) : parser :=
  {| toks := stream; pos := 0; errors := [] |}.

Definition ParseTokenStream (floatErr : string -> bool) (fuel : nat)
  (stream : list Token) : result (list ParseTreeNode * list CompilerError) :=
  let body (nodes : list ParseTreeNode) : P (list ParseTreeNode
                                             + list ParseTreeNode) :=
    let! h := hasNext in
    if negb h then break nodes else
    let! node := parseNode (parserAt floatErr fuel) fuel in
    match node with
    | Some n => continue (nodes ++ [n])
    | None => continue nodes
    end in
  let* '(nodes, p) := loop fuel body [] (newParser stream) in
  Ok (nodes, errors p).

End Parser.

(** ** The intermediate representation (package ir) *)

Module IR.
Import Lexer.

(** A value of the tagged struct [Value]; [EmptyValue] is [&Value{}],
    with no kind set. Types and values refer to each other: an array
    type holds its size expression and a builtin holds its type. *)
Inductive Value : Type :=
| IntegerValue (RawValue : Z)
| FloatingValue (Text : string)
| StringValue (Val : string)
| CharacterValue (Val : string)
| Identifier (Name : Token)
| BinaryExpression (LHand : Value) (Op : string) (RHand : Value)
| UnaryExpression (Op : string) (Val : Value)
| Grouping (Val : Value)
| Builtin (Name : string) (Type_ : IRType) (Args : list Value)
| Call (Left : Value) (Params : list Value)
| Index (Left : Value) (Sub : Value)
| Path (Values : list Value)
| Init (Kind : Ast.InitKind) (LHand : option Token) (Values : list Value)
| Assign (LHand : Value) (Op : string) (RHand : Value)
| EmptyValue
with IRType : Type :=
| Primitive (Name : string)
| PointerType (Base : IRType)
| ArrayType (Base : IRType) (Size : Value)
| TupleType (Types : list IRType)
| ReferenceType (Name : string)
| StructureType (s : Structure)
with Structure : Type :=
| NewStructure (Name : Token) (Fields : list (Token * (bool * IRType))).

Definition Void : IRType := Primitive "void".

(** Modelled from the spec: the type dictionary ([newTypeDict], [Set])
    is not in src/; the spec has an "ordered name→(owned:boolean,
    type) mapping": [Set] replaces the entry of a name it has, and
    adds one at the end otherwise. *)
Definition TypeDict : Type := list (Token * (bool * IRType)).

Definition newTypeDict : TypeDict := [].

Fixpoint TypeDict_Set (d : TypeDict) (name : Token) (owned : bool)
  (t : IRType) : TypeDict :=
  match d with
  | [] => [(name, (owned, t))]
  | (n, e) :: d' =>
    if String.eqb (Lexer.Value n) (Lexer.Value name) then (name, (owned, t)) :: d'
    else (n, e) :: TypeDict_Set d' name owned t
  end.

Definition StructureName (s : Structure) : Token :=
  match s with NewStructure n _ => n end.

Definition StructureFields (s : Structure) : TypeDict :=
  match s with NewStructure _ f => f end.

(** A pointer to a symbol table is its index in the store of tables
    ([stabs]); the nil pointer is [None]. *)
Definition stabRef : Type := option nat.

(** An instruction. The builder tags an expression statement
    ([ExpressionStatement]); the passes in middle/ switch on the
    dynamic type, which for such a statement is that of the value
    (call, assign, path). [Alloca] is built by none of the sources and
    read by both passes. *)
Inductive Instruction : Type :=
| Alloca (Name : Token) (Type_ : option IRType) (Val : option Value)
| Local (Name : Token) (Type_ : option IRType) (Owned : bool)
    (Mutable : bool) (Val : option Value)
| Return (Val : option Value)
| IfStatement (Cond : Value) (True_ : Block)
    (ElseIf : list (Value * Block)) (Else : option Block)
| WhileLoop (Cond : Value) (Post : option Value) (Body : Block)
| Loop (Body : Block)
| BlockInstr (b : Block)
| Break
| Next
| Jump (Location : Token)
| Label (Name : Token)
| ExpressionStatement (v : Value)
| Defer (Stat : option Instruction) (Block_ : option Block)
with Block : Type :=
| mkBlock (Instr : list Instruction)
    (DeferStack : list (option Instruction * option Block))
    (Return_ : option Instruction) (Stab : stabRef).

Definition Instr (b : Block) : list Instruction :=
  match b with mkBlock i _ _ _ => i end.
Definition DeferStack (b : Block)
  : list (option Instruction * option Block) :=
  match b with mkBlock _ d _ _ => d end.
Definition Return_ (b : Block) : option Instruction :=
  match b with mkBlock _ _ r _ => r end.
Definition Stab (b : Block) : stabRef :=
  match b with mkBlock _ _ _ s => s end.

(** Modelled from the spec: the methods of [Block] are not in src/.
    The spec has "Block(instructions, deferred, trailing-return?)":
    [AddInstr] appends to the instructions, [PushDefer] to the
    deferred list, [SetReturn] fills the one trailing-return slot.
    The scope of a block is attached by a stage that is not in src/;
    [NewBlock] leaves it nil. *)
Definition NewBlock : Block := mkBlock [] [] None None.

Definition AddInstr (b : Block) (st : Instruction) : Block :=
  mkBlock (Instr b ++ [st]) (DeferStack b) (Return_ b) (Stab b).

Definition PushDefer (b : Block) (d : option Instruction * option Block)
  : Block :=
  mkBlock (Instr b) (DeferStack b ++ [d]) (Return_ b) (Stab b).

Definition SetReturn (b : Block) (st : Instruction) : Block :=
  mkBlock (Instr b) (DeferStack b) (Some st) (Stab b).

Record Function : Type := NewFunction_ {
  FunctionName : Token;
  MutabilityTable : list bool;
  Params : TypeDict;
  ReturnType : IRType;
  Body : Block;
  FunctionStab : stabRef
}.

Definition NewFunction (name : Token) (mutabilityTable : list bool)
  (params : TypeDict) (ret : IRType) : Function :=
  {| FunctionName := name; MutabilityTable := mutabilityTable;
     Params := params; ReturnType := ret; Body := NewBlock;
     FunctionStab := None |}.

Definition setBody (f : Function) (b : Block) : Function :=
  {| FunctionName := FunctionName f; MutabilityTable := MutabilityTable f;
     Params := Params f; ReturnType := ReturnType f; Body := b;
     FunctionStab := FunctionStab f |}.

Record Impl : Type := mkImpl {
  ImplName : Token;
  Methods : gmap string Function
}.

Definition NewImpl (name : Token) : Impl :=
  {| ImplName := name; Methods := ∅ |}.

(** Modelled from the spec: [Impl.RegisterMethod] is not in src/.
    A duplicate method is flagged and not written ("last write wins
    unless a pass explicitly flags duplicates (duplicate impls,
    duplicate methods)"); the result tells whether the method was
    registered, since buildTree reports when it is false. *)
Definition RegisterMethod (i : Impl) (f : Function) : bool * Impl :=
  match Methods i !! Lexer.Value (FunctionName f) with
  | Some _ => (false, i)
  | None =>
    (true, {| ImplName := ImplName i;
              Methods := <[Lexer.Value (FunctionName f) := f]> (Methods i) |})
  end.

Record Module : Type := mkModule {
  ModuleName : string;
  Structures : gmap string Structure;
  Impls : gmap string Impl;
  Functions : gmap string Function;
  FunctionOrder : list Token;
  Root : stabRef
}.

Definition NewModule (name : string) : Module :=
  {| ModuleName := name; Structures := ∅; Impls := ∅; Functions := ∅;
     FunctionOrder := []; Root := None |}.

(** Modelled from the spec: the methods of [Module] are not in src/.
    Structures and functions follow "last write wins"; a duplicate
    impl is flagged and the first registration kept ("detecting and
    reporting duplicate impl names", "keeps the first registration's
    methods intact"): [RegisterImpl] answers true for a duplicate,
    which is when buildTree reports one. The module "preserves
    function declaration order". *)
Definition RegisterStructure (m : Module) (s : Structure) : Module :=
  {| ModuleName := ModuleName m;
     Structures := <[Lexer.Value (StructureName s) := s]> (Structures m);
     Impls := Impls m; Functions := Functions m;
     FunctionOrder := FunctionOrder m; Root := Root m |}.

Definition GetStructure (m : Module) (name : string) : option Structure :=
  Structures m !! name.

Definition setImpl (m : Module) (name : string) (i : Impl) : Module :=
  {| ModuleName := ModuleName m; Structures := Structures m;
     Impls := <[name := i]> (Impls m); Functions := Functions m;
     FunctionOrder := FunctionOrder m; Root := Root m |}.

Definition RegisterImpl (m : Module) (i : Impl) : bool * Module :=
  match Impls m !! Lexer.Value (ImplName i) with
  | Some _ => (true, m)
  | None => (false, setImpl m (Lexer.Value (ImplName i)) i)
  end.

Definition GetImpl (m : Module) (name : string) : option Impl :=
  Impls m !! name.

Definition RegisterFunction (m : Module) (f : Function) : Module :=
  {| ModuleName := ModuleName m; Structures := Structures m;
     Impls := Impls m;
     Functions := <[Lexer.Value (FunctionName f) := f]> (Functions m);
     FunctionOrder := FunctionOrder m ++ [FunctionName f];
     Root := Root m |}.

(** Symbol tables. *)
Record SymbolTable : Type := mkSymbolTable {
  Types : gmap string IRType;
  Outer : stabRef
}.

End IR.

(** ** The IR builder (package ir, AST to IR lowering) *)

Module Builder.
Import Lexer Api Ast.

Definition nilDeref {A : Type} : result A :=
  Panic "nil pointer dereference".

(** [for _, x := range l { out = append(out, f(x)) }] *)
Definition mapM {A B : Type} (f : A -> result B)
  : list A -> result (list B) :=
  fix go (l : list A) : result (list B) :=
    match l with
    | [] => Ok []
    | x :: l' =>
      let* y := f x in
      let* ys := go l' in
      Ok (y :: ys)
    end.

Definition foldM {A S : Type} (f : S -> A -> result S)
  : list A -> S -> result S :=
  fix go (l : list A) (s : S) : result S :=
    match l with
    | [] => Ok s
    | x :: l' =>
      let* s' := f s x in
      go l' s'
    end.

Fixpoint unsnoc {A : Type} (l : list A) : option (list A * A) :=
  match l with
  | [] => None
  | x :: l' =>
    match unsnoc l' with
    | None => Some ([], x)
    | Some (init, last) => Some (x :: init, last)
    end
  end.

(** One turn of the loop of buildPathExpression: the values of a
    built path are spliced in, any other value is appended. *)
Definition appendPath (values : list IR.Value) (val : IR.Value)
  : list IR.Value :=
  match val with
  | IR.Path vs => values ++ vs
  | _ => values ++ [val]
  end.

Definition pathLoop {A : Type} (build : A -> result IR.Value)
  : list A -> list IR.Value -> result (list IR.Value) :=
  fix go (l : list A) (values : list IR.Value) : result (list IR.Value) :=
    match l with
    | [] => Ok values
    | e :: l' =>
      let* val := build e in
      go l' (appendPath values val)
    end.

(** The rewrite of buildExpr on a built path: a binary expression in
    the last place becomes the root, with the path as its left
    operand. Indexing the last place of an empty path panics. *)
Definition rewritePath (values : list IR.Value) : result IR.Value :=
  match unsnoc values with
  | None => Panic "index out of range"
  | Some (init, IR.BinaryExpression lh op rh) =>
    Ok (IR.BinaryExpression (IR.Path (init ++ [lh])) op rh)
  | Some _ => Ok (IR.Path values)
  end.

Definition buildConst (e : ConstantNode) : result IR.Value :=
  match e with
  | IntegerConstant v => Ok (IR.IntegerValue v)
  | FloatingConstant v => Ok (IR.FloatingValue v)
  | StringConstant v => Ok (IR.StringValue v)
  | CharacterConstant v => Ok (IR.CharacterValue v)
  | VariableReference name => Ok (IR.Identifier name)
  end.

Section Lowering.

(** The table [PrimitiveType] of package ir is not in src/;
    [PrimitiveType name] tells whether it has [name]. *)
Variable PrimitiveType : string -> bool.

Definition buildUnresolvedType (name : string) : IR.IRType :=
  if PrimitiveType name then IR.Primitive name
  else IR.ReferenceType name.

(** buildType reads the node in a type position as a TypeNode.
    parse.go wraps a TypeNode in an expression of kind TypeExpression;
    an expression of another kind there has none of the four type
    kinds and reaches the default branch. *)
Fixpoint buildExpr (expr : ExpressionNode) : result IR.Value :=
  let buildOpt (o : option ExpressionNode) : result IR.Value :=
    match o with
    | Some e => buildExpr e
    | None => nilDeref
    end in
  match expr with
  | ConstantExpression c => buildConst c
  | LambdaExpression _ _ => Ok IR.EmptyValue
  | BinaryExpression lhand op rhand =>
    let* lh := buildExpr lhand in
    let* rh := buildExpr rhand in
    Ok (IR.BinaryExpression lh op rh)
  | Grouping v =>
    let* val := buildOpt v in
    Ok (IR.Grouping val)
  | BuiltinExpression name ty args =>
    let* args' := mapM buildExpr args in
    let* t := buildType ty in
    Ok (IR.Builtin name t args')
  | UnaryExpression op v =>
    let* val := buildOpt v in
    Ok (IR.UnaryExpression op val)
  | AssignStatement lhand op rhand =>
    let* lh := buildExpr lhand in
    let* rh := buildOpt rhand in
    Ok (IR.Assign lh op rh)
  | CallExpression lhand params =>
    let* l := buildExpr lhand in
    let* ps := mapM buildOpt params in
    Ok (IR.Call l ps)
  | PathExpression values =>
    let* vs := pathLoop buildOpt values [] in
    rewritePath vs
  | IndexExpression lhand v =>
    let* l := buildExpr lhand in
    let* sub := buildOpt v in
    Ok (IR.Index l sub)
  | InitializerExpression kind lhand values =>
    let* vals := mapM buildExpr values in
    let iden := match kind with
                | InitStructure => Some lhand
                | InitOther => None
                end in
    Ok (IR.Init kind iden vals)
  | TypeExpression _ => Panic "unhandled expr"
  | ListExpression _ => Panic "unhandled expr"
  end
with buildType (node : ExpressionNode) : result IR.IRType :=
  match node with
  | TypeExpression (Some t) => buildTypeNode t
  | TypeExpression None => nilDeref
  | _ => Panic "unimplemented type"
  end
with buildTypeNode (node : TypeNode) : result IR.IRType :=
  match node with
  | UnresolvedType name => Ok (buildUnresolvedType name)
  | PointerType base =>
    let* b := buildType base in
    Ok (IR.PointerType b)
  | TupleType types =>
    let* ts := mapM buildType types in
    Ok (IR.TupleType ts)
  | ArrayType base size =>
    let* sz := match size with
               | Some e => buildExpr e
               | None => nilDeref
               end in
    let* b := match base with
              | Some e => buildType e
              | None => nilDeref
              end in
    Ok (IR.ArrayType b sz)
  | StructureType _ _ => Panic "unimplemented type"
  end.

Definition buildExprOpt (o : option ExpressionNode) : result IR.Value :=
  match o with
  | Some e => buildExpr e
  | None => nilDeref
  end.

Definition buildTypeOpt (o : option ExpressionNode) : result IR.IRType :=
  match o with
  | Some e => buildType e
  | None => nilDeref
  end.

(** [if x != nil { v = build(x) }] *)
Definition whenSome {A B : Type} (f : A -> result B) (o : option A)
  : result (option B) :=
  match o with
  | Some a => let* b := f a in Ok (Some b)
  | None => Ok None
  end.

Definition buildPathExpression (values : list (option ExpressionNode))
  : result IR.Value :=
  let* vs := pathLoop buildExprOpt values [] in
  Ok (IR.Path vs).

Definition buildLetStat (name : Token) (owned : bool)
  (ty val : option ExpressionNode) : result IR.Instruction :=
  let* val := whenSome buildExpr val in
  let* typ := whenSome buildType ty in
  Ok (IR.Local name typ owned true val).

Definition buildMutStat (name : Token) (owned : bool)
  (ty val : option ExpressionNode) : result IR.Instruction :=
  let* val := whenSome buildExpr val in
  let* typ :=
    match ty with
    | Some t => let* typ := buildType t in Ok (Some typ)
    | None =>
      match val with
      | None => Panic "no expression to infer from"
      | Some _ => Ok None
      end
    end in
  Ok (IR.Local name typ owned true val).

Definition buildReturnStat (val : option ExpressionNode)
  : result IR.Instruction :=
  let* val := whenSome buildExpr val in
  Ok (IR.Return val).

(** The [switch st.Kind] of buildBlock. *)
Definition place (res : IR.Block) (st : IR.Instruction) : IR.Block :=
  match st with
  | IR.Defer stat block => IR.PushDefer res (stat, block)
  | IR.Return _ => IR.SetReturn res st
  | _ => IR.AddInstr res st
  end.

Definition blockLoop {A : Type} (build : A -> result IR.Instruction)
  : list A -> IR.Block -> result IR.Block :=
  foldM (fun res stat => let* st := build stat in Ok (place res st)).

(** buildStat never returns nil, so the test [st == nil] of
    buildBlock is never true and has no counterpart here. *)
Fixpoint buildStat (stat : ParseTreeNode) : result IR.Instruction :=
  let buildBlockOpt (o : option BlockNode) : result IR.Block :=
    match o with
    | Some b => buildBlock b
    | None => nilDeref
    end in
  match stat with
  | BlockStatement block =>
    let* body := buildBlockOpt block in
    Ok (IR.BlockInstr body)
  | LetStatement name owned ty val => buildLetStat name owned ty val
  | MutableStatement name owned ty val => buildMutStat name owned ty val
  | ReturnStatement val => buildReturnStat val
  | BreakStatement => Ok IR.Break
  | NextStatement => Ok IR.Next
  | LoopStatement block =>
    let* body := buildBlock block in
    Ok (IR.Loop body)
  | WhileLoopStatement cond post block =>
    let* c := buildExprOpt cond in
    let* p := whenSome buildExpr post in
    let* body := buildBlock block in
    Ok (IR.WhileLoop c p body)
  | IfStatement cond block els elseIfs =>
    let* c := buildExprOpt cond in
    let* t := buildBlockOpt block in
    let* elses :=
      mapM (fun elif =>
              match elif with
              | mkElseIfNode ec eb =>
                let* c := buildExpr ec in
                let* b := buildBlock eb in
                Ok (c, b)
              end) elseIfs in
    let* f := match els with
              | Some b => let* b' := buildBlock b in Ok (Some b')
              | None => Ok None
              end in
    Ok (IR.IfStatement c t elses f)
  | DeferStatement block statement =>
    let* st := match statement with
               | Some s => let* s' := buildStat s in Ok (Some s')
               | None => Ok None
               end in
    let* bl := match block with
               | Some b => let* b' := buildBlock b in Ok (Some b')
               | None => Ok None
               end in
    Ok (IR.Defer st bl)
  | ExpressionStatement e =>
    let* v := buildExpr e in
    Ok (IR.ExpressionStatement v)
  | JumpStatement location => Ok (IR.Jump location)
  | LabelStatement name => Ok (IR.Label name)
  | _ => Panic "unimplemented stat!"
  end
with buildBlock (block : BlockNode) : result IR.Block :=
  match block with
  | mkBlockNode statements => blockLoop buildStat statements IR.NewBlock
  end.

Definition buildBlockOpt (o : option BlockNode) : result IR.Block :=
  match o with
  | Some b => buildBlock b
  | None => nilDeref
  end.

Definition buildFunc (node : FunctionDeclaration) : result IR.Function :=
  match node with
  | mkFunctionDeclaration (mkPrototype name arguments returnType) body =>
    let mutabilityTable :=
      map (fun p => match p with mkNamedType m _ _ _ => m end) arguments in
    let* params :=
      foldM (fun params p =>
               match p with
               | mkNamedType _ pname owned ty =>
                 let* t := buildTypeOpt ty in
                 Ok (IR.TypeDict_Set params pname owned t)
               end) arguments IR.newTypeDict in
    let* ret := match returnType with
                | Some t => buildType t
                | None => Ok IR.Void
                end in
    let fn := IR.NewFunction name mutabilityTable params ret in
    let* body' := buildBlockOpt body in
    Ok (IR.setBody fn body')
  end.

Record builder : Type := mkBuilder {
  mod_ : IR.Module;
  errors : list CompilerError
}.

Definition newBuilder (m : IR.Module) : builder :=
  {| mod_ := m; errors := [] |}.

Definition error (b : builder) (err : CompilerError) : builder :=
  {| mod_ := mod_ b; errors := errors b ++ [err] |}.

Definition setMod (b : builder) (m : IR.Module) : builder :=
  {| mod_ := m; errors := errors b |}.

Definition declareStructure (name : Token) : IR.Structure :=
  IR.NewStructure name IR.newTypeDict.

(** The first loop of buildTree: every structure and impl is
    declared; the nodes are kept for the second visit. *)
Definition declare
  (st : builder * list (Token * list NamedType)
        * list (Token * list FunctionDeclaration))
  (n : ParseTreeNode)
  : builder * list (Token * list NamedType)
    * list (Token * list FunctionDeclaration) :=
  let '(b, structureNodes, implNodes) := st in
  match n with
  | StructureDeclStatement name fields =>
    (setMod b (IR.RegisterStructure (mod_ b) (declareStructure name)),
     structureNodes ++ [(name, fields)], implNodes)
  | ImplDeclStatement name functions =>
    let '(dup, m) := IR.RegisterImpl (mod_ b) (IR.NewImpl name) in
    let b' := setMod b m in
    (if dup then error b' (DuplicateImplementation name) else b',
     structureNodes, implNodes ++ [(name, functions)])
  | _ => st
  end.

Definition setStructure (m : IR.Module) (name : string) (s : IR.Structure)
  : IR.Module :=
  {| IR.ModuleName := IR.ModuleName m;
     IR.Structures := <[name := s]> (IR.Structures m);
     IR.Impls := IR.Impls m; IR.Functions := IR.Functions m;
     IR.FunctionOrder := IR.FunctionOrder m; IR.Root := IR.Root m |}.

(** The second loop: the fields of each structure, written through
    the pointer that GetStructure returns. *)
Definition defineStructure (b : builder) (sn : Token * list NamedType)
  : result builder :=
  let '(name, fields) := sn in
  match IR.GetStructure (mod_ b) (Value name) with
  | None => Panic "couldn't find structure"
  | Some structure =>
    let* fs :=
      foldM (fun fs tn =>
               match tn with
               | mkNamedType _ fname owned ty =>
                 let* typ := buildTypeOpt ty in
                 Ok (IR.TypeDict_Set fs fname owned typ)
               end) fields (IR.StructureFields structure) in
    Ok (setMod b (setStructure (mod_ b) (Value name)
                    (IR.NewStructure (IR.StructureName structure) fs)))
  end.

(** The third loop: the methods of each impl, registered on the impl
    that GetImpl returns. *)
Definition defineMethod (st : builder * IR.Impl) (fn : FunctionDeclaration)
  : result (builder * IR.Impl) :=
  let '(b, impl) := st in
  let* builtFunc := buildFunc fn in
  let '(ok, impl') := IR.RegisterMethod impl builtFunc in
  let name := IR.FunctionName builtFunc in
  Ok (if ok then b else error b (NewSymbolError (Value name) (Span name)),
      impl').

Definition defineImpl (b : builder)
  (inode : Token * list FunctionDeclaration) : result builder :=
  let '(name, functions) := inode in
  match IR.GetImpl (mod_ b) (Value name) with
  | None => Panic "couldn't find impl"
  | Some impl =>
    let* '(b', impl') := foldM defineMethod functions (b, impl) in
    Ok (setMod b' (IR.setImpl (mod_ b') (Value name) impl'))
  end.

(** The last loop: the functions. *)
Definition defineFunction (b : builder) (n : ParseTreeNode)
  : result builder :=
  match n with
  | FunctionDeclStatement fd =>
    let* f := buildFunc fd in
    Ok (setMod b (IR.RegisterFunction (mod_ b) f))
  | _ => Ok b
  end.

Definition buildTree (b : builder) (nodes : list ParseTreeNode)
  : result builder :=
  let '(b1, structureNodes, implNodes) :=
    fold_left declare nodes (b, [], []) in
  let* b2 := foldM defineStructure structureNodes b1 in
  let* b3 := foldM defineImpl implNodes b2 in
  foldM defineFunction nodes b3.

Definition build (trees : list (list ParseTreeNode))
  : result (IR.Module * list CompilerError) :=
  let* b := foldM buildTree trees (newBuilder (IR.NewModule "main")) in
  Ok (mod_ b, errors b).

End Lowering.

End Builder.

(** ** The scope and type passes (package middle) *)

Module Middle.
Import Lexer Api.

(** The store of symbol tables: a pointer to a table is a key. *)
Abbreviation stabs := (gmap nat IR.SymbolTable).

Definition deref (st : stabs) (r : IR.stabRef) : option IR.SymbolTable :=
  match r with
  | Some id => st !! id
  | None => None
  end.

(** Modelled from the spec: [SymbolTable.Lookup] is not in src/.
    "Identifier resolution walks outward through Outer links until
    the name is found or the chain is exhausted"; a chain of Outer
    links that never ends uses up the fuel. *)
Fixpoint Lookup (fuel : nat) (st : stabs) (r : IR.stabRef) (name : string)
  : result (option IR.IRType) :=
  match deref st r with
  | None => Ok None
  | Some tab =>
    match IR.Types tab !! name with
    | Some t => Ok (Some t)
    | None =>
      match fuel with
      | O => OutOfFuel
      | S fuel' => Lookup fuel' st (IR.Outer tab) name
      end
    end
  end.

(** Modelled from the spec: [SymbolTable.RegisterType] is not in
    src/. It writes the "mapping name→registered Type for that scope
    only", last write wins; on a nil table it panics. *)
Definition RegisterType (st : stabs) (r : IR.stabRef) (name : string)
  (t : IR.IRType) : result stabs :=
  match r, deref st r with
  | Some id, Some tab =>
    Ok (<[id := {| IR.Types := <[name := t]> (IR.Types tab);
                   IR.Outer := IR.Outer tab |}]> st)
  | _, _ => Panic "nil pointer dereference"
  end.

(** The name that reflect.TypeOf gives the dynamic type of a value
    or an instruction. *)
Definition valueTypeName (v : IR.Value) : string :=
  match v with
  | IR.IntegerValue _ => "*ir.IntegerValue"
  | IR.FloatingValue _ => "*ir.FloatingValue"
  | IR.StringValue _ => "*ir.StringValue"
  | IR.CharacterValue _ => "*ir.CharacterValue"
  | IR.Identifier _ => "*ir.Identifier"
  | IR.BinaryExpression _ _ _ => "*ir.BinaryExpression"
  | IR.UnaryExpression _ _ => "*ir.UnaryExpression"
  | IR.Grouping _ => "*ir.Grouping"
  | IR.Builtin _ _ _ => "*ir.Builtin"
  | IR.Call _ _ => "*ir.Call"
  | IR.Index _ _ => "*ir.Index"
  | IR.Path _ => "*ir.Path"
  | IR.Init _ _ _ => "*ir.Init"
  | IR.Assign _ _ _ => "*ir.Assign"
  | IR.EmptyValue => "*ir.Value"
  end.

Definition instrTypeName (i : IR.Instruction) : string :=
  match i with
  | IR.Alloca _ _ _ => "*ir.Alloca"
  | IR.Local _ _ _ _ _ => "*ir.Local"
  | IR.Return _ => "*ir.Return"
  | IR.IfStatement _ _ _ _ => "*ir.IfStatement"
  | IR.WhileLoop _ _ _ => "*ir.WhileLoop"
  | IR.Loop _ => "*ir.Loop"
  | IR.BlockInstr _ => "*ir.Block"
  | IR.Break => "*ir.Break"
  | IR.Next => "*ir.Next"
  | IR.Jump _ => "*ir.Jump"
  | IR.Label _ => "*ir.Label"
  | IR.ExpressionStatement v => valueTypeName v
  | IR.Defer _ _ => "*ir.Defer"
  end.

(** *** Scope resolution (middle/sym_resolve.go) *)

Record symResolvePass : Type := mkSymResolvePass {
  errors : list CompilerError;
  curr : IR.stabRef
}.

Section SymResolve.

(** The tables are read and never written by this pass; [fuel]
    bounds the walk of [Lookup]. *)
Variable fuel : nat.
Variable st : stabs.

Definition error (s : symResolvePass) (err : CompilerError)
  : symResolvePass :=
  {| errors := errors s ++ [err]; curr := curr s |}.

Definition push (s : symResolvePass) (stab : IR.stabRef) : symResolvePass :=
  {| errors := errors s; curr := stab |}.

Definition pop (s : symResolvePass) : symResolvePass :=
  match curr s with
  | Some _ =>
    {| errors := errors s;
       curr := match deref st (curr s) with
               | Some tab => IR.Outer tab
               | None => None
               end |}
  | None => s
  end.

Definition resolveIden (s : symResolvePass) (name : Token)
  : result symResolvePass :=
  let* found := Lookup fuel st (curr s) (Value name) in
  match found with
  | Some _ => Ok s
  | None => Ok (error s (NewUnresolvedSymbol (Value name) (Span name)))
  end.

Fixpoint resolveValue (e : IR.Value) (s : symResolvePass)
  : result symResolvePass :=
  match e with
  | IR.IntegerValue _ => Ok s
  | IR.StringValue _ => Ok s
  | IR.FloatingValue _ => Ok s
  | IR.BinaryExpression lhand _ rhand =>
    let* s1 := resolveValue lhand s in
    resolveValue rhand s1
  | IR.Identifier name => resolveIden s name
  | _ => Panic "unhandled val"
  end.

Definition resolveOpt (v : option IR.Value) (s : symResolvePass)
  : result symResolvePass :=
  match v with
  | Some e => resolveValue e s
  | None => Ok s
  end.

Definition resolveAlloca := resolveOpt.
Definition resolveLocal := resolveOpt.

Definition resolveAssign (s : symResolvePass) : result symResolvePass :=
  Ok s.

Definition resolveCall (s : symResolvePass) : result symResolvePass :=
  Ok s.

Definition eachM {A S : Type} (f : A -> S -> result S)
  : list A -> S -> result S :=
  fix go (l : list A) (s : S) : result S :=
    match l with
    | [] => Ok s
    | x :: l' =>
      let* s' := f x s in
      go l' s'
    end.

Fixpoint resolveInstr (i : IR.Instruction) (s : symResolvePass)
  : result symResolvePass :=
  match i with
  | IR.Alloca _ _ val => resolveAlloca val s
  | IR.Local _ _ _ _ val => resolveLocal val s
  | IR.Return val => resolveOpt val s
  | IR.IfStatement cond true_ elseIf else_ =>
    let* s1 := resolveValue cond s in
    let* s2 := resolveBlock true_ s1 in
    let* s3 := eachM (fun e => resolveBlock (snd e)) elseIf s2 in
    match else_ with
    | Some b => resolveBlock b s3
    | None => Ok s3
    end
  | IR.WhileLoop cond post body =>
    let* s1 := resolveValue cond s in
    let* s2 := match post with
               | Some _ => resolveValue cond s1
               | None => Ok s1
               end in
    resolveBlock body s2
  | IR.Loop body => resolveBlock body s
  | IR.BlockInstr b => resolveBlock b s
  | IR.ExpressionStatement (IR.Call _ _) => resolveCall s
  | IR.ExpressionStatement (IR.Assign _ _ _) => resolveAssign s
  | _ => Panic "unhandled instr"
  end
with resolveBlock (b : IR.Block) (s : symResolvePass)
  : result symResolvePass :=
  match b with
  | IR.mkBlock instr _ _ stab =>
    let* s1 := eachM resolveInstr instr (push s stab) in
    Ok (pop s1)
  end.

(** resolveFunc also prints the current table as JSON, which leaves
    the pass as it is. *)
Definition resolveFunc (fn : IR.Function) (s : symResolvePass)
  : result symResolvePass :=
  let* s1 := eachM resolveInstr (IR.Instr (IR.Body fn))
               (push s (IR.FunctionStab fn)) in
  Ok (pop s1).

(** Go ranges over the maps of the module in an order of its own
    choosing; [map_to_list] is one such order. *)
Definition symResolve (m : IR.Module) : result (list CompilerError) :=
  let methods :=
    flat_map (fun ki => map snd (map_to_list (IR.Methods (snd ki))))
      (map_to_list (IR.Impls m)) in
  let functions := map snd (map_to_list (IR.Functions m)) in
  let* srp := eachM resolveFunc (methods ++ functions)
                {| errors := []; curr := None |} in
  Ok (errors srp).

End SymResolve.

(** *** Type declaration (middle/decl_type.go) *)

Record decl : Type := mkDecl {
  dmod : IR.Module;
  dstabs : stabs;
  derrors : list CompilerError;
  dcurr : IR.stabRef
}.

Definition derror (d : decl) (e : CompilerError) : decl :=
  {| dmod := dmod d; dstabs := dstabs d; derrors := derrors d ++ [e];
     dcurr := dcurr d |}.

Definition dpush (d : decl) (stab : IR.stabRef) : decl :=
  {| dmod := dmod d; dstabs := dstabs d; derrors := derrors d;
     dcurr := stab |}.

Definition dpop (d : decl) : result decl :=
  match deref (dstabs d) (dcurr d) with
  | Some tab =>
    Ok {| dmod := dmod d; dstabs := dstabs d; derrors := derrors d;
          dcurr := IR.Outer tab |}
  | None => Panic "nil pointer dereference"
  end.

Definition regType (d : decl) (name : string) (t : IR.IRType)
  : result decl :=
  let* st := RegisterType (dstabs d) (dcurr d) name t in
  Ok {| dmod := dmod d; dstabs := st; derrors := derrors d;
        dcurr := dcurr d |}.

(** The type that visitLocal leaves in [l.Type]: a reference to a
    registered structure becomes the structure. *)
Definition linkType (m : IR.Module) (t : IR.IRType) : IR.IRType :=
  match t with
  | IR.ReferenceType name =>
    match IR.Structures m !! name with
    | Some structure => IR.StructureType structure
    | None => t
    end
  | _ => t
  end.

(** The visitors return the instruction with the fields they have
    rewritten in place. *)
Definition visitLocal (name : Token) (ty : option IR.IRType)
  (owned mutable : bool) (val : option IR.Value) (d : decl)
  : result (IR.Instruction * decl) :=
  match ty with
  | None =>
    Ok (IR.Local name ty owned mutable val,
        derror d (NewUnimplementedError ["type inference"] []))
  | Some t =>
    let t' := linkType (dmod d) t in
    let* d' := regType d (Value name) t' in
    Ok (IR.Local name (Some t') owned mutable val, d')
  end.

Definition visitAlloca (name : Token) (ty : option IR.IRType)
  (val : option IR.Value) (d : decl) : result (IR.Instruction * decl) :=
  match ty with
  | None =>
    Ok (IR.Alloca name ty val,
        derror d (NewUnimplementedError ["type inference"] []))
  | Some t =>
    let* d' := regType d (Value name) t in
    Ok (IR.Alloca name ty val, d')
  end.

Definition visitEach {A : Type} (f : A -> decl -> result (A * decl))
  : list A -> decl -> result (list A * decl) :=
  fix go (l : list A) (d : decl) : result (list A * decl) :=
    match l with
    | [] => Ok ([], d)
    | x :: l' =>
      let* '(x', d1) := f x d in
      let* '(l'', d2) := go l' d1 in
      Ok (x' :: l'', d2)
    end.

Fixpoint visitInstr (i : IR.Instruction) (d : decl)
  : result (IR.Instruction * decl) :=
  match i with
  | IR.BlockInstr b =>
    let* '(b', d') := visitBlock b d in
    Ok (IR.BlockInstr b', d')
  | IR.Local name ty owned mutable val =>
    visitLocal name ty owned mutable val d
  | IR.Alloca name ty val => visitAlloca name ty val d
  | IR.ExpressionStatement (IR.Path _) => Ok (i, d)
  | IR.Return _ => Ok (i, d)
  | _ =>
    Ok (i, derror d (NewUnimplementedError
                       [("visitInstr: " ++ instrTypeName i)%string] []))
  end
with visitBlock (b : IR.Block) (d : decl) : result (IR.Block * decl) :=
  match b with
  | IR.mkBlock instr defers ret stab =>
    let* '(instr', d1) := visitEach visitInstr instr (dpush d stab) in
    let* d2 := dpop d1 in
    Ok (IR.mkBlock instr' defers ret stab, d2)
  end.

Definition setFunction (m : IR.Module) (name : string) (f : IR.Function)
  : IR.Module :=
  {| IR.ModuleName := IR.ModuleName m; IR.Structures := IR.Structures m;
     IR.Impls := IR.Impls m;
     IR.Functions := <[name := f]> (IR.Functions m);
     IR.FunctionOrder := IR.FunctionOrder m; IR.Root := IR.Root m |}.

Definition declFunction (name : Token) (d : decl) : result decl :=
  match IR.Functions (dmod d) !! Value name with
  | None => Panic "nil pointer dereference"
  | Some fn =>
    match IR.Body fn with
    | IR.mkBlock instr defers ret stab =>
      let* '(instr', d1) :=
        visitEach visitInstr instr (dpush d (IR.FunctionStab fn)) in
      let* d2 := dpop d1 in
      let fn' := IR.setBody fn (IR.mkBlock instr' defers ret stab) in
      Ok {| dmod := setFunction (dmod d2) (Value name) fn';
            dstabs := dstabs d2; derrors := derrors d2;
            dcurr := dcurr d2 |}
    end
  end.

Definition declType (m : IR.Module) (st : stabs)
  : result (IR.Module * stabs * list CompilerError) :=
  let d := dpush {| dmod := m; dstabs := st; derrors := [];
                    dcurr := None |} (IR.Root m) in
  let* d' := eachM declFunction (IR.FunctionOrder m) d in
  Ok (dmod d', dstabs d', derrors d').

End Middle.

(** * Vocabulary of the statements *)

Module LexSpec.
Import Go Lexer.

(** The runes of a source, when every one of them decodes: [skip]
    bytes of the rune being read are still to be passed over. *)
Fixpoint runesFrom (skip : nat) (s : string) : option (list rune) :=
  match s with
  | EmptyString => Some []
  | String _ s' =>
    match skip with
    | S k => runesFrom k s'
    | O =>
      let '(r, w) := DecodeRune s in
      if (r =? RuneError)%Z then None
      else option_map (cons r) (runesFrom (w - 1) s')
    end
  end.

Definition runes (s : string) : option (list rune) := runesFrom 0 s.

Definition quote : rune := 34%Z.

Definition quotes (rs : list rune) : nat :=
  length (List.filter (Z.eqb quote) rs).

(** Every rune that unicode.IsDigit accepts is one of 0 to 9. *)
Definition digitsAscii (U : Unicode) (rs : list rune) : bool :=
  forallb (fun r => implb (IsDigit U r) (inRange 48 57 r)) rs.

Definition quotesPaired (rs : list rune) : bool := Nat.even (quotes rs).

Definition digitOk (U : Unicode) (r : rune) : Prop :=
  IsDigit U r = true -> inRange 48 57 r = true.

(** The lexer stands before the runes [rs]. *)
Definition Before (l : lexer) (rs : list rune) : Prop :=
  runes (string_drop (pos l) (input l)) = Some rs
  /\ (start l <= pos l <= String.length (input l))%nat.

(** What a state function leaves: it has passed [cons], not empty
    and with its quotes in pairs, and stands before [rest]. *)
Definition passes (rs : list rune) (l' : lexer) : Prop :=
  exists cons rest,
    rs = cons ++ rest /\ cons <> [] /\ Nat.even (quotes cons) = true
    /\ Before l' rest.

Definition dq : string := String (ascii_of_nat 34) "".

Definition quotedSource : string :=
  ("let s = " ++ dq ++ "a b" ++ dq ++ ";")%string.

Definition invalidByte : string := String (ascii_of_nat 255) "".

(** A string literal that is opened and not closed. *)
Definition unterminatedSource : string := (dq ++ "abc")%string.

End LexSpec.

Module OpTree.
Import Lexer Ast Parser.

Inductive optree : Type :=
| Leaf (t : Token)
| Node (l : optree) (op : Token) (r : optree).

Fixpoint inorder (t : optree) : list Token :=
  match t with
  | Leaf tok => [tok]
  | Node l op r => inorder l ++ op :: inorder r
  end.

Definition rootPrec (t : optree) : option Z :=
  match t with
  | Leaf _ => None
  | Node _ op _ => Some (getOpPrec (Value op))
  end.

Definition precLe (p : Z) (o : option Z) : Prop :=
  match o with Some q => (p <= q)%Z | None => True end.

Definition precLt (p : Z) (o : option Z) : Prop :=
  match o with Some q => (p < q)%Z | None => True end.

Fixpoint climbed (t : optree) : Prop :=
  match t with
  | Leaf _ => True
  | Node l op r =>
    climbed l /\ climbed r
    /\ precLe (getOpPrec (Value op)) (rootPrec l)
    /\ precLt (getOpPrec (Value op)) (rootPrec r)
  end.

Definition leafExpr (floatErr : string -> bool) (t : Token) : ExpressionNode :=
  match operandOf floatErr t with
  | Ok (Some e) => e
  | _ => ConstantExpression (VariableReference t)
  end.

Fixpoint toExpr (floatErr : string -> bool) (t : optree) : ExpressionNode :=
  match t with
  | Leaf tok => leafExpr floatErr tok
  | Node l op r =>
    BinaryExpression (toExpr floatErr l) (Value op) (toExpr floatErr r)
  end.

Definition isOperandTok (floatErr : string -> bool) (t : Token) : bool :=
  negb (Matches t (["struct"; "*"; "["; "("; ":"; "fn"]
                   ++ unaryOperators ++ builtins))
  && match operandOf floatErr t with Ok (Some _) => true | _ => false end.

Definition isOperatorTok (t : Token) : bool := isBinaryOp (Value t).

Definition endsExpression (t : Token) : bool :=
  negb (isBinaryOp (Value t))
  && negb (Matches t (["["; "("; "."] ++ assignOperators)).

Fixpoint flatPairs (ops : list (Token * Token)) : list Token :=
  match ops with
  | [] => []
  | (o, t) :: ops' => o :: t :: flatPairs ops'
  end.

Definition rest (p : parser) : list Token := skipn (pos p) (toks p).

Definition advance (p : parser) : parser :=
  {| toks := toks p; pos := S (pos p); errors := errors p |}.

(** The token that [next] reads: the head of the rest, or BadToken. *)
Definition headTok (l : list Token) : Token :=
  match l with t :: _ => t | [] => BadToken end.

Definition notPostfix (l : list Token) : Prop :=
  Matches (headTok l) ["["; "("] = false.

Definition advanceBy (k : nat) (p : parser) : parser :=
  {| toks := toks p; pos := k + pos p; errors := errors p |}.

Definition pairOk (floatErr : string -> bool) (ot : Token * Token) : Prop :=
  isOperatorTok (fst ot) = true /\ isOperandTok floatErr (snd ot) = true.

(** What follows the expression: no operator, no "[" and no "(". *)
Definition stops (tl : list Token) : Prop :=
  isBinaryOp (Value (headTok tl)) = false /\ notPostfix tl.

Definition headPrec (ops : list (Token * Token)) : option Z :=
  match ops with
  | (o, _) :: _ => Some (getOpPrec (Value o))
  | [] => None
  end.

(** [lePrec o q]: an operator precedence [o], when there is one, is
    at most [q], when there is one. *)
Definition lePrec (o q : option Z) : Prop :=
  match o, q with
  | Some a, Some b => (a <= b)%Z
  | _, _ => True
  end.

(** The token after the expression ends it: it is no operator, no
    "[", "(" or "." and no assignment operator (or there is none). *)
Definition endsExpr (tl : list Token) : bool :=
  let t := headTok tl in
  negb (isBinaryOp (Value t))
  && negb (Matches t (["["; "("; "."] ++ assignOperators)).

Definition pairOkb (floatErr : string -> bool) (ot : Token * Token) : bool :=
  isOperatorTok (fst ot) && isOperandTok floatErr (snd ot).

Definition num (v : string) (s : nat) := NewToken v Number s (S s).

Definition sym (v : string) (s : nat) := NewToken v Symbol s (S s).

End OpTree.

Module IRSpec.
Import Lexer.

(** What buildBlock is to do with the lowered statements of a block. *)
Definition isDefer (i : IR.Instruction) : bool :=
  match i with IR.Defer _ _ => true | _ => false end.

Definition isReturn (i : IR.Instruction) : bool :=
  match i with IR.Return _ => true | _ => false end.

Definition ordinary (i : IR.Instruction) : bool :=
  negb (isDefer i) && negb (isReturn i).

Definition deferOf (i : IR.Instruction)
  : list (option IR.Instruction * option IR.Block) :=
  match i with IR.Defer s b => [(s, b)] | _ => [] end.

Definition lastReturn (instrs : list IR.Instruction)
  : option IR.Instruction :=
  last (List.filter isReturn instrs).

Definition isPath (v : IR.Value) : bool :=
  match v with IR.Path _ => true | _ => false end.

Definition flatValues (vs : list IR.Value) : bool :=
  forallb (fun v => negb (isPath v)) vs.




Definition tokY : Lexer.Token := Lexer.NewToken "y" Lexer.Identifier 0 1.

End IRSpec.

Module Pipeline.
Import Lexer Api Ast Parser.

Section Run.

Variable U : Go.Unicode.

Variable floatErr : string -> bool.

Variable PrimitiveType : string -> bool.

(** Lexing, then parsing one expression. *)
Definition parseExpressionSource (fuel : nat) (src : string)
  : result (option ExpressionNode) :=
  let* ts := tokenizeInput U fuel src in
  let* '(e, _) := rExpression (parserAt floatErr fuel) (newParser ts) in
  Ok e.

(** Lexing, then parsing a unit. *)
Definition parseSource (fuel : nat) (src : string)
  : result (list ParseTreeNode * list CompilerError) :=
  let* ts := tokenizeInput U fuel src in
  ParseTokenStream floatErr fuel ts.

(** Lexing, parsing and lowering one expression. *)
Definition lowerExpressionSource (fuel : nat) (src : string)
  : result IR.Value :=
  let* e := parseExpressionSource fuel src in
  Builder.buildExprOpt PrimitiveType e.

(** Lexing, parsing and building the module of one unit; the
    diagnostics of the parser and of the builder. *)
Definition buildSource (fuel : nat) (src : string)
  : result (IR.Module * list CompilerError * list CompilerError) :=
  let* '(nodes, perrs) := parseSource fuel src in
  let* '(m, berrs) := Builder.build PrimitiveType [nodes] in
  Ok (m, perrs, berrs).

End Run.

(** The stage that attaches scopes to functions is not in src/;
    [withStab r m] is [m] with scope [r] on every function. *)
Definition withStab (r : IR.stabRef) (m : IR.Module) : IR.Module :=
  {| IR.ModuleName := IR.ModuleName m; IR.Structures := IR.Structures m;
     IR.Impls := IR.Impls m;
     IR.Functions :=
       (fun f => {| IR.FunctionName := IR.FunctionName f;
                    IR.MutabilityTable := IR.MutabilityTable f;
                    IR.Params := IR.Params f;
                    IR.ReturnType := IR.ReturnType f;
                    IR.Body := IR.Body f;
                    IR.FunctionStab := r |}) <$> IR.Functions m;
     IR.FunctionOrder := IR.FunctionOrder m; IR.Root := IR.Root m |}.

Definition tokX (v : string) (s e : nat) := NewToken v Identifier s e.

Definition pathABC : Ast.ExpressionNode :=
  Ast.PathExpression
    [Some (Ast.ConstantExpression (Ast.VariableReference (tokX "a" 0 1)));
     Some (Ast.ConstantExpression (Ast.VariableReference (tokX "b" 2 3)));
     Some (Ast.ConstantExpression (Ast.VariableReference (tokX "c" 4 5)))].

End Pipeline.

Module ImplSpec.
Import Lexer Api Ast Builder.

Definition isImplNamed (nm : string) (n : ParseTreeNode) : bool :=
  match n with
  | ImplDeclStatement name _ => String.eqb (Value name) nm
  | _ => false
  end.

(** How many impl declarations of a unit have the name [nm]. *)
Definition implCount (nm : string) (nodes : list ParseTreeNode) : nat :=
  length (List.filter (isImplNamed nm) nodes).

(** The functions of the first impl declaration named [nm]. *)
Fixpoint firstImpl (nm : string) (nodes : list ParseTreeNode)
  : option (list FunctionDeclaration) :=
  match nodes with
  | [] => None
  | ImplDeclStatement name functions :: nodes' =>
    if String.eqb (Value name) nm then Some functions
    else firstImpl nm nodes'
  | _ :: nodes' => firstImpl nm nodes'
  end.

Definition declName (fd : FunctionDeclaration) : string :=
  match fd with
  | mkFunctionDeclaration (mkPrototype name _ _) _ => Value name
  end.

(** The first function of a list that has the name [k]. *)
Definition firstNamed (k : string) (fs : list FunctionDeclaration)
  : option FunctionDeclaration :=
  List.find (fun fd => String.eqb (declName fd) k) fs.

Definition isDuplicateOf (nm : string) (e : CompilerError) : bool :=
  match e with
  | DuplicateImplementation name => String.eqb (Value name) nm
  | _ => false
  end.

(** The number of duplicate-declaration diagnostics for [nm]. *)
Definition countDup (nm : string) (errs : list CompilerError) : nat :=
  length (List.filter (isDuplicateOf nm) errs).

Fixpoint implsOf (nodes : list ParseTreeNode)
  : list (Token * list FunctionDeclaration) :=
  match nodes with
  | [] => []
  | ImplDeclStatement name functions :: nodes' =>
    (name, functions) :: implsOf nodes'
  | _ :: nodes' => implsOf nodes'
  end.

Definition implsAt (b : builder) : gmap string IR.Impl := IR.Impls (mod_ b).

Definition sameDups (b b' : builder) : Prop :=
  forall nm, countDup nm (errors b') = countDup nm (errors b).

Definition methodsKept (impl impl' : IR.Impl) : Prop :=
  forall k f, IR.Methods impl !! k = Some f -> IR.Methods impl' !! k = Some f.

Definition noneNamed (nm : string)
  (ins : list (Token * list FunctionDeclaration)) : Prop :=
  Forall (fun i => Value (fst i) <> nm) ins.

Definition implA (s : nat) (body : list FunctionDeclaration) : ParseTreeNode :=
  ImplDeclStatement (NewToken "A" Identifier s (S s)) body.

Definition fnDecl (name : string) (ret : option ExpressionNode)
  : FunctionDeclaration :=
  mkFunctionDeclaration
    (mkPrototype (NewToken name Identifier 0 1) [] ret)
    (Some (mkBlockNode [])).

End ImplSpec.

Module PrecTable.
Import Lexer Ast Parser OpTree.

(** The precedence table written out level by level: "*", "/", "%"
    at 5; "+", "-" at 4; the comparisons at 3; "&&" at 2; "||" at 1;
    no other string is an operator. *)
Definition oneOf (op : string) (l : list string) : bool :=
  existsb (fun k => String.eqb k op) l.

Definition tablePrec (op : string) : option Z :=
  if oneOf op ["*"; "/"; "%"] then Some 5%Z
  else if oneOf op ["+"; "-"] then Some 4%Z
  else if oneOf op ["=="; "!="; "<"; "<="; ">"; ">="] then Some 3%Z
  else if oneOf op ["&&"] then Some 2%Z
  else if oneOf op ["||"] then Some 1%Z
  else None.

Definition tokenPrec (t : Token) : Z :=
  match tablePrec (Value t) with Some p => p | None => (-1)%Z end.

Definition rootPrecBy (prec : Token -> Z) (t : optree) : option Z :=
  match t with
  | Leaf _ => None
  | Node _ op _ => Some (prec op)
  end.

(** A tree in which the operator at the root of every right operand
    binds strictly tighter than its parent, and the one at the root of
    every left operand at least as tight. *)
Fixpoint climbedBy (prec : Token -> Z) (t : optree) : Prop :=
  match t with
  | Leaf _ => True
  | Node l op r =>
    climbedBy prec l /\ climbedBy prec r
    /\ precLe (prec op) (rootPrecBy prec l)
    /\ precLt (prec op) (rootPrecBy prec r)
  end.

Definition tableOperator (t : Token) : bool :=
  match tablePrec (Value t) with Some _ => true | None => false end.

Definition tablePairb (floatErr : string -> bool) (ot : Token * Token)
  : bool :=
  tableOperator (fst ot) && isOperandTok floatErr (snd ot).

End PrecTable.

Module GroupSpec.
Import Lexer Ast Parser OpTree.

(** A token that starts no type and is neither "," nor ")": the loop
    of parseTupleType does not get past it. *)
Definition startsNoType (t : Token) : bool :=
  negb (Matches t [","; ")"; "*"; "["; "("; "struct"])
  && negb (kindEqb (Kind t) Identifier).

(** The body of the loop of parseTupleType. *)
Definition tupleBody (self : Rec) (types : list ExpressionNode)
  : P (list ExpressionNode + list ExpressionNode) :=
  let! h := hasNext in
  if negb h then break types else
  let! comma := nextMatches [","] in
  (if comma then consume >> pure tt else pure tt) >>
  let! close := nextMatches [")"] in
  if close then break types else
  let! typ := rTypeExpression self in
  match typ with
  | Some t => continue (types ++ [t])
  | None => continue types
  end.

Definition groupedSource : string := "(1 + 2) * 3".

Definition groupedTokens : list Token :=
  [NewToken "(" Symbol 0 1; NewToken "1" Number 1 2; NewToken "+" Symbol 3 4;
   NewToken "2" Number 5 6; NewToken ")" Symbol 6 7; NewToken "*" Symbol 8 9;
   NewToken "3" Number 10 11].

End GroupSpec.

Module TokenSpec.
Import Go Lexer.

(** The tokens are slices of the input, one after the other: each
    token has a span [s; e] that starts at or after the end of the
    token before it and lies within the input, and its lexeme is the
    input from [s] to [e]. *)
Fixpoint slicesb (inp : string) (from : nat) (toks : list Token) : bool :=
  match toks with
  | [] => true
  | t :: ts =>
    match Span t with
    | [s; e] =>
      (from <=? s)%nat && (s <=? e)%nat && (e <=? String.length inp)%nat
      && String.eqb (Value t) (substring s (e - s) inp)
      && slicesb inp e ts
    | _ => false
    end
  end.

(** Where the last token ends. *)
Fixpoint lastEnd (from : nat) (toks : list Token) : nat :=
  match toks with
  | [] => from
  | t :: ts =>
    match Span t with
    | [_; e] => lastEnd e ts
    | _ => lastEnd from ts
    end
  end.

Definition Inv (inp : string) (l : lexer) : Prop :=
  input l = inp
  /\ slicesb inp 0 (stream l) = true
  /\ (lastEnd 0 (stream l) <= start l <= pos l)%nat.

End TokenSpec.

Module LexEdgeSpec.
Import Go Lexer LexSpec.

(** Layout: the runes up to the space. *)
Definition layoutOnly (rs : list rune) : bool :=
  forallb (fun r => (r <=? 32)%Z) rs.




(** U+FFFD in UTF-8, well formed, followed by a letter. *)
Definition replacementChar : string :=
  String (ascii_of_nat 239)
    (String (ascii_of_nat 191) (String (ascii_of_nat 189) "x")).

End LexEdgeSpec.

Module BuildSpec.
Import Lexer Api Ast Builder.

(** The nodes that buildTree has a case for. *)
Definition isDeclaration (n : ParseTreeNode) : bool :=
  match n with
  | StructureDeclStatement _ _ | ImplDeclStatement _ _
  | FunctionDeclStatement _ => true
  | _ => false
  end.



Definition identA : ExpressionNode :=
  ConstantExpression (VariableReference (NewToken "a" Identifier 0 1)).
Definition identB : ExpressionNode :=
  ConstantExpression (VariableReference (NewToken "b" Identifier 2 3)).
Definition identC : ExpressionNode :=
  ConstantExpression (VariableReference (NewToken "c" Identifier 6 7)).

End BuildSpec.

Module ResolveSpec.
Import Lexer Api.

(** The values that resolveValue has a case for, all the way down. *)
Fixpoint resolvable (v : IR.Value) : bool :=
  match v with
  | IR.IntegerValue _ | IR.StringValue _ | IR.FloatingValue _
  | IR.Identifier _ => true
  | IR.BinaryExpression l _ r => resolvable l && resolvable r
  | _ => false
  end.

(** The instructions that resolveInstr has no case for. *)
Definition unhandledInstr (i : IR.Instruction) : bool :=
  match i with
  | IR.Break | IR.Next | IR.Jump _ | IR.Label _ | IR.Defer _ _ => true
  | _ => false
  end.

Definition tokZ : Token := NewToken "z" Identifier 0 1.

Definition notOk {A} (r : result A) : Prop :=
  match r with Ok _ => False | _ => True end.

End ResolveSpec.

(** * Proofs *)

Module LexProofs.
Import Go Lexer LexSpec.

Lemma string_drop_nil n : string_drop n "" = "".
Proof. destruct n; reflexivity. Qed.

Lemma string_drop_length n : forall s,
  String.length (string_drop n s) = (String.length s - n)%nat.
Proof.
  induction n as [|n IH]; intros s; [cbn; lia|].
  destruct s; [reflexivity|]. cbn. apply IH.
Qed.

Lemma string_drop_add a : forall b s,
  string_drop (a + b) s = string_drop b (string_drop a s).
Proof.
  induction a as [|a IH]; intros b s; [reflexivity|].
  destruct s; cbn; [rewrite string_drop_nil; reflexivity|apply IH].
Qed.

Lemma string_drop_empty n s :
  (String.length s <= n)%nat -> string_drop n s = "".
Proof.
  intros H. pose proof (string_drop_length n s) as Hl.
  destruct (string_drop n s); [reflexivity|]. cbn in Hl. lia.
Qed.

Lemma DecodeRune_width s r w :
  s <> "" -> DecodeRune s = (r, w) -> (1 <= w <= String.length s)%nat.
Proof.
  destruct s as [|a0 s1]; [congruence|]. intros _. unfold DecodeRune.
  repeat match goal with
  | |- context [if ?c then _ else _] => destruct c
  | |- context [match ?x with EmptyString => _ | String _ _ => _ end] =>
    destruct x
  end; intros [= <- <-]; cbn [String.length]; lia.
Qed.

Lemma byteZ_nonneg a : (0 <= byteZ a)%Z.
Proof. unfold byteZ. lia. Qed.

Lemma DecodeRune_nonneg s r w : DecodeRune s = (r, w) -> (0 <= r)%Z.
Proof.
  assert (Hl : forall a b, (0 <= Z.land (byteZ a) b)%Z).
  { intros a b. apply Z.land_nonneg. left. apply byteZ_nonneg. }
  assert (Hs : forall x n, (0 <= x -> 0 <= Z.shiftl x n)%Z).
  { intros x n Hx. apply Z.shiftl_nonneg. exact Hx. }
  assert (Ho : forall x y, (0 <= x -> 0 <= y -> 0 <= Z.lor x y)%Z).
  { intros x y Hx Hy. apply Z.lor_nonneg. split; assumption. }
  destruct s as [|a0 s1]; unfold DecodeRune.
  { intros [= <- <-]. unfold RuneError. lia. }
  repeat match goal with
  | |- context [if ?c then _ else _] => destruct c
  | |- context [match ?x with EmptyString => _ | String _ _ => _ end] =>
    destruct x
  end; intros [= <- <-]; unfold RuneError; auto using byteZ_nonneg; try lia.
Qed.

Lemma runesFrom_skip s : forall k,
  (k <= String.length s)%nat -> runesFrom k s = runes (string_drop k s).
Proof.
  induction s as [|a s IH]; intros k Hk.
  - rewrite string_drop_nil. destruct k; reflexivity.
  - destruct k as [|k]; [reflexivity|]. cbn [runesFrom string_drop].
    apply IH. cbn in Hk. lia.
Qed.

Lemma runes_cons a s rs :
  runes (String a s) = Some rs ->
  exists r w rs',
    DecodeRune (String a s) = (r, w) /\ r <> RuneError
    /\ rs = r :: rs' /\ (1 <= w <= S (String.length s))%nat
    /\ runes (string_drop w (String a s)) = Some rs'.
Proof.
  unfold runes at 1. cbn [runesFrom].
  destruct (DecodeRune (String a s)) as [r w] eqn:Hd.
  assert (Hw : (1 <= w <= String.length (String a s))%nat)
    by (eapply DecodeRune_width; [discriminate|exact Hd]).
  cbn [String.length] in Hw.
  destruct (Z.eqb_spec r RuneError) as [|Hne]; [discriminate|].
  rewrite runesFrom_skip by lia.
  destruct (runes (string_drop (w - 1) s)) as [rs'|] eqn:Hr; [|discriminate].
  cbn. intros [= <-]. exists r, w, rs'. repeat split; auto; try lia.
  destruct w as [|w]; [lia|]. cbn [string_drop].
  replace (S w - 1)%nat with w in Hr by lia. exact Hr.
Qed.

Lemma runes_nil s : runes s = Some [] -> s = "".
Proof.
  destruct s as [|a s]; [reflexivity|]. intros H.
  apply runes_cons in H as (r & w & rs' & _ & _ & E & _). discriminate.
Qed.

(** [l'] is [l] moved to another place of the same input. *)
Lemma consume_eof l :
  Before l [] -> consume l = Ok (eof, setPos l (pos l) 0).
Proof.
  intros [Hr [_ Hp]]. apply runes_nil in Hr.
  pose proof (string_drop_length (pos l) (input l)) as Hl.
  rewrite Hr in Hl. cbn in Hl. unfold consume.
  destruct (Nat.leb_spec (String.length (input l)) (pos l)); [reflexivity|lia].
Qed.

Lemma consume_rune l r rs :
  Before l (r :: rs) ->
  exists w,
    (1 <= w)%nat
    /\ consume l = Ok (r, setPos l (pos l + w) w)
    /\ Before (setPos l (pos l + w) w) rs
    /\ r <> eof.
Proof.
  intros [Hr [Hs Hp]].
  destruct (string_drop (pos l) (input l)) as [|a s] eqn:Hd; [discriminate|].
  pose proof (string_drop_length (pos l) (input l)) as Hl.
  rewrite Hd in Hl. cbn [String.length] in Hl.
  apply runes_cons in Hr as (r' & w & rs' & Hdec & Hne & E & Hw & Hrest).
  injection E as <- <-. exists w. split; [lia|]. split; [|split].
  - unfold consume.
    destruct (Nat.leb_spec (String.length (input l)) (pos l)); [lia|].
    rewrite Hd, Hdec.
    destruct (Z.eqb_spec r RuneError); [contradiction|reflexivity].
  - unfold Before. cbn [setPos pos input start].
    rewrite string_drop_add, Hd. split; [exact Hrest|lia].
  - (* a decoded rune is not negative *)
    apply DecodeRune_nonneg in Hdec. unfold eof. lia.
Qed.

Lemma rewind_after l w :
  rewind (setPos l (pos l + w) w) = setPos l (pos l) w.
Proof. unfold rewind, setPos. cbn. f_equal. lia. Qed.

Lemma rewind_eof l : rewind (setPos l (pos l) 0) = setPos l (pos l) 0.
Proof. unfold rewind, setPos. cbn. f_equal. lia. Qed.

Lemma Before_setPos l w rs : Before l rs -> Before (setPos l (pos l) w) rs.
Proof. intros H. exact H. Qed.

Lemma emit_ok l t rs :
  Before l rs -> exists l', emit l t = Ok l' /\ Before l' rs.
Proof.
  intros [Hr [Hs Hp]]. unfold emit.
  destruct (Nat.leb_spec (start l) (pos l)); [|lia].
  destruct (Nat.leb_spec (pos l) (String.length (input l))); [|lia].
  eexists. split; [reflexivity|]. split; [exact Hr|]. cbn. lia.
Qed.

Lemma IndexRuneFound_eof valid : IndexRuneFound valid eof = false.
Proof. induction valid as [|a v IH]; [reflexivity|]. cbn. exact IH. Qed.

Lemma quotes_app a b : quotes (a ++ b) = (quotes a + quotes b)%nat.
Proof. unfold quotes. rewrite List.filter_app, length_app. reflexivity. Qed.

Lemma quotes_none (P : rune -> bool) acc :
  P quote = false -> Forall (fun r => P r = true) acc -> quotes acc = 0%nat.
Proof.
  intros Hq H. induction H as [|r acc Hr _ IH]; [reflexivity|].
  unfold quotes in *. cbn [List.filter].
  destruct (Z.eqb_spec quote r) as [<-|_]; [congruence|exact IH].
Qed.

(** A run of runes of [valid]: the part of [rs] that is passed, and
    the rest, which does not start with a rune of [valid]. *)
Lemma acceptRun_spec valid rs : forall l fuel,
  Before l rs -> (length rs < fuel)%nat ->
  exists acc rest l',
    rs = acc ++ rest
    /\ Forall (fun r => IndexRuneFound valid r = true) acc
    /\ match rest with
       | [] => True
       | r :: _ => IndexRuneFound valid r = false
       end
    /\ acceptRun fuel valid l = Ok l'
    /\ Before l' rest.
Proof.
  unfold acceptRun.
  induction rs as [|r rs IH]; intros l fuel Hb Hf;
    (destruct fuel as [|fuel]; [cbn in Hf; lia|]); cbn [acceptRun_loop].
  - exists [], [], (setPos l (pos l) 0).
    rewrite (consume_eof _ Hb). cbn [rbind]. rewrite IndexRuneFound_eof.
    cbn [rbind]. rewrite rewind_eof.
    split; [reflexivity|]. split; [constructor|]. split; [exact I|].
    split; [reflexivity|exact Hb].
  - destruct (consume_rune _ _ _ Hb) as (w & Hw & Hc & Hb1 & _).
    rewrite Hc. cbn [rbind].
    destruct (IndexRuneFound valid r) eqn:Hv.
    + destruct (IH _ fuel Hb1) as (acc & rest & l' & E & Ha & Hr & Hrun & Hb');
        [cbn in Hf; lia|].
      exists (r :: acc), rest, l'. rewrite E.
      split; [reflexivity|]. split; [constructor; assumption|].
      split; [exact Hr|]. split; [exact Hrun|exact Hb'].
    + exists [], (r :: rs), (setPos l (pos l) w). cbn [rbind].
      rewrite rewind_after.
      split; [reflexivity|]. split; [constructor|]. split; [exact Hv|].
      split; [reflexivity|exact Hb].
Qed.

Lemma accept_spec valid l rs :
  Before l rs ->
  match rs with
  | r :: rs' =>
    if IndexRuneFound valid r
    then exists l', accept valid l = Ok (true, l') /\ Before l' rs'
    else exists l', accept valid l = Ok (false, l') /\ Before l' rs
  | [] => exists l', accept valid l = Ok (false, l') /\ Before l' rs
  end.
Proof.
  intros Hb. unfold accept. destruct rs as [|r rs'].
  - rewrite (consume_eof _ Hb). cbn [rbind]. rewrite IndexRuneFound_eof.
    rewrite rewind_eof. eexists. split; [reflexivity|exact Hb].
  - destruct (consume_rune _ _ _ Hb) as (w & Hw & Hc & Hb1 & _).
    rewrite Hc. cbn [rbind]. destruct (IndexRuneFound valid r).
    + eexists. split; [reflexivity|exact Hb1].
    + rewrite rewind_after. eexists. split; [reflexivity|exact Hb].
Qed.

Lemma lexNumber_spec l r rs fuel :
  Before l (r :: rs) -> inRange 48 57 r = true ->
  (length (r :: rs) < fuel)%nat ->
  exists l', lexNumber fuel l = Ok (Some StLexStart, l')
             /\ passes (r :: rs) l'.
Proof.
  intros Hb Hd Hf. unfold lexNumber.
  destruct (acceptRun_spec "0123456789" _ _ fuel Hb Hf)
    as (acc & rest & l1 & E & Ha & Hr & Hrun & Hb1).
  rewrite Hrun. cbn [rbind].
  assert (Hacc : acc <> []).
  { intros ->. cbn [app] in E. subst rest.
    assert (IndexRuneFound "0123456789" r = true); [|congruence].
    clear - Hd. unfold inRange in Hd. apply andb_true_iff in Hd as [H1 H2].
    apply Z.leb_le in H1. apply Z.leb_le in H2.
    assert (H : (r = 48 \/ r = 49 \/ r = 50 \/ r = 51 \/ r = 52 \/ r = 53
                 \/ r = 54 \/ r = 55 \/ r = 56 \/ r = 57)%Z) by lia.
    repeat (destruct H as [->|H]; [reflexivity|]). subst. reflexivity. }
  assert (Hq : quotes acc = 0%nat).
  { apply (quotes_none (IndexRuneFound "0123456789")); [reflexivity|exact Ha]. }
  pose proof (accept_spec "." l1 rest Hb1) as Hdot.
  assert (Hnodot : forall l2, Before l2 rest ->
            exists l', (let* l4 := emit l2 Number in Ok (Some StLexStart, l4))
                       = Ok (Some StLexStart, l') /\ passes (r :: rs) l').
  { intros l2 Hb2. destruct (emit_ok l2 Number _ Hb2) as (l4 & He & Hb4).
    rewrite He. exists l4. split; [reflexivity|].
    exists acc, rest. rewrite Hq.
    split; [exact E|]. split; [exact Hacc|]. split; [reflexivity|exact Hb4]. }
  destruct rest as [|d rest'].
  - destruct Hdot as (l2 & Hacc2 & Hb2). rewrite Hacc2. cbn [rbind].
    apply Hnodot. exact Hb2.
  - destruct (IndexRuneFound "." d) eqn:Hd2.
    + destruct Hdot as (l2 & Hacc2 & Hb2). rewrite Hacc2. cbn [rbind].
      destruct (acceptRun_spec "012345689" _ _ fuel Hb2)
        as (acc3 & rest3 & l3 & E3 & Ha3 & _ & Hrun3 & Hb3).
      { rewrite E in Hf. rewrite length_app in Hf. cbn [length] in *. lia. }
      rewrite Hrun3. cbn [rbind].
      destruct (emit_ok l3 Number _ Hb3) as (l4 & He & Hb4).
      rewrite He. exists l4. split; [reflexivity|].
      exists (acc ++ d :: acc3), rest3. split.
      { rewrite E, E3, <- app_assoc. reflexivity. }
      split; [destruct acc; [congruence|discriminate]|].
      split; [|exact Hb4].
      rewrite quotes_app, Hq.
      change (d :: acc3) with ([d] ++ acc3). rewrite quotes_app.
      rewrite (quotes_none (IndexRuneFound "012345689") acc3);
        [|reflexivity|exact Ha3].
      rewrite (quotes_none (IndexRuneFound ".") [d]); [reflexivity..|].
      constructor; [exact Hd2|constructor].
    + destruct Hdot as (l2 & Hacc2 & Hb2). rewrite Hacc2. cbn [rbind].
      apply Hnodot. exact Hb2.
Qed.

Lemma quotes_one r : r <> quote -> quotes [r] = 0%nat.
Proof.
  intros H. unfold quotes. cbn [List.filter].
  destruct (Z.eqb_spec quote r); [congruence|reflexivity].
Qed.

Section WithU.

Variable U : Unicode.

Lemma isAlphaNumeric_eof : isAlphaNumeric U eof = false.
Proof. reflexivity. Qed.

Lemma isAlphaNumeric_quote : isAlphaNumeric U quote = false.
Proof. reflexivity. Qed.

Lemma lexIdentifier_spec rs : forall l fuel,
  Before l rs -> (length rs < fuel)%nat ->
  exists acc rest l',
    rs = acc ++ rest
    /\ Forall (fun r => isAlphaNumeric U r = true) acc
    /\ lexIdentifier U fuel l = Ok (Some StLexStart, l')
    /\ Before l' rest.
Proof.
  induction rs as [|r rs IH]; intros l fuel Hb Hf;
    (destruct fuel as [|fuel]; [cbn in Hf; lia|]); cbn [lexIdentifier].
  - rewrite (consume_eof _ Hb). cbn [rbind]. rewrite isAlphaNumeric_eof.
    rewrite rewind_eof.
    destruct (emit_ok (setPos l (pos l) 0) Identifier [] Hb) as (l' & He & Hb').
    rewrite He. exists [], [], l'.
    split; [reflexivity|]. split; [constructor|].
    split; [reflexivity|exact Hb'].
  - destruct (consume_rune _ _ _ Hb) as (w & Hw & Hc & Hb1 & _).
    rewrite Hc. cbn [rbind].
    destruct (isAlphaNumeric U r) eqn:Hv.
    + destruct (IH _ fuel Hb1) as (acc & rest & l' & E & Ha & Hrun & Hb');
        [cbn in Hf; lia|].
      exists (r :: acc), rest, l'. rewrite E.
      split; [reflexivity|]. split; [constructor; assumption|].
      split; [exact Hrun|exact Hb'].
    + rewrite rewind_after.
      destruct (emit_ok (setPos l (pos l) w) Identifier _ Hb)
        as (l' & He & Hb').
      rewrite He. exists [], (r :: rs), l'.
      split; [reflexivity|]. split; [constructor|].
      split; [reflexivity|exact Hb'].
Qed.

Lemma lexIdentifier_passes l r rs fuel :
  Before l (r :: rs) -> isAlphaNumeric U r = true ->
  (length (r :: rs) < fuel)%nat ->
  exists l', lexIdentifier U fuel l = Ok (Some StLexStart, l')
             /\ passes (r :: rs) l'.
Proof.
  intros Hb Hr Hf.
  destruct fuel as [|fuel]; [cbn in Hf; lia|]. cbn [lexIdentifier].
  destruct (consume_rune _ _ _ Hb) as (w & Hw & Hc & Hb1 & _).
  rewrite Hc. cbn [rbind]. rewrite Hr.
  destruct (lexIdentifier_spec rs _ fuel Hb1)
    as (acc & rest & l' & E & Ha & Hrun & Hb'); [cbn in Hf; lia|].
  exists l'. split; [exact Hrun|].
  exists (r :: acc), rest. rewrite E.
  split; [reflexivity|]. split; [discriminate|]. split; [|exact Hb'].
  rewrite (quotes_none (isAlphaNumeric U)); [reflexivity..|].
  constructor; assumption.
Qed.

End WithU.

Lemma peek_spec l rs :
  Before l rs ->
  exists l', peek l = Ok (match rs with r :: _ => r | [] => eof end, l')
             /\ Before l' rs.
Proof.
  intros Hb. unfold peek. destruct rs as [|r rs'].
  - rewrite (consume_eof _ Hb). cbn [rbind]. rewrite rewind_eof.
    eexists. split; [reflexivity|exact Hb].
  - destruct (consume_rune _ _ _ Hb) as (w & Hw & Hc & Hb1 & _).
    rewrite Hc. cbn [rbind]. rewrite rewind_after.
    eexists. split; [reflexivity|exact Hb].
Qed.

Lemma isDoubleSym_second c1 c2 :
  isDoubleSym c1 c2 = true -> c2 <> quote /\ c2 <> eof.
Proof.
  unfold isDoubleSym, doubleSym, quote, eof. cbn [existsb fst snd].
  intros H.
  repeat (apply orb_true_iff in H as [H|H];
          [apply andb_true_iff in H as [_ H]; apply Z.eqb_eq in H; lia|]).
  discriminate.
Qed.

Lemma isSymbol_not_quote r : isSymbol r = true -> r <> quote.
Proof. intros H ->. discriminate. Qed.

Lemma lexSymbol_passes l r rs :
  Before l (r :: rs) -> isSymbol r = true ->
  exists l', lexSymbol l = Ok (Some StLexStart, l') /\ passes (r :: rs) l'.
Proof.
  intros Hb Hr. unfold lexSymbol.
  destruct (consume_rune _ _ _ Hb) as (w & Hw & Hc & Hb1 & _).
  rewrite Hc. cbn [rbind].
  destruct (peek_spec _ _ Hb1) as (l2 & Hp & Hb2). rewrite Hp. cbn [rbind].
  pose proof (isSymbol_not_quote _ Hr) as Hq.
  assert (Hsingle : exists l',
            (let* l3 := emit l2 Symbol in Ok (Some StLexStart, l3))
            = Ok (Some StLexStart, l') /\ passes (r :: rs) l').
  { destruct (emit_ok l2 Symbol _ Hb2) as (l3 & He & Hb3).
    rewrite He. exists l3. split; [reflexivity|].
    exists [r], rs. split; [reflexivity|]. split; [discriminate|].
    split; [|exact Hb3]. rewrite (quotes_one _ Hq). reflexivity. }
  destruct (isDoubleSym r match rs with r0 :: _ => r0 | [] => eof end)
    eqn:Hd; [|exact Hsingle].
  apply isDoubleSym_second in Hd as [Hq2 Heof].
  destruct rs as [|r2 rs']; [congruence|].
  destruct (consume_rune _ _ _ Hb2) as (w2 & Hw2 & Hc2 & Hb3 & _).
  rewrite Hc2. cbn [rbind].
  destruct (emit_ok _ Symbol _ Hb3) as (l4 & He & Hb4).
  rewrite He. exists l4. split; [reflexivity|].
  exists [r; r2], rs'. split; [reflexivity|]. split; [discriminate|].
  split; [|exact Hb4].
  change [r; r2] with ([r] ++ [r2]).
  rewrite quotes_app, (quotes_one _ Hq), (quotes_one _ Hq2). reflexivity.
Qed.

Lemma lexQuote_loop_spec rs : forall l fuel,
  Before l rs -> (1 <= quotes rs)%nat -> (length rs < fuel)%nat ->
  exists mid rest l',
    rs = mid ++ quote :: rest /\ quotes mid = 0%nat
    /\ lexQuote_loop fuel l = Ok (Some StLexStart, l')
    /\ Before l' rest.
Proof.
  induction rs as [|r rs IH]; intros l fuel Hb Hq Hf; [cbn in Hq; lia|].
  destruct fuel as [|fuel]; [cbn in Hf; lia|]. cbn [lexQuote_loop].
  destruct (consume_rune _ _ _ Hb) as (w & Hw & Hc & Hb1 & _).
  rewrite Hc. cbn [rbind].
  destruct (Z.eqb_spec r 34) as [->|Hne].
  - destruct (emit_ok _ String_ _ Hb1) as (l2 & He & Hb2).
    rewrite He. exists [], rs, l2.
    split; [reflexivity|]. split; [reflexivity|].
    split; [reflexivity|exact Hb2].
  - assert (Hq1 : quotes [r] = 0%nat) by (apply quotes_one; exact Hne).
    change (r :: rs) with ([r] ++ rs) in Hq. rewrite quotes_app, Hq1 in Hq.
    destruct (IH _ fuel Hb1) as (mid & rest & l' & E & Hm & Hrun & Hb');
      [exact Hq|cbn in Hf; lia|].
    exists (r :: mid), rest, l'. rewrite E.
    split; [reflexivity|]. split; [|split; [exact Hrun|exact Hb']].
    change (r :: mid) with ([r] ++ mid). rewrite quotes_app, Hq1, Hm.
    reflexivity.
Qed.

Lemma lexQuote_passes l rs fuel :
  Before l (quote :: rs) -> (1 <= quotes rs)%nat ->
  (length (quote :: rs) < fuel)%nat ->
  exists l', lexQuote fuel l = Ok (Some StLexStart, l')
             /\ passes (quote :: rs) l'.
Proof.
  intros Hb Hq Hf. unfold lexQuote.
  pose proof (accept_spec (String (ascii_of_nat 34) EmptyString) l _ Hb) as Ha. cbn beta iota in Ha.
  change (IndexRuneFound (String (ascii_of_nat 34) EmptyString) quote) with true in Ha. cbv iota in Ha.
  destruct Ha as (l1 & Ha & Hb1). rewrite Ha. cbn [rbind].
  destruct (lexQuote_loop_spec rs l1 fuel Hb1 Hq)
    as (mid & rest & l' & E & Hm & Hrun & Hb'); [cbn in Hf; lia|].
  exists l'. split; [exact Hrun|].
  exists (quote :: mid ++ [quote]), rest. split.
  { rewrite E. cbn [app]. rewrite <- app_assoc. reflexivity. }
  split; [discriminate|]. split; [|exact Hb'].
  change (quote :: mid ++ [quote]) with ([quote] ++ mid ++ [quote]).
  rewrite !quotes_app, Hm. reflexivity.
Qed.

Section Driver.

Variable U : Unicode.

Lemma digitsAscii_Forall rs :
  digitsAscii U rs = true -> Forall (digitOk U) rs.
Proof.
  unfold digitsAscii. intros H. apply List.Forall_forall. intros r Hin.
  rewrite forallb_forall in H. specialize (H r Hin). unfold digitOk.
  intros Hd. rewrite Hd in H. exact H.
Qed.

Lemma run_None fuel l : run U fuel None l = Ok l.
Proof. destruct fuel; reflexivity. Qed.

Lemma run_S fuel st l :
  run U (S fuel) (Some st) l
  = let* '(s', l') := runState U fuel st l in run U fuel s' l'.
Proof. reflexivity. Qed.

(** From the start state the lexer reaches the end of its loop. *)
Lemma run_total (n : nat) : forall rs l fuel,
  (length rs <= n)%nat -> Before l rs -> Forall (digitOk U) rs ->
  Nat.even (quotes rs) = true -> (2 * length rs + 3 <= fuel)%nat ->
  exists l', run U fuel (Some StLexStart) l = Ok l'.
Proof.
  induction n as [|n IH]; intros rs l fuel Hn Hb Hd Hq Hf.
  - destruct rs; [|cbn in Hn; lia].
    destruct fuel as [|fuel]; [lia|]. rewrite run_S. cbn [runState].
    unfold lexStart.
    rewrite (consume_eof _ Hb). cbn [rbind].
    change (eof =? eof)%Z with true. cbv iota. cbn [rbind]. rewrite run_None.
    eexists. reflexivity.
  - destruct rs as [|r rs].
    { apply (IH [] l fuel); auto. cbn. lia. }
    cbn [length] in Hn, Hf.
    destruct fuel as [|fuel]; [lia|]. rewrite run_S. cbn [runState].
    unfold lexStart.
    destruct (consume_rune _ _ _ Hb) as (w & Hw & Hc & Hb1 & Heof).
    rewrite Hc. cbn [rbind].
    destruct (Z.eqb_spec r eof) as [|_]; [contradiction|].
    rewrite rewind_after.
    assert (Hb0 : Before (setPos l (pos l) w) (r :: rs))
      by (apply Before_setPos; exact Hb).
    assert (Hgo : forall st fuel1 l1,
              fuel = S fuel1 ->
              runState U fuel1 st (setPos l (pos l) w)
              = Ok (Some StLexStart, l1) ->
              passes (r :: rs) l1 ->
              exists l', run U fuel (Some st) (setPos l (pos l) w) = Ok l').
    { intros st fuel1 l1 -> Hst (cons & rest & E & Hne & Hqc & Hb').
      rewrite run_S, Hst. cbn [rbind].
      assert (Hlen : (length rest < length (r :: rs))%nat).
      { rewrite E, length_app. destruct cons; [congruence|]. cbn. lia. }
      cbn [length] in Hlen.
      apply (IH rest l1 fuel1); auto; try lia.
      - rewrite E in Hd. apply Forall_app in Hd. apply Hd.
      - rewrite E, quotes_app in Hq. rewrite Nat.even_add, Hqc in Hq.
        destruct (Nat.even (quotes rest)); [reflexivity|discriminate]. }
    destruct fuel as [|fuel1]; [lia|].
    inversion Hd as [|? ? Hdr Hd']; subst.
    destruct (IsDigit U r) eqn:Hdigit.
    { cbn [rbind]. destruct (lexNumber_spec _ _ _ fuel1 Hb0 (Hdr Hdigit))
        as (l1 & Hrun & Hp); [cbn [length]; lia|].
      apply (Hgo StLexNumber fuel1 l1 eq_refl Hrun Hp). }
    destruct (isAlphaNumeric U r) eqn:Halnum.
    { cbn [rbind]. destruct (lexIdentifier_passes U _ _ _ fuel1 Hb0 Halnum)
        as (l1 & Hrun & Hp); [cbn [length]; lia|].
      apply (Hgo StLexIdentifier fuel1 l1 eq_refl Hrun Hp). }
    destruct (isSymbol r) eqn:Hsym.
    { cbn [rbind]. destruct (lexSymbol_passes _ _ _ Hb0 Hsym) as (l1 & Hrun & Hp).
      apply (Hgo StLexSymbol fuel1 l1 eq_refl Hrun Hp). }
    destruct (Z.eqb_spec r 34) as [->|Hnq].
    { cbn [rbind]. assert (Hq1 : (1 <= quotes rs)%nat).
      { change (34%Z :: rs) with ([quote] ++ rs) in Hq.
        rewrite quotes_app in Hq. change (quotes [quote]) with 1%nat in Hq.
        destruct (quotes rs); [discriminate|lia]. }
      destruct (lexQuote_passes _ _ fuel1 Hb0 Hq1)
        as (l1 & Hrun & Hp); [cbn [length]; lia|].
      apply (Hgo StLexQuote fuel1 l1 eq_refl Hrun Hp). }
    destruct (r <=? 32)%Z.
    { (* layout *)
      cbn [rbind].
      apply (IH rs (ignore (setPos l (pos l + w) w)) (S fuel1)); auto;
        try lia.
      - destruct Hb1 as [Hr1 Hp1]. split; [exact Hr1|].
        cbn [ignore setPos pos start input] in *. lia.
      - change (r :: rs) with ([r] ++ rs) in Hq.
        rewrite quotes_app, (quotes_one r) in Hq; [exact Hq|].
        intros ->. apply Hnq. reflexivity. }
    (* an unhandled character ends the scan *)
    destruct (emit_ok _ EndOfFile _ Hb0) as (l2 & He & _).
    rewrite He. cbn [rbind]. rewrite run_None. eexists. reflexivity.
Qed.

End Driver.

Lemma runes_length s : forall rs,
  runes s = Some rs -> (length rs <= String.length s)%nat.
Proof.
  remember (String.length s) as n eqn:Hn. revert s Hn.
  induction n as [n IH] using lt_wf_ind. intros s Hn rs Hr.
  destruct s as [|a s].
  - cbn in Hr. injection Hr as <-. cbn. lia.
  - apply runes_cons in Hr as (r & w & rs' & _ & _ & -> & Hw & Hrest).
    cbn [String.length] in Hn.
    pose proof (string_drop_length w (String a s)) as Hl.
    cbn [String.length] in Hl.
    specialize (IH (String.length (string_drop w (String a s)))
                  ltac:(lia) _ eq_refl _ Hrest).
    cbn [length]. lia.
Qed.

(** The lexer returns a token stream on every input that decodes rune
    by rune without utf8.RuneError (no malformed byte and no encoded
    U+FFFD), in which every rune that unicode.IsDigit accepts is an
    ASCII digit and in which the double quotes come in pairs; the loop
    of the lexer ends within [2 * length + 3] turns. *)
Theorem tokenizeInput_total (U : Unicode) (inp : string) (rs : list rune)
  (fuel : nat) :
  runes inp = Some rs ->
  digitsAscii U rs = true ->
  quotesPaired rs = true ->
  (2 * String.length inp + 3 <= fuel)%nat ->
  exists toks, tokenizeInput U fuel inp = Ok toks.
Proof.
  intros Hr Hd Hq Hf. unfold tokenizeInput.
  destruct (run_total U (length rs) rs (mkLexer inp 0 0 0 []) fuel)
    as [l' Hrun]; auto.
  - split; [exact Hr|]. cbn. lia.
  - apply digitsAscii_Forall. exact Hd.
  - pose proof (runes_length _ _ Hr). lia.
  - rewrite Hrun. cbn [rbind]. eexists. reflexivity.
Qed.

Lemma tokenizeInput_total_witness :
  exists toks, tokenizeInput latin1Only 40 quotedSource = Ok toks.
Proof.
  exact (tokenizeInput_total latin1Only quotedSource
           [108; 101; 116; 32; 115; 32; 61; 32; 34; 97; 32; 98; 34; 59]%Z 40
           eq_refl eq_refl eq_refl ltac:(vm_compute; lia)).
Defined.

Lemma tokenizeInput_invalid_byte U fuel :
  tokenizeInput U (S fuel) invalidByte = Panic "oh".
Proof. reflexivity. Qed.

(** Past the last quote the loop of lexQuote never ends: consume keeps
    returning eof or a rune that is no quote. *)
Lemma lexQuote_loop_unterminated fuel : forall l rs,
  Before l rs -> quotes rs = 0%nat -> lexQuote_loop fuel l = OutOfFuel.
Proof.
  induction fuel as [|fuel IH]; intros l rs Hb Hq; [reflexivity|].
  cbn [lexQuote_loop]. destruct rs as [|r rs].
  - rewrite (consume_eof _ Hb). cbn [rbind].
    change (eof =? 34)%Z with false. cbv iota.
    apply (IH _ []); [apply Before_setPos; exact Hb|reflexivity].
  - destruct (consume_rune _ _ _ Hb) as (w & Hw & Hc & Hb1 & Heof).
    rewrite Hc. cbn [rbind].
    change (r :: rs) with ([r] ++ rs) in Hq. rewrite quotes_app in Hq.
    destruct (Z.eqb_spec r 34) as [->|Hne].
    + change (quotes [34%Z]) with 1%nat in Hq. lia.
    + apply (IH _ rs); [exact Hb1|lia].
Qed.

(** A string literal whose closing quote is missing: the lexer does not
    return, however many turns it is given. *)
Lemma tokenizeInput_unterminated U inp rs fuel :
  runes inp = Some (quote :: rs) -> quotes rs = 0%nat ->
  tokenizeInput U fuel inp = OutOfFuel.
Proof.
  intros Hr Hq. unfold tokenizeInput.
  assert (Hb : Before (mkLexer inp 0 0 0 []) (quote :: rs)).
  { split; [exact Hr|]. cbn. lia. }
  destruct fuel as [|fuel]; [reflexivity|].
  rewrite run_S. cbn [runState]. unfold lexStart.
  destruct (consume_rune _ _ _ Hb) as (w & Hw & Hc & Hb1 & Heof).
  rewrite Hc. cbn [rbind]. rewrite rewind_after.
  change (quote =? eof)%Z with false.
  assert (Hd : IsDigit U quote = false) by reflexivity.
  rewrite Hd, isAlphaNumeric_quote.
  change (isSymbol quote) with false. change (quote =? 34)%Z with true.
  cbv iota. cbn [rbind].
  destruct fuel as [|fuel]; [reflexivity|].
  rewrite run_S. cbn [runState]. unfold lexQuote.
  assert (Hb0 : Before (setPos (mkLexer inp 0 0 0 []) 0 w) (quote :: rs))
    by (apply (Before_setPos _ w) in Hb; exact Hb).
  pose proof (accept_spec (String (ascii_of_nat 34) EmptyString) _ _ Hb0)
    as Ha. cbn beta iota in Ha.
  change (IndexRuneFound (String (ascii_of_nat 34) EmptyString) quote)
    with true in Ha. cbv iota in Ha.
  destruct Ha as (l1 & Ha & Hb1'). cbn [pos] in *. rewrite Ha. cbn [rbind].
  rewrite (lexQuote_loop_unterminated fuel _ rs Hb1' Hq). reflexivity.
Qed.

(** C3: the lexer is not total over its input. On the single byte 0xFF,
    which is no UTF-8, consume panics with "oh" as soon as the lexer
    takes a turn; on a string literal that is opened and never closed
    the loop of lexQuote reads eof again and again, and the lexer does
    not return, however many turns it is given. *)
Theorem lexer_fails_on_malformed_input (U : Unicode) :
  (forall fuel, tokenizeInput U (S fuel) invalidByte = Panic "oh")
  /\ (forall fuel, tokenizeInput U fuel unterminatedSource = OutOfFuel).
Proof.
  split; intros fuel.
  - apply tokenizeInput_invalid_byte.
  - apply (tokenizeInput_unterminated U unterminatedSource [97; 98; 99]%Z);
      reflexivity.
Qed.

End LexProofs.

Module ClimbProofs.
Import Lexer Ast Parser OpTree.

Lemma rest_cons_nth p t r : rest p = t :: r -> nth (pos p) (toks p) BadToken = t /\ (pos p < length (toks p))%nat.
Proof.
  unfold rest. intros H.
  assert (Hlt : (pos p < length (toks p))%nat).
  { destruct (Nat.lt_ge_cases (pos p) (length (toks p))) as [|Hge]; [done|].
    rewrite (skipn_all2 _ Hge) in H. discriminate. }
  split; [|done].
  rewrite <- (firstn_skipn (pos p) (toks p)) at 1.
  rewrite app_nth2; rewrite firstn_length_le by lia; [|lia].
  rewrite Nat.sub_diag, H. reflexivity.
Qed.

Lemma rest_nil_ge p : rest p = [] -> (length (toks p) <= pos p)%nat.
Proof.
  unfold rest. intros H.
  destruct (Nat.lt_ge_cases (pos p) (length (toks p))) as [Hlt|]; [|done].
  apply (f_equal (@length _)) in H. rewrite length_skipn in H. simpl in H. lia.
Qed.

Lemma rest_advance p t r : rest p = t :: r -> rest (advance p) = r.
Proof.
  unfold rest, advance. simpl. intros H.
  replace (S (pos p)) with (pos p + 1)%nat by lia.
  rewrite <- drop_drop. rewrite H. reflexivity.
Qed.

Lemma pbind_ok {A B} (m : P A) (k : A -> P B) p a p' :
  m p = Ok (a, p') -> pbind m k p = k a p'.
Proof. unfold pbind. intros ->. reflexivity. Qed.

Lemma hasNext_cons p t r : rest p = t :: r -> hasNext p = Ok (true, p).
Proof.
  intros H. apply rest_cons_nth in H as [_ H]. unfold hasNext.
  apply Nat.ltb_lt in H. rewrite H. reflexivity.
Qed.

Lemma hasNext_nil p : rest p = [] -> hasNext p = Ok (false, p).
Proof.
  intros H. apply rest_nil_ge in H. unfold hasNext.
  apply Nat.ltb_ge in H. rewrite H. reflexivity.
Qed.

Lemma next_cons p t r : rest p = t :: r -> next p = Ok (t, p).
Proof.
  intros H. apply rest_cons_nth in H as [H _]. unfold next, peek.
  rewrite Nat.add_0_r, H. reflexivity.
Qed.

Lemma next_nil p : rest p = [] -> next p = Ok (BadToken, p).
Proof.
  intros H. apply rest_nil_ge in H. unfold next, peek.
  rewrite Nat.add_0_r, nth_overflow by lia. reflexivity.
Qed.

Lemma consume_cons p t r : rest p = t :: r -> consume p = Ok (t, advance p).
Proof.
  intros H. apply rest_cons_nth in H as [H _]. unfold consume.
  rewrite H. reflexivity.
Qed.

Lemma next_head p : next p = Ok (headTok (rest p), p).
Proof.
  destruct (rest p) eqn:H; [apply next_nil | eapply next_cons]; eauto.
Qed.

Lemma hasNext_rest p :
  hasNext p = Ok (match rest p with [] => false | _ => true end, p).
Proof.
  destruct (rest p) eqn:H; [apply hasNext_nil | eapply hasNext_cons]; eauto.
Qed.

Lemma getPos_eq p : getPos p = Ok (pos p, p).
Proof. reflexivity. Qed.

Ltac pstep H :=
  rewrite (pbind_ok _ _ _ _ _ H); cbv beta iota delta [negb andb orb].

Section Operand.

Variable floatErr : string -> bool.

Variable self : Rec.

Variable fuel : nat.

Lemma parseOperand_tok p t r :
  rest p = t :: r -> isOperandTok floatErr t = true ->
  parseOperand floatErr self fuel p = Ok (Some (leafExpr floatErr t), advance p).
Proof.
  intros Hr Ht. unfold isOperandTok in Ht.
  apply andb_true_iff in Ht as [Hm Ho].
  unfold parseOperand.
  pstep (hasNext_cons _ _ _ Hr).
  pstep (getPos_eq p).
  pstep (next_cons _ _ _ Hr).
  assert (Hp : Matches t ["("] = false).
  { apply negb_true_iff in Hm. unfold Matches in *. simpl in *.
    repeat (apply orb_false_iff in Hm as [? Hm]).
    repeat (apply orb_false_iff; split); auto. }
  rewrite Hp.
  pstep (consume_cons _ _ _ Hr).
  unfold leafExpr.
  destruct (operandOf floatErr t) as [[e|]| |] eqn:He; try discriminate.
  assert (Hk : isOperandKind (Kind t) = true).
  { unfold operandOf in He. destruct (Kind t); simpl; auto; discriminate. }
  rewrite Hk. reflexivity.
Qed.

Lemma parsePrimaryExpr_tok p t r :
  rest p = t :: r -> isOperandTok floatErr t = true -> notPostfix r ->
  parsePrimaryExpr floatErr self fuel p
  = Ok (Some (leafExpr floatErr t), advance p).
Proof.
  intros Hr Ht Hn. pose proof Ht as Ht'. unfold isOperandTok in Ht'.
  apply andb_true_iff in Ht' as [Hm _]. apply negb_true_iff in Hm.
  unfold Matches in Hm. simpl in Hm.
  repeat (apply orb_false_iff in Hm as [? Hm]).
  unfold parsePrimaryExpr.
  pstep (hasNext_cons _ _ _ Hr).
  pstep (next_cons _ _ _ Hr).
  unfold Matches, unaryOperators, builtins. cbn [existsb].
  repeat match goal with H : String.eqb (Value t) _ = false |- _ =>
    rewrite H; clear H end.
  cbv beta iota delta [orb].
  pstep (parseOperand_tok _ _ _ Hr Ht).
  pstep (next_head (advance p)).
  rewrite (rest_advance _ _ _ Hr).
  unfold notPostfix, Matches in Hn. simpl in Hn.
  apply orb_false_iff in Hn as [H1 Hn]. apply orb_false_iff in Hn as [H2 _].
  unfold Matches. simpl. rewrite H1, H2. reflexivity.
Qed.

End Operand.

Lemma advanceBy_advanceBy a b p :
  advanceBy a (advanceBy b p) = advanceBy (a + b) p.
Proof. unfold advanceBy. simpl. f_equal. lia. Qed.

Lemma advanceBy_0 p : advanceBy 0 p = p.
Proof. destruct p. reflexivity. Qed.

Lemma lookupPrec_range v z :
  lookupPrec opPrec v = Some z -> (1 <= z <= 5)%Z.
Proof.
  unfold opPrec. cbn [lookupPrec].
  repeat (destruct (String.eqb _ v); [intros [= <-]; lia|]).
  discriminate.
Qed.

Lemma binop_prec v : isBinaryOp v = true -> (1 <= getOpPrec v <= 5)%Z.
Proof.
  unfold isBinaryOp, getOpPrec.
  destruct (lookupPrec opPrec v) eqn:H; [|discriminate].
  intros _. eapply lookupPrec_range; eauto.
Qed.

Lemma nonop_prec v : isBinaryOp v = false -> getOpPrec v = (-1)%Z.
Proof.
  unfold isBinaryOp, getOpPrec.
  destruct (lookupPrec opPrec v); [discriminate|reflexivity].
Qed.

Lemma binop_notPostfix t l :
  isBinaryOp (Value t) = true -> notPostfix (t :: l).
Proof.
  unfold notPostfix, Matches. cbn [headTok existsb]. intros H.
  destruct (String.eqb_spec (Value t) "[") as [E|_];
    [rewrite E in H; discriminate|].
  destruct (String.eqb_spec (Value t) "(") as [E|_];
    [rewrite E in H; discriminate|].
  reflexivity.
Qed.

Section Climb.

Variable floatErr : string -> bool.

Lemma notPostfix_pairs ops tl :
  Forall (pairOk floatErr) ops -> stops tl -> notPostfix (flatPairs ops ++ tl).
Proof.
  intros Hops [_ Htl]. destruct ops as [|[o t] ops]; [exact Htl|].
  inversion Hops as [|? ? [Ho _] _]; subst. cbn [flatPairs app].
  apply binop_notPostfix. exact Ho.
Qed.

Section Body.

Variable self : Rec.

Variable fb : nat.

Variable lastPrec : Z.

Lemma body_stop lhand p :
  rest p = []
  \/ (getOpPrec (Value (headTok (rest p))) < lastPrec)%Z
  \/ isBinaryOp (Value (headTok (rest p))) = false ->
  parsePrecBody floatErr self fb lastPrec lhand p = Ok (inr (Some lhand), p).
Proof.
  intros H. unfold parsePrecBody.
  pstep (hasNext_rest p).
  destruct (rest p) as [|t r] eqn:Hr; [reflexivity|].
  destruct H as [H|H]; [discriminate|]. cbn [headTok] in H.
  pstep (next_cons _ _ _ Hr).
  destruct (Z.ltb_spec (getOpPrec (Value t)) lastPrec) as [|Hge];
    [reflexivity|].
  destruct H as [H|H]; [lia|].
  pstep (hasNext_cons _ _ _ Hr).
  pstep (next_cons _ _ _ Hr).
  rewrite H. reflexivity.
Qed.

Lemma advance_advance p : advance (advance p) = advanceBy 2 p.
Proof. reflexivity. Qed.

Lemma rest_advanceBy2 p o t r :
  rest p = o :: t :: r -> rest (advanceBy 2 p) = r.
Proof.
  intros H. rewrite <- advance_advance.
  eapply rest_advance, rest_advance. exact H.
Qed.

Lemma body_step lhand p o t r :
  rest p = o :: t :: r ->
  isBinaryOp (Value o) = true -> (lastPrec <= getOpPrec (Value o))%Z ->
  isOperandTok floatErr t = true -> notPostfix r ->
  parsePrecBody floatErr self fb lastPrec lhand p
  = match r with
    | [] => Ok (inr (Some (BinaryExpression lhand (Value o)
                             (leafExpr floatErr t))), advanceBy 2 p)
    | t' :: _ =>
      if (getOpPrec (Value o) <? getOpPrec (Value t'))%Z then
        match rPrec self (getOpPrec (Value o) + 1)%Z (leafExpr floatErr t)
                (advanceBy 2 p) with
        | Ok (Some rh, p') =>
          Ok (inl (BinaryExpression lhand (Value o) rh), p')
        | Ok (None, p') => Ok (inr None, p')
        | Panic msg => Panic msg
        | OutOfFuel => OutOfFuel
        end
      else Ok (inl (BinaryExpression lhand (Value o) (leafExpr floatErr t)),
               advanceBy 2 p)
    end.
Proof.
  intros Hr Ho Hp Ht Hn. unfold parsePrecBody.
  pstep (hasNext_cons _ _ _ Hr).
  pstep (next_cons _ _ _ Hr).
  destruct (Z.ltb_spec (getOpPrec (Value o)) lastPrec) as [|_]; [lia|].
  pstep (hasNext_cons _ _ _ Hr).
  pstep (next_cons _ _ _ Hr).
  rewrite Ho. cbv beta iota delta [negb].
  pstep (consume_cons _ _ _ Hr).
  pose proof (rest_advance _ _ _ Hr) as Hr1.
  pstep (parsePrimaryExpr_tok floatErr self fb _ _ _ Hr1 Ht Hn).
  rewrite advance_advance.
  pose proof (rest_advanceBy2 _ _ _ _ Hr) as Hr2.
  pstep (hasNext_rest (advanceBy 2 p)). rewrite Hr2.
  destruct r as [|t' r']; [reflexivity|]. cbv beta iota delta [negb].
  pstep (next_cons _ _ _ Hr2).
  destruct (getOpPrec (Value o) <? getOpPrec (Value t'))%Z.
  - unfold pbind at 1.
    destruct (rPrec self _ _ _) as [[[rh|] p']| |]; reflexivity.
  - reflexivity.
Qed.

End Body.

Lemma loop_S {A B} j (body : A -> P (A + B)) a p :
  loop (S j) body a p
  = match body a p with
    | Ok (inl a', p') => loop j body a' p'
    | Ok (inr b, p') => Ok (b, p')
    | Panic msg => Panic msg
    | OutOfFuel => OutOfFuel
    end.
Proof.
  cbn [loop]. unfold pbind. destruct (body a p) as [[[a'|b] p']| |];
    reflexivity.
Qed.

Lemma rPrec_S n lastPrec lhand :
  rPrec (parserAt floatErr (S n)) lastPrec lhand
  = loop (S n) (parsePrecBody floatErr (parserAt floatErr n) (S n) lastPrec)
      lhand.
Proof. reflexivity. Qed.

Lemma flatPairs_app a b : flatPairs (a ++ b) = flatPairs a ++ flatPairs b.
Proof.
  induction a as [|[o t] a IH]; [reflexivity|].
  cbn [app flatPairs]. rewrite IH. reflexivity.
Qed.

Lemma flatPairs_length a : length (flatPairs a) = (2 * length a)%nat.
Proof.
  induction a as [|[o t] a IH]; [reflexivity|].
  cbn [flatPairs length]. rewrite IH. lia.
Qed.

Lemma rest_advanceBy k p l1 l2 :
  rest p = l1 ++ l2 -> length l1 = k -> rest (advanceBy k p) = l2.
Proof.
  unfold rest, advanceBy. cbn [toks pos]. intros H Hk.
  rewrite Nat.add_comm, <- drop_drop, H, <- Hk.
  apply drop_app_length.
Qed.

Lemma parsePrec_loop (m : nat) :
  forall ops n j fb lastPrec L tl p,
    (length ops <= m)%nat -> (length ops <= n)%nat -> (length ops < j)%nat ->
    rest p = flatPairs ops ++ tl ->
    Forall (pairOk floatErr) ops -> stops tl ->
    climbed L -> precLe lastPrec (rootPrec L) ->
    lePrec (headPrec ops) (rootPrec L) ->
    exists ops1 ops2 tree,
      ops = ops1 ++ ops2
      /\ loop j (parsePrecBody floatErr (parserAt floatErr n) fb lastPrec)
           (toExpr floatErr L) p
         = Ok (Some (toExpr floatErr tree), advanceBy (2 * length ops1) p)
      /\ inorder tree = inorder L ++ flatPairs ops1
      /\ climbed tree
      /\ precLe lastPrec (rootPrec tree)
      /\ match headPrec ops2 with
         | Some q => (q < lastPrec)%Z
         | None => True
         end.
Proof.
  induction m as [|m IH]; intros ops n j fb lastPrec L tl p Hm Hn Hj Hr Hops
    Htl HL HLp HLh.
  - destruct ops; [|simpl in Hm; lia].
    destruct j as [|j]; [lia|].
    exists [], [], L. cbn [app length Nat.mul]. rewrite advanceBy_0.
    split; [reflexivity|]. split.
    + rewrite loop_S, body_stop; [reflexivity|].
      cbn [flatPairs app] in Hr. rewrite Hr. right. right. apply Htl.
    + cbn [flatPairs headPrec]. rewrite app_nil_r. auto.
  - destruct ops as [|[o t] ops'].
    { apply (IH [] n j fb lastPrec L tl p); auto. simpl. lia. }
    destruct j as [|j]; [lia|].
    inversion Hops as [|? ? [Ho Ht] Hops']; subst. cbn [fst snd] in Ho, Ht.
    unfold isOperatorTok in Ho.
    cbn [flatPairs app] in Hr. cbn [length] in Hm, Hn, Hj.
    destruct (Z.ltb_spec (getOpPrec (Value o)) lastPrec) as [Hlt|Hge].
    { exists [], ((o, t) :: ops'), L. cbn [app length Nat.mul].
      rewrite advanceBy_0. split; [reflexivity|]. split.
      - rewrite loop_S, body_stop; [reflexivity|].
        rewrite Hr. right. left. exact Hlt.
      - cbn [flatPairs headPrec]. rewrite app_nil_r. auto. }
    pose proof (notPostfix_pairs ops' tl Hops' Htl) as Hnp.
    pose proof (rest_advanceBy2 _ _ _ _ Hr) as Hr2.
    pose proof (binop_prec _ Ho) as Hrange.
    pose proof (body_step (parserAt floatErr n) fb lastPrec
                  (toExpr floatErr L) p o t _ Hr Ho Hge Ht Hnp) as Hb.
    assert (HL1 : climbed (Node L o (Leaf t))).
    { cbn [climbed rootPrec]. repeat split; auto;
        cbn [headPrec] in HLh; destruct (rootPrec L); exact HLh || exact I. }
    destruct (flatPairs ops' ++ tl) as [|t' r'] eqn:E.
    { (* the expression ends the token stream *)
      destruct ops' as [|[? ?] ?]; [|discriminate E].
      exists [(o, t)], [], (Node L o (Leaf t)). split; [reflexivity|]. split.
      { rewrite loop_S, Hb. reflexivity. }
      cbn [inorder flatPairs headPrec rootPrec precLe].
      repeat split; auto. }
    destruct (Z.ltb_spec (getOpPrec (Value o)) (getOpPrec (Value t')))
      as [Hup|Hdown].
    + (* the next operator binds tighter: the right operand is climbed *)
      destruct ops' as [|[o' t''] ops''].
      { cbn [flatPairs app] in E. destruct Htl as [Hop _].
        rewrite E in Hop. cbn [headTok] in Hop.
        apply nonop_prec in Hop. lia. }
      assert (t' = o') by (cbn [flatPairs app] in E; congruence). subst t'.
      cbn [length] in Hm, Hn, Hj.
      destruct n as [|n']; [lia|].
      destruct (IH ((o', t'') :: ops'') n' (S n') (S n')
                  (getOpPrec (Value o) + 1)%Z (Leaf t) tl (advanceBy 2 p))
        as (ops1' & ops2' & rt & Esplit & Hrun & Hin & Hcl & Hrp & Hnext);
        cbn [length climbed rootPrec precLe lePrec headPrec]; auto; try lia.
      { rewrite Hr2. symmetry. exact E. }
      rewrite rPrec_S in Hb. cbn [toExpr] in Hrun. rewrite Hrun in Hb.
      assert (Hr3 : rest (advanceBy (2 * length ops1') (advanceBy 2 p))
                    = flatPairs ops2' ++ tl).
      { apply (rest_advanceBy _ _ (flatPairs ops1')).
        - rewrite Hr2, <- E, Esplit, flatPairs_app, app_assoc. reflexivity.
        - apply flatPairs_length. }
      assert (Hlen : length ((o', t'') :: ops'')
                     = (length ops1' + length ops2')%nat).
      { rewrite Esplit. apply length_app. }
      cbn [length] in Hlen.
      destruct (IH ops2' (S n') j fb lastPrec (Node L o rt) tl
                  (advanceBy (2 * length ops1') (advanceBy 2 p)))
        as (ops1'' & ops2'' & tree & Esplit2 & Hrun2 & Hin2 & Hcl2 & Hrp2
            & Hnext2); auto; try lia.
      { rewrite Esplit in Hops'. apply Forall_app in Hops'. apply Hops'. }
      { cbn [climbed]. destruct HL1 as (? & _ & ? & _).
        repeat split; auto.
        unfold precLe, precLt in *. destruct (rootPrec rt); [lia|exact I]. }
      { cbn [rootPrec]. unfold lePrec. destruct (headPrec ops2'); [lia|exact I]. }
      exists ((o, t) :: ops1' ++ ops1''), ops2'', tree.
      split.
      { rewrite Esplit, Esplit2. cbn [app]. rewrite app_assoc. reflexivity. }
      split.
      { rewrite loop_S, Hb. cbn [toExpr] in Hrun2. rewrite Hrun2.
        rewrite !advanceBy_advanceBy. do 3 f_equal.
        cbn [length]. rewrite length_app. lia. }
      split.
      { rewrite Hin2. cbn [inorder]. rewrite Hin. cbn [inorder flatPairs].
        rewrite flatPairs_app, <- !app_assoc. reflexivity. }
      auto.
    + (* the next operator does not bind tighter: the loop goes on *)
      destruct (IH ops' n j fb lastPrec (Node L o (Leaf t)) tl
                  (advanceBy 2 p))
        as (ops1' & ops2' & tree & Esplit & Hrun & Hin & Hcl & Hrp & Hnext);
        auto; try lia.
      { rewrite Hr2, E. reflexivity. }
      { cbn [rootPrec]. destruct ops' as [|[o' t''] ops'']; [exact I|].
        cbn [flatPairs app] in E. injection E as <- _.
        cbn [headPrec lePrec]. lia. }
      exists ((o, t) :: ops1'), ops2', tree.
      split; [rewrite Esplit; reflexivity|]. split.
      { rewrite loop_S, Hb. cbn [toExpr] in Hrun. rewrite Hrun.
        rewrite advanceBy_advanceBy. do 3 f_equal. cbn [length]. lia. }
      split.
      { rewrite Hin. cbn [inorder flatPairs]. rewrite <- app_assoc.
        reflexivity. }
      auto.
Qed.

End Climb.

Lemma binop_not_dot_assign v :
  isBinaryOp v = true ->
  existsb (String.eqb v) ["."] = false
  /\ existsb (String.eqb v) assignOperators = false.
Proof.
  intros H. unfold assignOperators. cbn [existsb].
  repeat match goal with
  | |- context [String.eqb v ?s] =>
    destruct (String.eqb_spec v s) as [E|_];
      [rewrite E in H; discriminate|]
  end.
  split; reflexivity.
Qed.

(** On an operand followed by operator and operand pairs, all
    operators binary, parseExpression consumes exactly these tokens and
    returns the binary tree over them, in their order, that the
    precedence table opPrec determines: the operator at the root of a
    right operand binds strictly tighter than its parent, the one at the
    root of a left operand at least as tight, so operators of the same
    precedence associate to the left. *)
Theorem parseExpression_climbs (floatErr : string -> bool)
  (t0 : Token) (ops : list (Token * Token)) (tl : list Token)
  (p : parser) (n : nat) :
  isOperandTok floatErr t0 = true ->
  forallb (pairOkb floatErr) ops = true ->
  endsExpr tl = true ->
  rest p = t0 :: flatPairs ops ++ tl ->
  (length ops < n)%nat ->
  exists tree,
    rExpression (parserAt floatErr n) p
    = Ok (Some (toExpr floatErr tree), advanceBy (1 + 2 * length ops) p)
    /\ inorder tree = t0 :: flatPairs ops
    /\ climbed tree.
Proof.
  intros Ht0 Hops Htl Hr Hn.
  assert (Hops' : Forall (pairOk floatErr) ops).
  { apply List.Forall_forall. intros ot Hin.
    rewrite forallb_forall in Hops. specialize (Hops ot Hin).
    apply andb_true_iff in Hops. exact Hops. }
  unfold endsExpr in Htl. apply andb_true_iff in Htl as [Hnop Hnm].
  apply negb_true_iff in Hnop. apply negb_true_iff in Hnm.
  unfold Matches in Hnm. cbn [app existsb] in Hnm.
  apply orb_false_iff in Hnm as [Hb1 Hnm].
  apply orb_false_iff in Hnm as [Hb2 Hnm].
  apply orb_false_iff in Hnm as [Hdot Hassign].
  assert (Hstop : stops tl).
  { split; [exact Hnop|]. unfold notPostfix, Matches. cbn [existsb].
    rewrite Hb1, Hb2. reflexivity. }
  destruct n as [|n]; [lia|].
  change (rExpression (parserAt floatErr (S n)))
    with (parseExpression floatErr (parserAt floatErr n) (S n)).
  unfold parseExpression, parseLeft.
  pose proof (notPostfix_pairs floatErr ops tl Hops' Hstop) as Hnp.
  rewrite (pbind_ok _ _ _ _ _
             (pbind_ok _ _ _ _ _
                (parsePrimaryExpr_tok floatErr _ _ _ _ _ Hr Ht0 Hnp))).
  unfold pure at 1.
  pose proof (rest_advance _ _ _ Hr) as Hr1.
  pstep (next_head (advance p)). rewrite Hr1.
  destruct ops as [|[o t] ops'].
  - cbn [flatPairs app]. unfold Matches. cbn [existsb].
    rewrite Hdot, Hassign, Hnop. cbn [orb].
    exists (Leaf t0). repeat split.
  - cbn [flatPairs app headTok].
    inversion Hops' as [|? ? [Ho _] _]; subst. cbn [fst] in Ho.
    unfold isOperatorTok in Ho.
    destruct (binop_not_dot_assign _ Ho) as [Hd Ha].
    unfold Matches. rewrite Hd, Ha, Ho.
    unfold parsePrec.
    destruct (parsePrec_loop floatErr (length ((o, t) :: ops'))
                ((o, t) :: ops') n (S n) (S n) 0%Z (Leaf t0) tl (advance p))
      as (ops1 & ops2 & tree & Esplit & Hrun & Hin & Hcl & _ & Hnext);
      cbn [length climbed rootPrec precLe lePrec headPrec] in *;
      auto; try lia.
    destruct ops2 as [|[o2 t2] ops2'].
    + rewrite app_nil_r in Esplit. subst ops1.
      exists tree. cbn [toExpr] in Hrun. rewrite Hrun.
      split; [|split; assumption].
      change (advance p) with (advanceBy 1 p).
      rewrite advanceBy_advanceBy. do 3 f_equal. cbn [length]. lia.
    + exfalso. cbn [headPrec] in Hnext.
      assert (Hin2 : In (o2, t2) ((o, t) :: ops')).
      { rewrite Esplit. apply in_or_app. right. left. reflexivity. }
      rewrite List.Forall_forall in Hops'. destruct (Hops' _ Hin2) as [Ho2 _].
      apply binop_prec in Ho2. cbn [fst] in Ho2. lia.
Qed.

Lemma parseExpression_climbs_witness :
  exists tree,
    rExpression (parserAt (fun _ => false) 3)
      (newParser [num "1" 0; sym "+" 2; num "2" 4; sym "*" 6; num "3" 8])
    = Ok (Some (toExpr (fun _ => false) tree),
          advanceBy 5
            (newParser [num "1" 0; sym "+" 2; num "2" 4; sym "*" 6;
                        num "3" 8]))
    /\ inorder tree = [num "1" 0; sym "+" 2; num "2" 4; sym "*" 6; num "3" 8]
    /\ climbed tree.
Proof.
  exact (parseExpression_climbs (fun _ => false) (num "1" 0)
           [(sym "+" 2, num "2" 4); (sym "*" 6, num "3" 8)] []
           (newParser [num "1" 0; sym "+" 2; num "2" 4; sym "*" 6;
                       num "3" 8]) 3
           eq_refl eq_refl eq_refl eq_refl (le_n 3)).
Defined.

End ClimbProofs.

Module IRProofs.
Import IRSpec.

Lemma foldM_app {A S} (f : S -> A -> result S) l1 l2 s :
  Builder.foldM f (l1 ++ l2) s
  = let* s' := Builder.foldM f l1 s in Builder.foldM f l2 s'.
Proof.
  revert s. induction l1 as [|x l1 IH]; intros s; [reflexivity|].
  cbn [app Builder.foldM]. destruct (f s x); [apply IH|reflexivity..].
Qed.

Lemma place_spec res st :
  Builder.place res st
  = IR.mkBlock (IR.Instr res ++ List.filter ordinary [st])
      (IR.DeferStack res ++ deferOf st)
      (match lastReturn [st] with Some r => Some r | None => IR.Return_ res end)
      (IR.Stab res).
Proof.
  destruct res, st; cbn; rewrite ?app_nil_r; reflexivity.
Qed.

Lemma lastReturn_app a b :
  lastReturn (a ++ b)
  = match lastReturn b with Some r => Some r | None => lastReturn a end.
Proof.
  unfold lastReturn. rewrite List.filter_app.
  destruct (List.filter isReturn b) as [|x l _] using rev_ind.
  - rewrite app_nil_r. reflexivity.
  - rewrite app_assoc, !last_snoc. reflexivity.
Qed.

Section Block.

Variable PT : string -> bool.

Lemma blockLoop_spec stats : forall instrs res,
  Builder.mapM (Builder.buildStat PT) stats = Ok instrs ->
  Builder.blockLoop (Builder.buildStat PT) stats res
  = Ok (IR.mkBlock (IR.Instr res ++ List.filter ordinary instrs)
          (IR.DeferStack res ++ flat_map deferOf instrs)
          (match lastReturn instrs with
           | Some r => Some r
           | None => IR.Return_ res
           end)
          (IR.Stab res)).
Proof.
  induction stats as [|stat stats IH]; intros instrs res H.
  - cbn in H. injection H as <-. destruct res; cbn. rewrite !app_nil_r.
    reflexivity.
  - cbn [Builder.mapM] in H.
    destruct (Builder.buildStat PT stat) as [st| |] eqn:Hst; try discriminate.
    cbn [rbind] in H.
    destruct (Builder.mapM (Builder.buildStat PT) stats) as [sts| |] eqn:Hsts;
      try discriminate.
    cbn [rbind] in H. injection H as <-.
    unfold Builder.blockLoop in *. cbn [Builder.foldM]. rewrite Hst.
    cbn [rbind]. rewrite (IH sts _ eq_refl). rewrite place_spec.
    cbn [IR.Instr IR.DeferStack IR.Return_ IR.Stab].
    change (st :: sts) with ([st] ++ sts).
    rewrite List.filter_app, flat_map_app, lastReturn_app, <- !app_assoc.
    cbn [flat_map]. rewrite app_nil_r.
    destruct (lastReturn sts); [reflexivity|].
    destruct (lastReturn [st]); reflexivity.
Qed.

(** C9: when the statements of a block lower to [instrs], buildBlock
    returns a block whose ordered instructions are [instrs] without the
    defers and the returns, whose defer stack holds every defer in
    order, and whose return slot holds the last return of [instrs],
    wherever it stands; no return is among the ordered instructions. *)
Theorem buildBlock_hoists stats instrs :
  Builder.mapM (Builder.buildStat PT) stats = Ok instrs ->
  exists b,
    Builder.buildBlock PT (Ast.mkBlockNode stats) = Ok b
    /\ IR.Instr b = List.filter ordinary instrs
    /\ IR.DeferStack b = flat_map deferOf instrs
    /\ IR.Return_ b = lastReturn instrs
    /\ Forall (fun i => isReturn i = false /\ isDefer i = false) (IR.Instr b).
Proof.
  intros H. eexists. split.
  { cbn [Builder.buildBlock]. apply (blockLoop_spec _ _ IR.NewBlock H). }
  cbn [IR.Instr IR.DeferStack IR.Return_ IR.NewBlock app].
  repeat split.
  - destruct (lastReturn instrs); reflexivity.
  - apply List.Forall_forall. intros i Hi. apply List.filter_In in Hi as [_ Hi].
    unfold ordinary in Hi. apply andb_true_iff in Hi as [H1 H2].
    split; apply negb_true_iff; assumption.
Qed.
End Block.

Lemma buildBlock_hoists_witness :
  exists b,
    Builder.buildBlock (fun _ => false)
      (Ast.mkBlockNode
         [Ast.ReturnStatement None; Ast.BreakStatement;
          Ast.DeferStatement None (Some Ast.NextStatement);
          Ast.ReturnStatement
            (Some (Ast.ConstantExpression (Ast.IntegerConstant 2)));
          Ast.NextStatement]) = Ok b
    /\ IR.Instr b = [IR.Break; IR.Next]
    /\ IR.DeferStack b = [(Some IR.Next, None)]
    /\ IR.Return_ b = Some (IR.Return (Some (IR.IntegerValue 2))).
Proof.
  destruct (buildBlock_hoists (fun _ => false)
    [Ast.ReturnStatement None; Ast.BreakStatement;
     Ast.DeferStatement None (Some Ast.NextStatement);
     Ast.ReturnStatement
       (Some (Ast.ConstantExpression (Ast.IntegerConstant 2)));
     Ast.NextStatement]
    [IR.Return None; IR.Break; IR.Defer (Some IR.Next) None;
     IR.Return (Some (IR.IntegerValue 2)); IR.Next] eq_refl)
    as (b & Hb & Hi & Hd & Hr & _).
  exists b. repeat split; assumption.
Defined.



(** C5: the pass resolves the condition of a while loop and its body,
    but never the post expression: with a post present the condition is
    resolved a second time. A post that names an unknown symbol is not
    reported, although resolving that value reports it, and the result
    does not depend on the post expression at all. *)
Theorem while_post_not_resolved :
  let s0 := {| Middle.errors := []; Middle.curr := None |} in
  Middle.resolveInstr 0 ∅
    (IR.WhileLoop (IR.IntegerValue 1) (Some (IR.Identifier tokY)) IR.NewBlock)
    s0 = Ok s0
  /\ Middle.resolveValue 0 ∅ (IR.Identifier tokY) s0
     = Ok {| Middle.errors := [Api.NewUnresolvedSymbol "y" [0; 1]];
             Middle.curr := None |}
  /\ forall fuel st cond post post' body s,
       Middle.resolveInstr fuel st (IR.WhileLoop cond (Some post) body) s
       = Middle.resolveInstr fuel st (IR.WhileLoop cond (Some post') body) s.
Proof.
  repeat split.
Qed.

(** The loop of buildPathExpression on elements that lower to values
    none of which is a path: the values are appended as they are. *)
Lemma pathLoop_flat {A} (build : A -> result IR.Value) l : forall vs acc,
  Builder.mapM build l = Ok vs ->
  flatValues vs = true ->
  Builder.pathLoop build l acc = Ok (acc ++ vs).
Proof.
  induction l as [|e l IH]; intros vs acc Hm H.
  - cbn in Hm. injection Hm as <-. cbn. rewrite app_nil_r. reflexivity.
  - cbn [Builder.mapM] in Hm.
    destruct (build e) as [v| |] eqn:He; try discriminate.
    cbn [rbind] in Hm.
    destruct (Builder.mapM build l) as [vs'| |] eqn:Hl; try discriminate.
    cbn [rbind] in Hm. injection Hm as <-.
    cbn in H. apply andb_true_iff in H as [Hv H].
    cbn [Builder.pathLoop]. rewrite He. cbn [rbind].
    rewrite (IH vs' _ eq_refl H).
    destruct v; try discriminate; cbn [Builder.appendPath];
      rewrite <- app_assoc; reflexivity.
Qed.

End IRProofs.

Module PipelineProofs.
Import Lexer Api Parser Pipeline.

(** C4: on "1.75" the lexer emits two Number tokens, "1." and "75", not
    the one token "1.75": the fractional run is read with the digits
    "012345689", which lack 7, so the run stops before the 7. *)
Theorem lexNumber_splits_fraction U fuel :
  tokenizeInput U (7 + fuel) "1.75"
  = Ok [NewToken "1." Number 0 2; NewToken "75" Number 2 4].
Proof. vm_compute. reflexivity. Qed.

(** The lexer and the parser on "1 + 2 * 3". *)
Lemma parse_one_plus_two_times_three U floatErr fuel :
  parseExpressionSource U floatErr (40 + fuel) "1 + 2 * 3"
  = Ok (Some (Ast.BinaryExpression
                (Ast.ConstantExpression (Ast.IntegerConstant 1)) "+"
                (Ast.BinaryExpression
                   (Ast.ConstantExpression (Ast.IntegerConstant 2)) "*"
                   (Ast.ConstantExpression (Ast.IntegerConstant 3))))).
Proof. vm_compute. reflexivity. Qed.

Lemma parse_a_b_c U floatErr fuel :
  parseExpressionSource U floatErr (40 + fuel) "a.b.c"
  = Ok (Some (Ast.PathExpression
          [Some (Ast.ConstantExpression (Ast.VariableReference (tokX "a" 0 1)));
           Some (Ast.PathExpression
             [Some (Ast.ConstantExpression (Ast.VariableReference (tokX "b" 2 3)));
              Some (Ast.ConstantExpression (Ast.VariableReference (tokX "c" 4 5)))])])).
Proof. vm_compute. reflexivity. Qed.

(** C2: what the parser returns for "a.b.c" is not the single path of
    the three identifiers a, b, c: it is a path of two elements, the
    identifier a and a second path that holds b and c. parseDotList
    reads what follows a dot with parseExpression, which takes the
    rest of the dots for a dot list of its own. *)
Theorem member_access_parses_nested U floatErr fuel :
  parseExpressionSource U floatErr (40 + fuel) "a.b.c"
  = Ok (Some (Ast.PathExpression
          [Some (Ast.ConstantExpression (Ast.VariableReference (tokX "a" 0 1)));
           Some (Ast.PathExpression
             [Some (Ast.ConstantExpression (Ast.VariableReference (tokX "b" 2 3)));
              Some (Ast.ConstantExpression (Ast.VariableReference (tokX "c" 4 5)))])]))
  /\ parseExpressionSource U floatErr (40 + fuel) "a.b.c"
     <> Ok (Some pathABC).
Proof.
  split; [apply parse_a_b_c|]. rewrite parse_a_b_c. discriminate.
Qed.

Lemma lower_a_b_c U floatErr PT fuel :
  lowerExpressionSource U floatErr PT (40 + fuel) "a.b.c"
  = Ok (IR.Path [IR.Identifier (tokX "a" 0 1); IR.Identifier (tokX "b" 2 3);
                 IR.Identifier (tokX "c" 4 5)]).
Proof. vm_compute. reflexivity. Qed.

(** Lowering the expression of "a.b.c" to the IR gives the single path
    of the identifiers a, b, c. buildPathExpression leaves a flat path
    as it is: when the elements of a path expression lower to values
    none of which is a path, it returns the path of exactly these
    values, in their order. *)
Theorem lowering_flattens_path U floatErr PT fuel :
  lowerExpressionSource U floatErr PT (40 + fuel) "a.b.c"
  = Ok (IR.Path [IR.Identifier (tokX "a" 0 1); IR.Identifier (tokX "b" 2 3);
                 IR.Identifier (tokX "c" 4 5)])
  /\ forall values vs,
       Builder.mapM (Builder.buildExprOpt PT) values = Ok vs ->
       IRSpec.flatValues vs = true ->
       Builder.buildPathExpression PT values = Ok (IR.Path vs).
Proof.
  split; [apply lower_a_b_c|].
  intros values vs Hm Hf. unfold Builder.buildPathExpression.
  rewrite (IRProofs.pathLoop_flat _ _ _ [] Hm Hf). reflexivity.
Qed.

Lemma lowering_flattens_path_witness :
  Builder.buildPathExpression (fun _ => false)
    [Some (Ast.ConstantExpression (Ast.VariableReference (tokX "a" 0 1)));
     Some (Ast.ConstantExpression (Ast.VariableReference (tokX "b" 2 3)));
     Some (Ast.ConstantExpression (Ast.VariableReference (tokX "c" 4 5)))]
  = Ok (IR.Path [IR.Identifier (tokX "a" 0 1); IR.Identifier (tokX "b" 2 3);
                 IR.Identifier (tokX "c" 4 5)]).
Proof.
  exact (proj2 (lowering_flattens_path Go.latin1Only (fun _ => false)
                  (fun _ => false) 0)
           [Some (Ast.ConstantExpression (Ast.VariableReference (tokX "a" 0 1)));
            Some (Ast.ConstantExpression (Ast.VariableReference (tokX "b" 2 3)));
            Some (Ast.ConstantExpression (Ast.VariableReference (tokX "c" 4 5)))]
           [IR.Identifier (tokX "a" 0 1); IR.Identifier (tokX "b" 2 3);
            IR.Identifier (tokX "c" 4 5)] eq_refl eq_refl).
Defined.

Lemma parse_mut_alone U floatErr fuel :
  parseSource U floatErr (40 + fuel) "mut x;"
  = Ok ([Ast.MutableStatement (tokX "x" 4 5) true None None],
        [NewUnimplementedError ["parseTypeExpression"; "type"] [2; 2];
         NewParseError "type after assignment" [0; 2];
         NewParseError "value or type in mut statement" [0; 2]]).
Proof. vm_compute. reflexivity. Qed.

Lemma build_mut_alone U floatErr PT fuel :
  buildSource U floatErr PT (60 + fuel) "fn f() { mut x; }"
  = Panic "no expression to infer from".
Proof. vm_compute. reflexivity. Qed.

(** C10: lowering a mut statement without type and without value
    panics. The parser returns such a node for "mut x;", with parse
    errors recorded, and building the unit "fn f() { mut x; }" panics. *)
Theorem mut_without_type_or_value_panics U floatErr PT fuel :
  (forall name owned,
     Builder.buildMutStat PT name owned None None
     = Panic "no expression to infer from")
  /\ parseSource U floatErr (40 + fuel) "mut x;"
     = Ok ([Ast.MutableStatement (tokX "x" 4 5) true None None],
           [NewUnimplementedError ["parseTypeExpression"; "type"] [2; 2];
            NewParseError "type after assignment" [0; 2];
            NewParseError "value or type in mut statement" [0; 2]])
  /\ buildSource U floatErr PT (60 + fuel) "fn f() { mut x; }"
     = Panic "no expression to infer from".
Proof.
  split; [reflexivity|]. split; [apply parse_mut_alone|apply build_mut_alone].
Qed.

(** C6: the unit builds without diagnostics, and scope resolution of the
    built module reports nothing at all, whatever the scopes: the return
    statement is kept in the return slot of the body, which resolveFunc
    does not visit, so the unknown y is never looked up. *)
Theorem unresolved_in_return_not_reported U floatErr PT fuel :
  exists m,
    buildSource U floatErr PT (100 + fuel) "fn f() { mut x = 1; return x + y; }"
    = Ok (m, [], [])
    /\ forall lfuel st r, Middle.symResolve lfuel st (withStab r m) = Ok [].
Proof.
  eexists. split. { vm_compute. reflexivity. }
  intros. unfold Middle.symResolve.
  match goal with |- context [Middle.eachM _ ?l _] =>
    let l' := eval vm_compute in l in change l with l' end.
  cbn [Middle.eachM Middle.resolveFunc IR.Body IR.Instr IR.FunctionStab
       Middle.resolveInstr Middle.resolveLocal Middle.resolveOpt
       Middle.resolveValue rbind Middle.push Middle.errors Middle.curr].
  unfold Middle.pop. cbn [Middle.curr Middle.errors].
  destruct r; reflexivity.
Qed.

End PipelineProofs.

Module ImplProofs.
Import Lexer Api Ast ImplSpec Builder.

Lemma countDup_app nm a b : countDup nm (a ++ b) = (countDup nm a + countDup nm b)%nat.
Proof. unfold countDup. rewrite List.filter_app, length_app. reflexivity. Qed.

Lemma declare_step nm b sn ins n :
  exists b1 sn1,
    declare (b, sn, ins) n = (b1, sn1, ins ++ implsOf [n])
    /\ (forall i, implsAt b !! nm = Some i ->
        implsAt b1 !! nm = Some i
        /\ countDup nm (errors b1)
           = (countDup nm (errors b)
              + (if isImplNamed nm n then 1 else 0))%nat)
    /\ (implsAt b !! nm = None ->
        countDup nm (errors b1) = countDup nm (errors b)
        /\ if isImplNamed nm n
           then exists tok, implsAt b1 !! nm = Some (IR.NewImpl tok)
           else implsAt b1 !! nm = None).
Proof.
  destruct n;
    try (exists b, sn; cbn [declare implsOf isImplNamed];
         rewrite app_nil_r; repeat split; auto; lia).
  - (* an impl declaration *)
    cbn [declare implsOf isImplNamed]. unfold IR.RegisterImpl.
    cbn [IR.NewImpl IR.ImplName].
    change (IR.Impls (mod_ b)) with (implsAt b).
    destruct (String.eqb_spec (Value Name) nm) as [E|E].
    + subst nm. destruct (implsAt b !! Value Name) as [i0|] eqn:Hp.
      * eexists _, sn. split; [reflexivity|]. split; [|discriminate].
        intros i [= <-]. split; [exact Hp|].
        cbn [error errors setMod]. rewrite countDup_app. cbn.
        rewrite String.eqb_refl. reflexivity.
      * eexists _, sn. split; [reflexivity|]. split; [discriminate|].
        intros _. split; [reflexivity|]. eexists.
        unfold implsAt. cbn [setMod mod_ IR.setImpl IR.Impls].
        apply lookup_insert_eq.
    + pose proof (proj2 (String.eqb_neq _ _) E) as E'.
      destruct (implsAt b !! Value Name) as [i0|] eqn:Hp.
      * eexists _, sn. split; [reflexivity|].
        assert (Hc : countDup nm (errors (error (setMod b (mod_ b))
                       (DuplicateImplementation Name)))
                     = countDup nm (errors b)).
        { cbn [error errors setMod]. rewrite countDup_app. cbn.
          rewrite E'. cbn. lia. }
        split.
        -- intros i Hi. split; [exact Hi|]. rewrite Hc. lia.
        -- intros Hn. split; [exact Hc|exact Hn].
      * set (b1 := setMod b (IR.setImpl (mod_ b) (Value Name)
                                 (IR.NewImpl Name))).
        exists b1, sn. split; [reflexivity|].
        assert (Hl : implsAt b1 !! nm = implsAt b !! nm).
        { unfold implsAt, b1. cbn [setMod mod_ IR.setImpl IR.Impls].
          apply lookup_insert_ne. exact E. }
        split.
        -- intros i Hi. rewrite Hl. split; [exact Hi|]. unfold b1, countDup. cbn. lia.
        -- intros Hn. split; [reflexivity|]. rewrite Hl. exact Hn.
  - (* a structure declaration *)
    eexists _, _. cbn [declare implsOf isImplNamed]. rewrite app_nil_r.
    split; [reflexivity|]. split.
    + intros i Hi. split; [exact Hi|]. unfold countDup. cbn. lia.
    + intros Hn. split; [reflexivity|exact Hn].
Qed.

Lemma declare_fold nm nodes : forall b sn ins,
  exists b' sn',
    fold_left declare nodes (b, sn, ins) = (b', sn', ins ++ implsOf nodes)
    /\ (countDup nm (errors b')
        + match implsAt b !! nm with
          | Some _ => 0
          | None => Nat.min 1 (implCount nm nodes)
          end
        = countDup nm (errors b) + implCount nm nodes)%nat
    /\ (forall i, implsAt b !! nm = Some i -> implsAt b' !! nm = Some i)
    /\ (implsAt b !! nm = None -> (0 < implCount nm nodes)%nat ->
        exists tok, implsAt b' !! nm = Some (IR.NewImpl tok)).
Proof.
  induction nodes as [|n nodes IH]; intros b sn ins.
  - exists b, sn. cbn. rewrite app_nil_r. unfold implCount. cbn.
    repeat split; auto; try lia.
    destruct (implsAt b !! nm); lia.
  - cbn [fold_left].
    destruct (declare_step nm b sn ins n) as (b1 & sn1 & E1 & Hsome & Hnone).
    rewrite E1.
    destruct (IH b1 sn1 (ins ++ implsOf [n]))
      as (b' & sn' & E & Hc & Hk & Hn).
    exists b', sn'. split.
    { rewrite E. f_equal. rewrite <- app_assoc. f_equal.
      destruct n; reflexivity. }
    assert (Hcount : implCount nm (n :: nodes)
                     = ((if isImplNamed nm n then 1 else 0)
                        + implCount nm nodes)%nat).
    { unfold implCount. cbn [List.filter].
      destruct (isImplNamed nm n); reflexivity. }
    rewrite Hcount.
    destruct (implsAt b !! nm) as [i|] eqn:Hb.
    + destruct (Hsome i eq_refl) as [Hi Hd]. rewrite Hi in Hc.
      repeat split; try discriminate.
      * lia.
      * intros i' [= <-]. apply Hk. exact Hi.
    + destruct (Hnone eq_refl) as [Hd Hi].
      destruct (isImplNamed nm n).
      * destruct Hi as [tok Hi]. rewrite Hi in Hc.
        repeat split; try discriminate.
        -- cbn. lia.
        -- intros _ _. exists tok. apply Hk. exact Hi.
      * rewrite Hi in Hc. repeat split; try discriminate.
        -- cbn [Nat.add]. lia.
        -- intros _ Hpos. apply Hn; [exact Hi|]. cbn in Hpos. exact Hpos.
Qed.

Section Sweeps.

Variable PT : string -> bool.

Lemma foldM_inv {A S} (I : S -> Prop) (f : S -> A -> result S) l :
  (forall s x s', I s -> f s x = Ok s' -> I s') ->
  forall s s', I s -> foldM f l s = Ok s' -> I s'.
Proof.
  intros Hf. induction l as [|x l IH]; intros s s' Hs H.
  - cbn in H. injection H as <-. exact Hs.
  - cbn [foldM] in H. destruct (f s x) as [s1| |] eqn:E; try discriminate.
    cbn [rbind] in H. eapply IH; [|exact H]. eapply Hf; eauto.
Qed.

Lemma foldM_app_ok {A S} (f : S -> A -> result S) l1 l2 s s' :
  foldM f (l1 ++ l2) s = Ok s' ->
  exists s1, foldM f l1 s = Ok s1 /\ foldM f l2 s1 = Ok s'.
Proof.
  revert s. induction l1 as [|x l1 IH]; intros s H.
  - exists s. split; [reflexivity|exact H].
  - cbn [app foldM] in *. destruct (f s x) as [s1| |]; try discriminate.
    cbn [rbind] in *. apply IH. exact H.
Qed.

(** The second and the last loop leave the impls and the
    diagnostics as they are. *)
Lemma defineStructure_keeps b sn b' :
  defineStructure PT b sn = Ok b' ->
  implsAt b' = implsAt b /\ errors b' = errors b.
Proof.
  unfold defineStructure. destruct sn as [name fields].
  destruct (IR.GetStructure (mod_ b) (Value name)); [|discriminate].
  destruct (foldM _ fields _); try discriminate.
  cbn [rbind]. intros [= <-]. split; reflexivity.
Qed.

Lemma defineFunction_keeps b n b' :
  defineFunction PT b n = Ok b' ->
  implsAt b' = implsAt b /\ errors b' = errors b.
Proof.
  unfold defineFunction.
  destruct n; try (intros [= <-]; split; reflexivity).
  destruct (buildFunc PT f); try discriminate.
  cbn [rbind]. intros [= <-]. split; reflexivity.
Qed.

Lemma buildFunc_name fd f :
  buildFunc PT fd = Ok f -> Value (IR.FunctionName f) = declName fd.
Proof.
  unfold buildFunc. destruct fd as [[name args rt] body].
  destruct (foldM _ args _); try discriminate. cbn [rbind].
  destruct (match rt with Some t => _ | None => _ end); try discriminate.
  cbn [rbind]. destruct (buildBlockOpt PT body); try discriminate.
  cbn [rbind]. intros [= <-]. reflexivity.
Qed.

Lemma sameDups_refl b : sameDups b b.
Proof. intros nm. reflexivity. Qed.

Lemma sameDups_trans a b c : sameDups a b -> sameDups b c -> sameDups a c.
Proof. intros H1 H2 nm. rewrite H2. apply H1. Qed.

(** Registering the methods of one impl declaration: a method that
    is there stays, and a name that is free gets the first function
    of the declaration that has it. *)
Lemma defineMethod_fold fns : forall b impl b' impl',
  foldM (defineMethod PT) fns (b, impl) = Ok (b', impl') ->
  sameDups b b'
  /\ mod_ b' = mod_ b
  /\ (forall k f, IR.Methods impl !! k = Some f ->
      IR.Methods impl' !! k = Some f)
  /\ (forall k fd, IR.Methods impl !! k = None ->
      firstNamed k fns = Some fd ->
      exists f, buildFunc PT fd = Ok f /\ IR.Methods impl' !! k = Some f).
Proof.
  induction fns as [|fn fns IH]; intros b impl b' impl' H.
  - cbn in H. injection H as <- <-.
    repeat split; auto using sameDups_refl. discriminate.
  - cbn [foldM] in H. unfold defineMethod at 1 in H.
    destruct (buildFunc PT fn) as [f0| |] eqn:Hf; try discriminate.
    cbn [rbind] in H. unfold IR.RegisterMethod in H.
    pose proof (buildFunc_name _ _ Hf) as Hname.
    destruct (IR.Methods impl !! Value (IR.FunctionName f0)) as [old|] eqn:Hold.
    + (* the name is taken: a diagnostic, the impl as it was *)
      cbn [rbind] in H. apply IH in H as (Hd & Hm & Hkeep & Hnew).
      split; [|split; [|split]].
      * intros nm. rewrite Hd. cbn [error errors]. rewrite countDup_app.
        cbn. lia.
      * rewrite Hm. reflexivity.
      * exact Hkeep.
      * intros k fd Hk Hfirst. apply Hnew; [exact Hk|].
        unfold firstNamed in *. cbn [find] in Hfirst.
        destruct (String.eqb_spec (declName fn) k) as [E|_]; [|exact Hfirst].
        rewrite Hname, E in Hold. congruence.
    + cbn [rbind] in H. apply IH in H as (Hd & Hm & Hkeep & Hnew).
      cbn [IR.Methods] in Hkeep, Hnew.
      split; [exact Hd|]. split; [exact Hm|]. split.
      * intros k f Hk. apply Hkeep.
        rewrite lookup_insert_ne; [exact Hk|]. congruence.
      * intros k fd Hk Hfirst.
        unfold firstNamed in *. cbn [find] in Hfirst.
        destruct (String.eqb_spec (declName fn) k) as [E|E].
        -- injection Hfirst as <-. exists f0. split; [exact Hf|].
           apply Hkeep. rewrite Hname, E. apply lookup_insert_eq.
        -- apply Hnew; [|exact Hfirst].
           rewrite lookup_insert_ne; [exact Hk|]. rewrite Hname. exact E.
Qed.

Lemma defineImpl_spec nm b name fns b' :
  defineImpl PT b (name, fns) = Ok b' ->
  sameDups b b'
  /\ (Value name <> nm -> implsAt b' !! nm = implsAt b !! nm)
  /\ (Value name = nm ->
      exists impl impl',
        implsAt b !! nm = Some impl /\ implsAt b' !! nm = Some impl'
        /\ methodsKept impl impl'
        /\ (forall k fd, IR.Methods impl !! k = None ->
            firstNamed k fns = Some fd ->
            exists f, buildFunc PT fd = Ok f
                      /\ IR.Methods impl' !! k = Some f)).
Proof.
  unfold defineImpl, IR.GetImpl. change (IR.Impls (mod_ b)) with (implsAt b).
  destruct (implsAt b !! Value name) as [impl|] eqn:Hg; [|discriminate].
  destruct (foldM (defineMethod PT) fns (b, impl)) as [[b1 impl1]| |] eqn:Hm;
    try discriminate.
  cbn [rbind]. intros [= <-].
  apply defineMethod_fold in Hm as (Hd & Hmod & Hkeep & Hnew).
  split; [exact Hd|]. unfold implsAt.
  cbn [setMod mod_ IR.setImpl IR.Impls]. rewrite Hmod. split.
  - intros Hne. apply lookup_insert_ne. exact Hne.
  - intros <-. exists impl, impl1. rewrite lookup_insert_eq.
    repeat split; assumption.
Qed.

Lemma defineImpl_fold_other nm ins : forall b b',
  noneNamed nm ins ->
  foldM (defineImpl PT) ins b = Ok b' ->
  implsAt b' !! nm = implsAt b !! nm.
Proof.
  induction ins as [|[name fns] ins IH]; intros b b' Hn H.
  - cbn in H. injection H as <-. reflexivity.
  - cbn [foldM] in H.
    destruct (defineImpl PT b (name, fns)) as [b1| |] eqn:E; try discriminate.
    cbn [rbind] in H. inversion Hn as [|? ? Hne Hn']; subst.
    rewrite (IH _ _ Hn' H).
    apply (defineImpl_spec nm) in E as (_ & Ho & _). apply Ho. exact Hne.
Qed.

Lemma defineImpl_fold_keeps nm ins : forall b b' impl,
  foldM (defineImpl PT) ins b = Ok b' ->
  implsAt b !! nm = Some impl ->
  exists impl', implsAt b' !! nm = Some impl' /\ methodsKept impl impl'.
Proof.
  induction ins as [|[name fns] ins IH]; intros b b' impl H Hi.
  - cbn in H. injection H as <-. exists impl. split; [exact Hi|].
    intros k f Hk. exact Hk.
  - cbn [foldM] in H.
    destruct (defineImpl PT b (name, fns)) as [b1| |] eqn:E; try discriminate.
    cbn [rbind] in H.
    apply (defineImpl_spec nm) in E as (_ & Ho & Hs).
    destruct (string_dec (Value name) nm) as [Heq|Hne].
    + destruct (Hs Heq) as (i0 & i1 & H0 & H1 & Hk & _).
      rewrite Hi in H0. injection H0 as <-.
      destruct (IH _ _ _ H H1) as (impl' & Hi' & Hk').
      exists impl'. split; [exact Hi'|].
      intros k f Hf. apply Hk', Hk, Hf.
    + apply (IH _ _ _ H). rewrite (Ho Hne). exact Hi.
Qed.

Lemma defineImpl_fold_dups ins : forall b b',
  foldM (defineImpl PT) ins b = Ok b' -> sameDups b b'.
Proof.
  induction ins as [|[name fns] ins IH]; intros b b' H.
  - cbn in H. injection H as <-. apply sameDups_refl.
  - cbn [foldM] in H.
    destruct (defineImpl PT b (name, fns)) as [b1| |] eqn:E; try discriminate.
    cbn [rbind] in H.
    apply (defineImpl_spec "") in E as (Hd & _).
    eapply sameDups_trans; [exact Hd|]. apply IH. exact H.
Qed.

Lemma implsOf_split nm nodes fs1 :
  firstImpl nm nodes = Some fs1 ->
  exists pre n1 post,
    implsOf nodes = pre ++ (n1, fs1) :: post
    /\ noneNamed nm pre /\ Value n1 = nm.
Proof.
  induction nodes as [|n nodes IH]; [discriminate|].
  destruct n; cbn [firstImpl implsOf]; try exact IH.
  destruct (String.eqb_spec (Value Name) nm) as [E|E].
  - intros [= <-]. exists [], Name, (implsOf nodes).
    repeat split; [constructor|exact E].
  - intros H. destruct (IH H) as (pre & n1 & post & Es & Hn & Hv).
    exists ((Name, Functions) :: pre), n1, post. rewrite Es.
    repeat split; [constructor; assumption|exact Hv].
Qed.

Lemma firstImpl_some nm nodes :
  (0 < implCount nm nodes)%nat -> exists fs1, firstImpl nm nodes = Some fs1.
Proof.
  unfold implCount. induction nodes as [|n nodes IH]; cbn; [lia|].
  destruct n; cbn [isImplNamed]; try exact IH.
  destruct (String.eqb (Value Name) nm); [eauto|exact IH].
Qed.

End Sweeps.

(** C7: when a unit holds exactly two impl declarations of the name
    [nm] and building succeeds, exactly one DuplicateImplementation
    diagnostic is reported for [nm], and the module holds an impl of
    that name in which every method of the first declaration is
    registered as buildFunc built it. *)
Theorem duplicate_impl_reported_once (PrimitiveType : string -> bool)
  (nodes : list ParseTreeNode) (nm : string)
  (m : IR.Module) (errs : list CompilerError) :
  implCount nm nodes = 2%nat ->
  build PrimitiveType [nodes] = Ok (m, errs) ->
  countDup nm errs = 1%nat
  /\ exists impl,
       IR.Impls m !! nm = Some impl
       /\ forall fs1 k fd,
            firstImpl nm nodes = Some fs1 ->
            firstNamed k fs1 = Some fd ->
            exists f, buildFunc PrimitiveType fd = Ok f
                      /\ IR.Methods impl !! k = Some f.
Proof.
  intros Hcount Hbuild. unfold build in Hbuild. cbn [foldM] in Hbuild.
  set (b0 := newBuilder (IR.NewModule "main")) in *.
  destruct (buildTree PrimitiveType b0 nodes) as [b| |] eqn:Ht;
    try discriminate.
  cbn [rbind] in Hbuild. injection Hbuild as <- <-.
  unfold buildTree in Ht.
  destruct (declare_fold nm nodes b0 [] [])
    as (b1 & sn & E1 & Hc1 & _ & Hnew1).
  rewrite E1 in Ht. cbn [app] in Ht.
  destruct (foldM (defineStructure PrimitiveType) sn b1) as [b2| |] eqn:E2;
    try discriminate.
  cbn [rbind] in Ht.
  destruct (foldM (defineImpl PrimitiveType) (implsOf nodes) b2)
    as [b3| |] eqn:E3; try discriminate.
  cbn [rbind] in Ht.
  assert (H2 : implsAt b2 = implsAt b1 /\ errors b2 = errors b1).
  { revert E2. apply (foldM_inv (fun s => implsAt s = implsAt b1
                                         /\ errors s = errors b1));
      [|split; reflexivity].
    intros s x s' [Hi He] Hx.
    apply defineStructure_keeps in Hx as [-> ->]. split; assumption. }
  assert (H4 : implsAt b = implsAt b3 /\ errors b = errors b3).
  { revert Ht. apply (foldM_inv (fun s => implsAt s = implsAt b3
                                         /\ errors s = errors b3));
      [|split; reflexivity].
    intros s x s' [Hi He] Hx.
    apply defineFunction_keeps in Hx as [-> ->]. split; assumption. }
  destruct H2 as [Hi2 He2]. destruct H4 as [Hi4 He4].
  change (IR.Impls (mod_ b)) with (implsAt b). rewrite Hi4, He4.
  split.
  - rewrite (defineImpl_fold_dups _ _ _ _ E3 nm), He2.
    rewrite Hcount in Hc1.
    assert (H0 : implsAt b0 !! nm = None) by apply lookup_empty.
    rewrite H0 in Hc1. cbn in Hc1. lia.
  - destruct Hnew1 as [tok Htok]; [apply lookup_empty|lia|].
    destruct (firstImpl_some nm nodes) as [fs1 Hfs1]; [lia|].
    destruct (implsOf_split nm nodes fs1 Hfs1)
      as (pre & n1 & post & Es & Hpre & Hn1).
    rewrite Es in E3. apply foldM_app_ok in E3 as (ba & Ea & E3).
    cbn [foldM] in E3.
    destruct (defineImpl PrimitiveType ba (n1, fs1)) as [bb| |] eqn:Eb;
      try discriminate.
    cbn [rbind] in E3.
    pose proof (defineImpl_fold_other _ nm pre _ _ Hpre Ea) as Hia.
    rewrite Hi2, Htok in Hia.
    apply (defineImpl_spec _ nm) in Eb as (_ & _ & Hs).
    destruct (Hs Hn1) as (i0 & i1 & H0 & H1 & _ & Hnew).
    rewrite Hia in H0. injection H0 as <-.
    destruct (defineImpl_fold_keeps _ nm post _ _ _ E3 H1)
      as (impl & Himpl & Hkept).
    exists impl. split; [exact Himpl|].
    intros fs k fd Hfs Hfd. rewrite Hfs1 in Hfs. injection Hfs as <-.
    destruct (Hnew k fd) as (f & Hf & Hm); [apply lookup_empty|exact Hfd|].
    exists f. split; [exact Hf|]. apply Hkept. exact Hm.
Qed.

Lemma duplicate_impl_reported_once_witness :
  exists m errs,
    build (fun _ => false)
      [[implA 5 [fnDecl "f" None]; implA 20 [fnDecl "f" None;
                                              fnDecl "g" None]]]
    = Ok (m, errs)
    /\ countDup "A" errs = 1%nat
    /\ exists impl f,
         IR.Impls m !! "A" = Some impl
         /\ buildFunc (fun _ => false) (fnDecl "f" None) = Ok f
         /\ IR.Methods impl !! "f" = Some f.
Proof.
  eexists _, _. split; [vm_compute; reflexivity|].
  match goal with |- countDup "A" ?e = _ /\ (exists impl f, IR.Impls ?m !! _ = _ /\ _) =>
    destruct (duplicate_impl_reported_once (fun _ => false)
                [implA 5 [fnDecl "f" None];
                 implA 20 [fnDecl "f" None; fnDecl "g" None]] "A" m e
                eq_refl eq_refl) as [Hc (impl & Hi & Hm)]
  end.
  split; [exact Hc|].
  destruct (Hm [fnDecl "f" None] "f" (fnDecl "f" None) eq_refl eq_refl)
    as (f & Hf & Hl).
  exists impl, f. repeat split; assumption.
Defined.

End ImplProofs.

Module PrecProofs.
Import Lexer Ast Parser OpTree PrecTable.

(** The table of the parser is the table written out above. *)
Lemma lookupPrec_table op : lookupPrec opPrec op = tablePrec op.
Proof.
  unfold tablePrec, oneOf, opPrec. cbn [lookupPrec existsb].
  repeat match goal with
         | |- context [String.eqb ?k op] =>
           destruct (String.eqb k op); cbn [orb]; try reflexivity
         end.
Qed.

Lemma getOpPrec_table t : getOpPrec (Value t) = tokenPrec t.
Proof. unfold getOpPrec, tokenPrec. rewrite lookupPrec_table. reflexivity. Qed.

Lemma isBinaryOp_table t : isBinaryOp (Value t) = tableOperator t.
Proof.
  unfold isBinaryOp, tableOperator. rewrite lookupPrec_table. reflexivity.
Qed.

Lemma rootPrec_table t : rootPrec t = rootPrecBy tokenPrec t.
Proof. destruct t; cbn; [reflexivity|]. rewrite getOpPrec_table. reflexivity. Qed.

Lemma climbed_table t : climbed t -> climbedBy tokenPrec t.
Proof.
  induction t as [|l IHl op r IHr]; [trivial|].
  cbn [climbed climbedBy]. intros (Hl & Hr & H1 & H2).
  rewrite getOpPrec_table, rootPrec_table in H1, H2. auto.
Qed.

Lemma inorder_length t : Nat.odd (length (inorder t)) = true.
Proof.
  induction t as [|l IHl op r IHr]; [reflexivity|].
  cbn [inorder]. rewrite length_app. cbn [length].
  rewrite Nat.add_succ_r, Nat.odd_succ, Nat.even_add.
  rewrite <- !Nat.negb_odd, IHl, IHr. reflexivity.
Qed.

Lemma inorder_one t a : inorder t = [a] -> t = Leaf a.
Proof.
  destruct t as [b|l op r]; cbn [inorder].
  - intros H. injection H as ->. reflexivity.
  - intros H. apply (f_equal (@length _)) in H.
    rewrite length_app in H. cbn [length] in H.
    pose proof (inorder_length l). pose proof (inorder_length r).
    destruct (inorder l); [discriminate|]. destruct (inorder r); [discriminate|].
    cbn [length] in H. lia.
Qed.

Lemma inorder_split l op r (xs : list Token) :
  inorder l ++ op :: inorder r = xs ->
  exists a b, xs = a ++ op :: b /\ inorder l = a /\ inorder r = b.
Proof. intros <-. eauto. Qed.

Lemma inorder_three t a o b :
  inorder t = [a; o; b] -> t = Node (Leaf a) o (Leaf b).
Proof.
  destruct t as [c|l op r]; cbn [inorder]; [discriminate|].
  intros H. pose proof (inorder_length l) as Hl.
  pose proof (inorder_length r) as Hr.
  destruct (inorder l) as [|x [|y [|z w]]] eqn:El; cbn in Hl;
    try discriminate.
  - cbn [app] in H. injection H as -> -> Er.
    rewrite (inorder_one _ _ El), (inorder_one _ _ Er). reflexivity.
  - cbn [app] in H. injection H as _ _ _ H. destruct w; discriminate.
Qed.

(** With a second operator that binds tighter than the first, the
    tree over five tokens hangs the second operator on the right. *)
Lemma climbed_five prec tree a o1 b o2 c :
  inorder tree = [a; o1; b; o2; c] -> climbedBy prec tree ->
  (prec o1 < prec o2)%Z ->
  tree = Node (Leaf a) o1 (Node (Leaf b) o2 (Leaf c)).
Proof.
  destruct tree as [x|l op r]; cbn [inorder]; [discriminate|].
  intros H Hc Hlt. pose proof (inorder_length l) as Hl.
  pose proof (inorder_length r) as Hr.
  destruct (inorder l) as [|x [|y [|z [|u [|v w]]]]] eqn:El; cbn in Hl;
    try discriminate.
  - cbn [app] in H. injection H as -> -> Er.
    rewrite (inorder_one _ _ El), (inorder_three _ _ _ _ Er). reflexivity.
  - cbn [app] in H. injection H as -> -> -> -> Er.
    rewrite (inorder_three _ _ _ _ El) in Hc.
    cbn [climbedBy rootPrecBy precLe] in Hc.
    destruct Hc as (_ & _ & Hle & _). lia.
  - cbn [app] in H. injection H as _ _ _ _ _ H. destruct w; discriminate.
Qed.

(** On an operand followed by pairs of an operator of the table and an
    operand, with the end of the expression after them, parseExpression
    consumes exactly these tokens and returns the binary tree over
    them, in their order, in which every right operand binds strictly
    tighter than its parent by the table, and every left operand at
    least as tight: operators of one level associate to the left. *)
Theorem parseExpression_follows_table (floatErr : string -> bool)
  (t0 : Token) (ops : list (Token * Token)) (tl : list Token)
  (p : parser) (n : nat) :
  isOperandTok floatErr t0 = true ->
  forallb (tablePairb floatErr) ops = true ->
  endsExpr tl = true ->
  rest p = t0 :: flatPairs ops ++ tl ->
  (length ops < n)%nat ->
  exists tree,
    rExpression (parserAt floatErr n) p
    = Ok (Some (toExpr floatErr tree), advanceBy (1 + 2 * length ops) p)
    /\ inorder tree = t0 :: flatPairs ops
    /\ climbedBy tokenPrec tree.
Proof.
  intros Ht0 Hops Htl Hr Hn.
  assert (Hops' : forallb (pairOkb floatErr) ops = true).
  { rewrite forallb_forall in *. intros ot Hin. specialize (Hops ot Hin).
    unfold tablePairb in Hops. unfold pairOkb, isOperatorTok.
    rewrite isBinaryOp_table. exact Hops. }
  destruct (ClimbProofs.parseExpression_climbs floatErr t0 ops tl p n
              Ht0 Hops' Htl Hr Hn) as (tree & Hrun & Hin & Hcl).
  exists tree. split; [exact Hrun|]. split; [exact Hin|].
  apply climbed_table. exact Hcl.
Qed.

Lemma parseExpression_follows_table_witness :
  rExpression (parserAt (fun _ => false) 3)
    (newParser [num "1" 0; sym "+" 2; num "2" 4; sym "*" 6; num "3" 8])
  = Ok (Some (BinaryExpression
                (ConstantExpression (IntegerConstant 1)) "+"
                (BinaryExpression
                   (ConstantExpression (IntegerConstant 2)) "*"
                   (ConstantExpression (IntegerConstant 3)))),
        advanceBy 5
          (newParser [num "1" 0; sym "+" 2; num "2" 4; sym "*" 6;
                      num "3" 8])).
Proof.
  destruct (parseExpression_follows_table (fun _ => false) (num "1" 0)
              [(sym "+" 2, num "2" 4); (sym "*" 6, num "3" 8)] []
              (newParser [num "1" 0; sym "+" 2; num "2" 4; sym "*" 6;
                          num "3" 8]) 3
              eq_refl eq_refl eq_refl eq_refl (le_n 3))
    as (tree & Hrun & Hin & Hcl).
  rewrite (climbed_five tokenPrec tree _ _ _ _ _ Hin Hcl eq_refl) in Hrun.
  exact Hrun.
Defined.

End PrecProofs.

Module GroupProofs.
Import Lexer Api Ast Parser OpTree Pipeline GroupSpec ClimbProofs.

Lemma pbind_out {A B} (m : P A) (k : A -> P B) p :
  m p = OutOfFuel -> pbind m k p = OutOfFuel.
Proof. unfold pbind. intros ->. reflexivity. Qed.

Lemma rest_error p e u p' : error e p = Ok (u, p') -> rest p' = rest p.
Proof. unfold error. intros H. injection H as _ <-. reflexivity. Qed.

Lemma expect_cons p t r v :
  rest p = t :: r -> Matches t [v] = true ->
  expect v p = Ok (t, advance p).
Proof.
  intros Hr Hm. unfold expect, expectWith.
  pstep (getPos_eq p). pstep (hasNext_cons _ _ _ Hr).
  rewrite (pbind_ok _ _ _ _ _ (pbind_ok _ _ _ _ _ (consume_cons _ _ _ Hr))).
  unfold pure at 1. cbv beta. rewrite Hm. reflexivity.
Qed.

Section Stuck.
Variable floatErr : string -> bool.

(** parseTypeExpression on a token that starts no type: a diagnostic,
    nil, and no token consumed. *)
Lemma parseTypeExpression_none self fuel p t r :
  rest p = t :: r -> startsNoType t = true ->
  exists p', parseTypeExpression self fuel p = Ok (None, p')
             /\ rest p' = rest p.
Proof.
  intros Hr Ht. unfold startsNoType in Ht.
  apply andb_true_iff in Ht as [Hm Hk]. apply negb_true_iff in Hm, Hk.
  unfold Matches in Hm. cbn [existsb] in Hm.
  repeat (apply orb_false_iff in Hm as [? Hm]).
  unfold parseTypeExpression.
  pstep (getPos_eq p). pstep (next_cons _ _ _ Hr).
  unfold Matches. cbn [existsb].
  repeat match goal with H : String.eqb (Value t) _ = false |- _ =>
    rewrite H; clear H end.
  cbv beta iota delta [orb]. rewrite Hk.
  pstep (getPos_eq p). unfold error at 1, pbind, pure.
  eexists. split; reflexivity.
Qed.

Lemma rTypeExpression_stuck m p t r :
  rest p = t :: r -> startsNoType t = true ->
  rTypeExpression (parserAt floatErr m) p = OutOfFuel
  \/ exists p', rTypeExpression (parserAt floatErr m) p = Ok (None, p')
                /\ rest p' = rest p.
Proof.
  intros Hr Ht. destruct m as [|m]; [left; reflexivity|right].
  apply (parseTypeExpression_none _ _ _ _ _ Hr Ht).
Qed.

Lemma parseTupleType_loop self k :
  parseTupleType self k
  = (expect "(" >>
     let! types := loop k (tupleBody self) [] in
     expect ")" >> pure (Some (TupleType types))).
Proof. reflexivity. Qed.

Lemma tupleBody_stuck m p t r types :
  rest p = t :: r -> startsNoType t = true ->
  tupleBody (parserAt floatErr m) types p = OutOfFuel
  \/ exists p', tupleBody (parserAt floatErr m) types p = Ok (inl types, p')
                /\ rest p' = rest p.
Proof.
  intros Hr Ht.
  pose proof Ht as Ht'. unfold startsNoType in Ht'.
  apply andb_true_iff in Ht' as [Hm _]. apply negb_true_iff in Hm.
  unfold Matches in Hm. cbn [existsb] in Hm.
  apply orb_false_iff in Hm as [Hc Hm]. apply orb_false_iff in Hm as [Hp _].
  assert (Hn : forall v, (Value t =? v) = false ->
                 nextMatches [v] p = Ok (false, p)).
  { intros v Hv. unfold nextMatches. pstep (next_cons _ _ _ Hr).
    unfold pure, Matches. cbn [existsb]. rewrite Hv. reflexivity. }
  assert (E : tupleBody (parserAt floatErr m) types p
              = (let! typ := rTypeExpression (parserAt floatErr m) in
                 match typ with
                 | Some t => continue (types ++ [t])
                 | None => continue types
                 end) p).
  { unfold tupleBody.
    pstep (hasNext_cons _ _ _ Hr).
    pstep (Hn _ Hc). unfold pure at 1. unfold pbind at 1. cbv beta iota.
    pstep (Hn _ Hp). reflexivity. }
  rewrite E.
  destruct (rTypeExpression_stuck m p t r Hr Ht) as [Ho|(p' & Hk & Hr')].
  - left. apply pbind_out. exact Ho.
  - right. exists p'. pstep Hk. split; [reflexivity|exact Hr'].
Qed.

(** The loop of parseTupleType on such a token never ends. *)
Lemma tupleLoop_stuck m t r k : forall types p,
  rest p = t :: r -> startsNoType t = true ->
  loop k (tupleBody (parserAt floatErr m)) types p
  = (OutOfFuel : result (list ExpressionNode * parser)).
Proof.
  induction k as [|k IH]; intros types p Hr Ht; [reflexivity|].
  cbn [loop].
  destruct (tupleBody_stuck m p t r types Hr Ht) as [Ho|(p' & Hk & Hr')].
  - apply pbind_out. exact Ho.
  - pstep Hk. apply IH; [rewrite Hr'; exact Hr|exact Ht].
Qed.

Lemma parseTupleType_stuck m k p lp t r :
  rest p = lp :: t :: r -> Matches lp ["("] = true ->
  startsNoType t = true ->
  parseTupleType (parserAt floatErr m) k p = OutOfFuel.
Proof.
  intros Hr Hlp Ht. rewrite parseTupleType_loop.
  pstep (expect_cons _ _ _ _ Hr Hlp).
  apply pbind_out. apply (tupleLoop_stuck m t r).
  - apply (rest_advance _ _ _ Hr).
  - exact Ht.
Qed.

Lemma parseTypeExpression_stuck m k p lp t r :
  rest p = lp :: t :: r -> Value lp = "(" ->
  startsNoType t = true ->
  parseTypeExpression (parserAt floatErr m) k p = OutOfFuel.
Proof.
  intros Hr Hlp Ht. unfold parseTypeExpression.
  pstep (getPos_eq p). pstep (next_cons _ _ _ Hr).
  unfold Matches. cbn [existsb]. rewrite Hlp.
  cbn [String.eqb Ascii.eqb Bool.eqb orb andb].
  apply pbind_out. apply (parseTupleType_stuck m k p lp t r Hr); [|exact Ht].
  unfold Matches. cbn [existsb]. rewrite Hlp. reflexivity.
Qed.

(** An expression that opens with "(" followed by a token that starts
    no type: parsePrimaryExpr takes the "(" for a tuple type, and the
    parser does not return. *)
Lemma parseExpression_stuck n p lp t r :
  rest p = lp :: t :: r -> Value lp = "(" ->
  startsNoType t = true ->
  rExpression (parserAt floatErr n) p = OutOfFuel.
Proof.
  intros Hr Hlp Ht. destruct n as [|n]; [reflexivity|].
  change (rExpression (parserAt floatErr (S n)))
    with (parseExpression floatErr (parserAt floatErr n) (S n)).
  unfold parseExpression, parseLeft. apply pbind_out. apply pbind_out.
  unfold parsePrimaryExpr.
  pstep (hasNext_cons _ _ _ Hr). pstep (next_cons _ _ _ Hr).
  unfold Matches at 1. cbn [existsb]. rewrite Hlp.
  cbn [String.eqb Ascii.eqb Bool.eqb orb andb].
  apply (parseTypeExpression_stuck n (S n) p lp t r Hr Hlp Ht).
Qed.

End Stuck.

Lemma tokenize_grouped U fuel :
  tokenizeInput U (30 + fuel) groupedSource = Ok groupedTokens.
Proof. vm_compute. reflexivity. Qed.

Lemma tokenize_grouped_any U fuel :
  tokenizeInput U fuel groupedSource = OutOfFuel
  \/ tokenizeInput U fuel groupedSource = Ok groupedTokens.
Proof.
  do 30 (destruct fuel as [|fuel];
         [first [left; vm_compute; reflexivity
                |right; vm_compute; reflexivity]|]).
  right. apply (tokenize_grouped U fuel).
Qed.

(** C1: on "(1 + 2) * 3" the parser does not return, however many
    turns it is given. The lexer yields its seven tokens; at the "("
    parsePrimaryExpr calls parseTypeExpression, which takes it for the
    start of a tuple type, and the loop of parseTupleType comes to the
    token 1, which starts no type: parseTypeExpression reports it and
    consumes nothing, so the loop sees the same token again. The tree
    Binary(Grouping(Binary(1, +, 2)), *, 3) is never built. *)
Theorem grouped_operand_never_parsed U floatErr :
  (forall fuel, tokenizeInput U (30 + fuel) groupedSource = Ok groupedTokens)
  /\ (forall fuel,
        rExpression (parserAt floatErr fuel) (newParser groupedTokens)
        = OutOfFuel)
  /\ (forall fuel,
        parseExpressionSource U floatErr fuel groupedSource = OutOfFuel).
Proof.
  assert (Hp : forall fuel,
             rExpression (parserAt floatErr fuel) (newParser groupedTokens)
             = OutOfFuel).
  { intros fuel.
    apply (parseExpression_stuck floatErr fuel _
             (NewToken "(" Symbol 0 1) (NewToken "1" Number 1 2)
             (skipn 2 groupedTokens)); reflexivity. }
  split; [apply tokenize_grouped|]. split; [exact Hp|].
  intros fuel. unfold parseExpressionSource.
  destruct (tokenize_grouped_any U fuel) as [-> | ->]; [reflexivity|].
  cbn [rbind]. rewrite Hp. reflexivity.
Qed.

End GroupProofs.

Module TokenProofs.
Import Go Lexer TokenSpec.

Lemma slicesb_snoc inp t : forall toks from,
  slicesb inp from (toks ++ [t])
  = slicesb inp from toks && slicesb inp (lastEnd from toks) [t].
Proof.
  induction toks as [|x toks IH]; intros from.
  - cbn [app slicesb lastEnd]. reflexivity.
  - cbn [app slicesb lastEnd].
    destruct (Span x) as [|s [|e [|? ?]]]; try reflexivity.
    rewrite IH, andb_assoc. reflexivity.
Qed.

Lemma lastEnd_snoc s e t : forall toks from,
  Span t = [s; e] -> lastEnd from (toks ++ [t]) = e.
Proof.
  induction toks as [|x toks IH]; intros from Ht.
  - cbn. rewrite Ht. reflexivity.
  - cbn [app lastEnd].
    destruct (Span x) as [|s' [|e' [|? ?]]]; apply IH; exact Ht.
Qed.

Lemma consume_shape l r l1 :
  consume l = Ok (r, l1) -> exists w, l1 = setPos l (pos l + w) w.
Proof.
  unfold consume.
  destruct (String.length (input l) <=? pos l)%nat.
  - intros H. injection H as _ <-. exists 0%nat.
    rewrite Nat.add_0_r. reflexivity.
  - destruct (DecodeRune (string_drop (pos l) (input l))) as [res w].
    destruct (res =? RuneError)%Z; [discriminate|].
    intros H. injection H as _ <-. exists w. reflexivity.
Qed.

Lemma Inv_moved inp l w q :
  Inv inp l -> Inv inp (setPos l (pos l + w) q).
Proof.
  intros (Hi & Hs & Ho). split; [exact Hi|]. split; [exact Hs|].
  cbn [setPos start pos stream]. lia.
Qed.

Lemma Inv_width inp l q : Inv inp l -> Inv inp (setPos l (pos l) q).
Proof.
  intros H. apply (Inv_moved _ _ 0 q) in H. rewrite Nat.add_0_r in H.
  exact H.
Qed.

Lemma rewind_moved l w : rewind (setPos l (pos l + w) w) = setPos l (pos l) w.
Proof.
  unfold rewind, setPos. cbn [pos width input start stream].
  f_equal. lia.
Qed.

(** consume keeps the invariant, and so does the rewind after it. *)
Lemma consume_inv inp l r l1 :
  consume l = Ok (r, l1) -> Inv inp l -> Inv inp l1 /\ Inv inp (rewind l1).
Proof.
  intros Hc H. destruct (consume_shape _ _ _ Hc) as [w ->]. split.
  - apply Inv_moved. exact H.
  - rewrite rewind_moved. apply Inv_width. exact H.
Qed.

Lemma emit_inv inp l t l' : emit l t = Ok l' -> Inv inp l -> Inv inp l'.
Proof.
  unfold emit. intros He (Hi & Hs & Ho).
  destruct ((start l <=? pos l)%nat && (pos l <=? String.length (input l))%nat)
    eqn:Hb; [|discriminate].
  injection He as <-. apply andb_true_iff in Hb as [H1 H2].
  apply Nat.leb_le in H1. apply Nat.leb_le in H2.
  split; [exact Hi|]. cbn [stream start pos input]. split.
  - rewrite slicesb_snoc, Hs. cbn [andb slicesb NewToken Span Value].
    rewrite Hi in *.
    repeat (apply andb_true_iff; split);
      try reflexivity; try apply String.eqb_refl; apply Nat.leb_le; lia.
  - rewrite (lastEnd_snoc (start l) (pos l)); [lia|reflexivity].
Qed.

Lemma ignore_inv inp l : Inv inp l -> Inv inp (ignore l).
Proof.
  intros (Hi & Hs & Ho). split; [exact Hi|]. split; [exact Hs|].
  cbn [ignore start pos stream]. lia.
Qed.

Lemma peek_inv inp l r l' : peek l = Ok (r, l') -> Inv inp l -> Inv inp l'.
Proof.
  unfold peek. intros Hp H.
  destruct (consume l) as [[c l1]| |] eqn:Hc; try discriminate.
  cbn [rbind] in Hp. injection Hp as _ <-.
  apply (consume_inv inp _ _ _ Hc H).
Qed.

Lemma accept_inv inp valid l ok l' :
  accept valid l = Ok (ok, l') -> Inv inp l -> Inv inp l'.
Proof.
  unfold accept. intros Ha H.
  destruct (consume l) as [[c l1]| |] eqn:Hc; try discriminate.
  cbn [rbind] in Ha. destruct (consume_inv inp _ _ _ Hc H) as [H1 H2].
  destruct (IndexRuneFound valid c); injection Ha as _ <-; assumption.
Qed.

Lemma acceptRun_loop_inv inp valid fuel : forall l l',
  acceptRun_loop fuel valid l = Ok l' -> Inv inp l -> Inv inp (rewind l').
Proof.
  induction fuel as [|fuel IH]; intros l l' Hr H; [discriminate|].
  cbn [acceptRun_loop] in Hr.
  destruct (consume l) as [[c l1]| |] eqn:Hc; try discriminate.
  cbn [rbind] in Hr. destruct (consume_inv inp _ _ _ Hc H) as [H1 H2].
  destruct (IndexRuneFound valid c).
  - apply (IH _ _ Hr H1).
  - injection Hr as <-. exact H2.
Qed.

Lemma acceptRun_inv inp valid fuel l l' :
  acceptRun fuel valid l = Ok l' -> Inv inp l -> Inv inp l'.
Proof.
  unfold acceptRun. intros Hr H.
  destruct (acceptRun_loop fuel valid l) as [l1| |] eqn:Hl; try discriminate.
  cbn [rbind] in Hr. injection Hr as <-.
  apply (acceptRun_loop_inv _ _ _ _ _ Hl H).
Qed.

Section States.
Variable U : Unicode.
Variable inp : string.

Lemma lexIdentifier_inv fuel : forall l s l',
  lexIdentifier U fuel l = Ok (s, l') -> Inv inp l -> Inv inp l'.
Proof.
  induction fuel as [|fuel IH]; intros l s l' Hr H; [discriminate|].
  cbn [lexIdentifier] in Hr.
  destruct (consume l) as [[c l1]| |] eqn:Hc; try discriminate.
  cbn [rbind] in Hr. destruct (consume_inv inp _ _ _ Hc H) as [H1 H2].
  destruct (isAlphaNumeric U c).
  - apply (IH _ _ _ Hr H1).
  - destruct (emit (rewind l1) Identifier) as [l2| |] eqn:He;
      try discriminate.
    cbn [rbind] in Hr. injection Hr as _ <-. apply (emit_inv _ _ _ _ He H2).
Qed.

Lemma lexNumber_inv fuel l s l' :
  lexNumber fuel l = Ok (s, l') -> Inv inp l -> Inv inp l'.
Proof.
  unfold lexNumber. intros Hr H.
  destruct (acceptRun fuel "0123456789" l) as [l1| |] eqn:H1;
    try discriminate.
  cbn [rbind] in Hr. apply (acceptRun_inv inp) in H1; [|exact H].
  destruct (accept "." l1) as [[dot l2]| |] eqn:H2; try discriminate.
  cbn [rbind] in Hr. apply (accept_inv inp) in H2; [|exact H1].
  destruct dot.
  - destruct (acceptRun fuel "012345689" l2) as [l3| |] eqn:H3;
      try discriminate.
    cbn [rbind] in Hr. apply (acceptRun_inv inp) in H3; [|exact H2].
    destruct (emit l3 Number) as [l4| |] eqn:H4; try discriminate.
    cbn [rbind] in Hr. injection Hr as _ <-. apply (emit_inv _ _ _ _ H4 H3).
  - cbn [rbind] in Hr.
    destruct (emit l2 Number) as [l4| |] eqn:H4; try discriminate.
    cbn [rbind] in Hr. injection Hr as _ <-. apply (emit_inv _ _ _ _ H4 H2).
Qed.

Lemma lexQuote_loop_inv fuel : forall l s l',
  lexQuote_loop fuel l = Ok (s, l') -> Inv inp l -> Inv inp l'.
Proof.
  induction fuel as [|fuel IH]; intros l s l' Hr H; [discriminate|].
  cbn [lexQuote_loop] in Hr.
  destruct (consume l) as [[c l1]| |] eqn:Hc; try discriminate.
  cbn [rbind] in Hr. destruct (consume_inv inp _ _ _ Hc H) as [H1 _].
  destruct (c =? 34)%Z.
  - destruct (emit l1 String_) as [l2| |] eqn:He; try discriminate.
    cbn [rbind] in Hr. injection Hr as _ <-. apply (emit_inv _ _ _ _ He H1).
  - apply (IH _ _ _ Hr H1).
Qed.

Lemma lexQuote_inv fuel l s l' :
  lexQuote fuel l = Ok (s, l') -> Inv inp l -> Inv inp l'.
Proof.
  unfold lexQuote. intros Hr H.
  destruct (accept (String (ascii_of_nat 34) EmptyString) l)
    as [[ok l1]| |] eqn:Ha; try discriminate.
  cbn [rbind] in Hr. apply (accept_inv inp) in Ha; [|exact H].
  destruct ok; [|discriminate]. apply (lexQuote_loop_inv _ _ _ _ Hr Ha).
Qed.

Lemma lexSymbol_inv l s l' :
  lexSymbol l = Ok (s, l') -> Inv inp l -> Inv inp l'.
Proof.
  unfold lexSymbol. intros Hr H.
  destruct (consume l) as [[c1 l1]| |] eqn:Hc; try discriminate.
  cbn [rbind] in Hr. destruct (consume_inv inp _ _ _ Hc H) as [H1 _].
  destruct (peek l1) as [[c2 l2]| |] eqn:Hp; try discriminate.
  cbn [rbind] in Hr. apply (peek_inv inp) in Hp; [|exact H1].
  destruct (isDoubleSym c1 c2).
  - destruct (consume l2) as [[c3 l3]| |] eqn:Hc3; try discriminate.
    cbn [rbind] in Hr. destruct (consume_inv inp _ _ _ Hc3 Hp) as [H3 _].
    destruct (emit l3 Symbol) as [l4| |] eqn:He; try discriminate.
    cbn [rbind] in Hr. injection Hr as _ <-. apply (emit_inv _ _ _ _ He H3).
  - destruct (emit l2 Symbol) as [l4| |] eqn:He; try discriminate.
    cbn [rbind] in Hr. injection Hr as _ <-. apply (emit_inv _ _ _ _ He Hp).
Qed.

Lemma lexStart_inv l s l' :
  lexStart U l = Ok (s, l') -> Inv inp l -> Inv inp l'.
Proof.
  unfold lexStart. intros Hr H.
  destruct (consume l) as [[c l1]| |] eqn:Hc; try discriminate.
  cbn [rbind] in Hr. destruct (consume_inv inp _ _ _ Hc H) as [H1 H2].
  repeat match type of Hr with
         | (if ?b then _ else _) = _ =>
           destruct b; [injection Hr as _ <-; try assumption;
                        apply ignore_inv; assumption|]
         end.
  destruct (emit (rewind l1) EndOfFile) as [l2| |] eqn:He; try discriminate.
  cbn [rbind] in Hr. injection Hr as _ <-. apply (emit_inv _ _ _ _ He H2).
Qed.

Lemma runState_inv fuel st l s l' :
  runState U fuel st l = Ok (s, l') -> Inv inp l -> Inv inp l'.
Proof.
  destruct st; cbn [runState].
  - apply lexStart_inv.
  - apply lexNumber_inv.
  - apply lexIdentifier_inv.
  - apply lexQuote_inv.
  - apply lexSymbol_inv.
Qed.

Lemma run_inv fuel : forall s l l',
  run U fuel s l = Ok l' -> Inv inp l -> Inv inp l'.
Proof.
  induction fuel as [|fuel IH]; intros s l l' Hr H.
  - destruct s; [discriminate|]. injection Hr as <-. exact H.
  - destruct s as [st|]; [|injection Hr as <-; exact H].
    cbn [run] in Hr.
    destruct (runState U fuel st l) as [[s1 l1]| |] eqn:Hs; try discriminate.
    cbn [rbind] in Hr. apply (IH _ _ _ Hr).
    apply (runState_inv _ _ _ _ _ Hs H).
Qed.

End States.

(** Whatever the input, the tokens the lexer returns are slices of it,
    in the order of the input and without overlap: the lexeme of each
    token is the input between the two ends of its span. *)
Theorem tokens_are_ordered_slices U fuel inp toks :
  tokenizeInput U fuel inp = Ok toks -> slicesb inp 0 toks = true.
Proof.
  unfold tokenizeInput. intros H.
  destruct (run U fuel (Some StLexStart) (mkLexer inp 0 0 0 []))
    as [l| |] eqn:Hr; try discriminate.
  cbn [rbind] in H. injection H as <-.
  apply (run_inv U inp) in Hr as (_ & Hs & _); [exact Hs|].
  split; [reflexivity|]. split; [reflexivity|]. cbn. lia.
Qed.

Lemma tokens_are_ordered_slices_witness :
  slicesb "x = y1 + 20;" 0
    [NewToken "x" Identifier 0 1; NewToken "=" Symbol 2 3;
     NewToken "y1" Identifier 4 6; NewToken "+" Symbol 7 8;
     NewToken "20" Number 9 11; NewToken ";" Symbol 11 12] = true.
Proof.
  exact (tokens_are_ordered_slices latin1Only 30 "x = y1 + 20;" _
           ltac:(vm_compute; reflexivity)).
Defined.

End TokenProofs.

Module LexEdgeProofs.
Import Go Lexer LexSpec LexEdgeSpec LexProofs.

Lemma Before_nonneg l r rs : Before l (r :: rs) -> (0 <= r)%Z.
Proof.
  intros [Hr _].
  destruct (string_drop (pos l) (input l)) as [|a s] eqn:Hd; [discriminate|].
  apply runes_cons in Hr as (r' & w & rs' & Hdec & _ & E & _).
  injection E as <- <-. apply (DecodeRune_nonneg _ _ _ Hdec).
Qed.

Lemma symbols_above_space r : (r <= 32)%Z -> isSymbol r = false.
Proof.
  intros H. unfold isSymbol.
  let l := eval vm_compute in symbols in change symbols with l.
  cbn [existsb].
  repeat match goal with
         | |- context [(r =? ?k)%Z] =>
           destruct (Z.eqb_spec r k); [lia|]
         end.
  reflexivity.
Qed.

Section Layout.
Variable U : Unicode.

Lemma layout_rune r :
  (0 <= r <= 32)%Z ->
  IsDigit U r = false /\ isAlphaNumeric U r = false /\ isSymbol r = false
  /\ (r =? 34)%Z = false /\ (r <=? 32)%Z = true.
Proof.
  intros H.
  assert (Hd : IsDigit U r = false).
  { unfold IsDigit, MaxLatin1, inRange.
    destruct (Z.ltb_spec r 0); [lia|].
    destruct (Z.leb_spec r 255); [|lia].
    destruct (Z.leb_spec 48 r); [lia|reflexivity]. }
  split; [exact Hd|]. split; [|split; [|split]].
  - unfold isAlphaNumeric. rewrite Hd.
    destruct (Z.eqb_spec r 95); [lia|].
    unfold IsLetter, MaxLatin1, latin1Letter, inRange.
    destruct (Z.ltb_spec r 0); [lia|].
    destruct (Z.leb_spec r 255); [|lia].
    repeat match goal with
           | |- context [(?a <=? r)%Z] =>
             destruct (Z.leb_spec a r); [lia|]
           | |- context [(r =? ?k)%Z] =>
             destruct (Z.eqb_spec r k); [lia|]
           end.
    reflexivity.
  - apply symbols_above_space. lia.
  - apply Z.eqb_neq. lia.
  - apply Z.leb_le. lia.
Qed.

Lemma run_layout rs : forall l fuel,
  Before l rs -> layoutOnly rs = true -> (length rs < fuel)%nat ->
  exists l', run U fuel (Some StLexStart) l = Ok l' /\ stream l' = stream l.
Proof.
  induction rs as [|r rs IH]; intros l fuel Hb Hl Hf.
  - destruct fuel as [|fuel]; [cbn in Hf; lia|].
    rewrite run_S. cbn [runState]. unfold lexStart.
    rewrite (consume_eof _ Hb). cbn [rbind].
    change (eof =? eof)%Z with true. cbv iota. cbn [rbind].
    rewrite run_None. eexists. split; reflexivity.
  - destruct fuel as [|fuel]; [cbn in Hf; lia|].
    cbn [length] in Hf. cbn [layoutOnly forallb] in Hl.
    apply andb_true_iff in Hl as [Hr Hl]. apply Z.leb_le in Hr.
    pose proof (Before_nonneg _ _ _ Hb) as H0.
    destruct (layout_rune r ltac:(lia)) as (H1 & H2 & H3 & H4 & H5).
    rewrite run_S. cbn [runState]. unfold lexStart.
    destruct (consume_rune _ _ _ Hb) as (w & Hw & Hc & Hb1 & Heof).
    rewrite Hc. cbn [rbind].
    destruct (Z.eqb_spec r eof) as [|_]; [contradiction|].
    rewrite H1, H2, H3, H4, H5. cbn [rbind].
    destruct (IH (ignore (setPos l (pos l + w) w)) fuel) as (l' & Hrun & Hs).
    + destruct Hb1 as [Hr1 Hp1]. split; [exact Hr1|].
      cbn [ignore setPos pos start input] in *. lia.
    + exact Hl.
    + lia.
    + exists l'. split; [exact Hrun|]. rewrite Hs. reflexivity.
Qed.

(** An input of layout only (spaces, tabs, line ends, any rune up to
    U+0020), the empty input included, gives no token at all: the
    lexer emits no EndOfFile token when it reaches the end. *)
Theorem layout_only_gives_no_token inp rs fuel :
  runes inp = Some rs -> layoutOnly rs = true ->
  (String.length inp < fuel)%nat ->
  tokenizeInput U fuel inp = Ok [].
Proof.
  intros Hr Hl Hf. unfold tokenizeInput.
  destruct (run_layout rs (mkLexer inp 0 0 0 []) fuel) as (l' & Hrun & Hs).
  - split; [exact Hr|]. cbn. lia.
  - exact Hl.
  - pose proof (runes_length _ _ Hr). lia.
  - rewrite Hrun. cbn [rbind]. rewrite Hs. reflexivity.
Qed.


End Layout.

Lemma layout_only_gives_no_token_witness :
  tokenizeInput latin1Only 5
    (String (ascii_of_nat 32) (String (ascii_of_nat 9)
       (String (ascii_of_nat 10) ""))) = Ok [].
Proof.
  exact (layout_only_gives_no_token latin1Only
           (String (ascii_of_nat 32) (String (ascii_of_nat 9)
              (String (ascii_of_nat 10) "")))
           [32; 9; 10]%Z 5 eq_refl eq_refl
           ltac:(vm_compute; lia)).
Defined.


(** consume panics on utf8.RuneError, which utf8.DecodeRune returns for
    a malformed byte and also for a well-formed U+FFFD: an input that
    starts with either makes the lexer panic on its first turn. *)
Theorem rune_error_at_start_panics U inp w fuel :
  inp <> "" -> DecodeRune inp = (RuneError, w) ->
  tokenizeInput U (S fuel) inp = Panic "oh".
Proof.
  intros Hne Hd. unfold tokenizeInput. rewrite run_S. cbn [runState].
  unfold lexStart, consume. cbn [input pos].
  destruct inp as [|a s]; [contradiction|].
  cbn [String.length Nat.leb string_drop]. rewrite Hd. reflexivity.
Qed.

Lemma rune_error_at_start_panics_witness :
  tokenizeInput latin1Only 1 replacementChar = Panic "oh".
Proof.
  exact (rune_error_at_start_panics latin1Only replacementChar 3 0
           ltac:(discriminate) eq_refl).
Defined.

Section ForeignDigit.
Variable U : Unicode.
Variables (r : rune) (rs : list rune).
Hypothesis Hdigit : IsDigit U r = true.
Hypothesis Hascii : inRange 48 57 r = false.






End ForeignDigit.



End LexEdgeProofs.

Module BuildProofs.
Import Lexer Api Ast Builder BuildSpec.

Section Lowering.
Variable PT : string -> bool.

(** The IR does not tell let from mut: whenever a mut statement
    lowers, the let statement with the same name, type and value
    lowers to the very same instruction, a Local marked mutable. *)
Theorem let_lowers_as_mut name owned ty val i :
  buildStat PT (MutableStatement name owned ty val) = Ok i ->
  buildStat PT (LetStatement name owned ty val) = Ok i.
Proof.
  cbn [buildStat]. unfold buildMutStat, buildLetStat.
  destruct (whenSome (buildExpr PT) val) as [v| |]; cbn [rbind];
    [|discriminate..].
  destruct ty as [t|]; cbn [whenSome].
  - destruct (buildType PT t); cbn [rbind]; auto.
  - destruct v; cbn [rbind]; [auto|discriminate].
Qed.

Lemma unsnoc_snoc {A} (l : list A) x : unsnoc (l ++ [x]) = Some (l, x).
Proof.
  induction l as [|y l IH]; [reflexivity|].
  cbn [app unsnoc]. rewrite IH. reflexivity.
Qed.

Lemma buildExpr_path values :
  buildExpr PT (PathExpression values)
  = let* vs := pathLoop (buildExprOpt PT) values [] in rewritePath vs.
Proof. reflexivity. Qed.

(** buildExpr on a path whose last element lowers to a binary
    expression: the result is that binary expression, with the path,
    closed by the left operand, in the place of the left operand. *)
Theorem path_before_operator_is_regrouped values init lh op rh :
  pathLoop (buildExprOpt PT) values []
  = Ok (init ++ [IR.BinaryExpression lh op rh]) ->
  buildExpr PT (PathExpression values)
  = Ok (IR.BinaryExpression (IR.Path (init ++ [lh])) op rh).
Proof.
  intros H. rewrite buildExpr_path, H. cbn [rbind].
  unfold rewritePath. rewrite unsnoc_snoc. reflexivity.
Qed.

Lemma declare_other st n : isDeclaration n = false -> declare st n = st.
Proof.
  destruct st as [[b sn] ins]. destruct n; cbn; try discriminate; reflexivity.
Qed.

Lemma declare_filter nodes : forall st,
  fold_left declare (List.filter isDeclaration nodes) st
  = fold_left declare nodes st.
Proof.
  induction nodes as [|n nodes IH]; intros st; [reflexivity|].
  cbn [List.filter fold_left].
  destruct (isDeclaration n) eqn:E.
  - cbn [fold_left]. apply IH.
  - rewrite (declare_other st n E). apply IH.
Qed.

Lemma defineFunction_other b n :
  isDeclaration n = false -> defineFunction PT b n = Ok b.
Proof. destruct n; cbn; try discriminate; reflexivity. Qed.

Lemma defineFunction_filter nodes : forall b,
  foldM (defineFunction PT) (List.filter isDeclaration nodes) b
  = foldM (defineFunction PT) nodes b.
Proof.
  induction nodes as [|n nodes IH]; intros b; [reflexivity|].
  cbn [List.filter foldM].
  destruct (isDeclaration n) eqn:E.
  - cbn [foldM]. destruct (defineFunction PT b n); cbn [rbind]; auto.
  - rewrite (defineFunction_other b n E). cbn [rbind]. apply IH.
Qed.

(** buildTree reads the structure, impl and function declarations of
    a unit and nothing else: traits, type aliases and statements at
    the top level leave no trace, neither in the module nor in the
    diagnostics. *)
Theorem buildTree_reads_declarations_only b nodes :
  buildTree PT b nodes = buildTree PT b (List.filter isDeclaration nodes).
Proof.
  unfold buildTree. rewrite declare_filter.
  destruct (fold_left declare nodes (b, [], [])) as [[b1 sn] ins].
  destruct (foldM (defineStructure PT) sn b1) as [b2| |]; cbn [rbind];
    [|reflexivity..].
  destruct (foldM (defineImpl PT) ins b2) as [b3| |]; cbn [rbind];
    [|reflexivity..].
  symmetry. apply defineFunction_filter.
Qed.




End Lowering.

Lemma let_lowers_as_mut_witness :
  buildStat (fun _ => false)
    (LetStatement (NewToken "x" Identifier 4 5) false None
       (Some (ConstantExpression (IntegerConstant 1))))
  = Ok (IR.Local (NewToken "x" Identifier 4 5) None false true
          (Some (IR.IntegerValue 1))).
Proof.
  exact (let_lowers_as_mut (fun _ => false) (NewToken "x" Identifier 4 5)
           false None (Some (ConstantExpression (IntegerConstant 1)))
           _ eq_refl).
Defined.

Lemma path_before_operator_is_regrouped_witness :
  buildExpr (fun _ => false)
    (PathExpression [Some identA; Some (BinaryExpression identB "+" identC)])
  = Ok (IR.BinaryExpression
          (IR.Path [IR.Identifier (NewToken "a" Identifier 0 1);
                    IR.Identifier (NewToken "b" Identifier 2 3)])
          "+" (IR.Identifier (NewToken "c" Identifier 6 7))).
Proof.
  exact (path_before_operator_is_regrouped (fun _ => false)
           [Some identA; Some (BinaryExpression identB "+" identC)]
           [IR.Identifier (NewToken "a" Identifier 0 1)]
           (IR.Identifier (NewToken "b" Identifier 2 3)) "+"
           (IR.Identifier (NewToken "c" Identifier 6 7)) eq_refl).
Defined.


End BuildProofs.

Module ResolveProofs.
Import Lexer Api Middle ResolveSpec.

Section Pass.
Variable fuel : nat.
Variable st : stabs.

Lemma notOk_bind {A B} (m : result A) (k : A -> result B) :
  notOk m -> notOk (rbind m k).
Proof. intros H. destruct m; [destruct H|exact I..]. Qed.

Lemma notOk_bind_all {A B} (m : result A) (k : A -> result B) :
  (forall a, notOk (k a)) -> notOk (rbind m k).
Proof. intros H. destruct m; [apply H|exact I..]. Qed.

(** Scope resolution handles integers, strings, floats, identifiers
    and binary expressions of these; on every other value (a unary
    expression, a grouping, a call, a path, an index, a character, a
    builtin, an initializer), alone or inside a binary expression,
    resolveValue does not return. *)
Theorem unhandled_value_stops_resolution v :
  resolvable v = false -> forall s, notOk (resolveValue fuel st v s).
Proof.
  induction v; cbn [resolvable]; intros H s; try discriminate H;
    try exact I.
  cbn [resolveValue]. apply andb_false_iff in H as [H|H].
  - apply notOk_bind. apply IHv1. exact H.
  - apply notOk_bind_all. intros s1. apply IHv2. exact H.
Qed.

Lemma eachM_fails {A S} (f : A -> S -> result S) x l :
  (forall s, notOk (f x s)) -> In x l -> forall s, notOk (eachM f l s).
Proof.
  intros Hx. induction l as [|y l IH]; intros Hin s; [destruct Hin|].
  cbn [eachM]. destruct Hin as [->|Hin].
  - apply notOk_bind. apply Hx.
  - apply notOk_bind_all. intros s1. apply IH. exact Hin.
Qed.

Lemma unhandledInstr_fails i :
  unhandledInstr i = true -> forall s, notOk (resolveInstr fuel st i s).
Proof.
  destruct i; cbn [unhandledInstr]; intros H s; try discriminate H;
    exact I.
Qed.

(** A block that holds, among its ordered instructions, a break, a
    next, a jump, a label or a defer: resolveBlock does not return on
    it, whatever stands before or after that instruction. *)
Theorem unhandled_instruction_stops_resolution b i :
  In i (IR.Instr b) -> unhandledInstr i = true ->
  forall s, notOk (resolveBlock fuel st b s).
Proof.
  intros Hin Hu s. destruct b as [instr defers ret stab].
  cbn [IR.Instr] in Hin. cbn [resolveBlock].
  apply notOk_bind.
  apply (eachM_fails _ i); [apply unhandledInstr_fails; exact Hu|exact Hin].
Qed.

Lemma eachM_ext {A B S} (f : A -> S -> result S) (g : B -> S -> result S)
  (la : list A) (lb : list B) :
  Forall2 (fun a b => forall s, f a s = g b s) la lb ->
  forall s, eachM f la s = eachM g lb s.
Proof.
  induction 1 as [|a b la lb Hab _ IH]; intros s; [reflexivity|].
  cbn [eachM]. rewrite Hab. destruct (g b s); cbn [rbind]; auto.
Qed.

Lemma resolveInstr_if cond body elifs els s :
  resolveInstr fuel st (IR.IfStatement cond body elifs els) s
  = let* s1 := resolveValue fuel st cond s in
    let* s2 := resolveBlock fuel st body s1 in
    let* s3 := eachM (fun e => resolveBlock fuel st (snd e)) elifs s2 in
    match els with
    | Some b => resolveBlock fuel st b s3
    | None => Ok s3
    end.
Proof. reflexivity. Qed.

(** The conditions of the else-if branches of an if statement are not
    resolved: the pass gives the same result whatever they are. *)
Theorem else_if_conditions_not_resolved cond body elifs elifs' els s :
  map snd elifs = map snd elifs' ->
  resolveInstr fuel st (IR.IfStatement cond body elifs els) s
  = resolveInstr fuel st (IR.IfStatement cond body elifs' els) s.
Proof.
  intros H. rewrite !resolveInstr_if.
  destruct (resolveValue fuel st cond s) as [s1| |]; cbn [rbind];
    [|reflexivity..].
  destruct (resolveBlock fuel st body s1) as [s2| |]; cbn [rbind];
    [|reflexivity..].
  rewrite (eachM_ext (fun e => resolveBlock fuel st (snd e))
             (fun e => resolveBlock fuel st (snd e)) elifs elifs');
    [reflexivity|].
  revert elifs' H. induction elifs as [|e elifs IH]; intros [|e' elifs'] H;
    try discriminate H; constructor.
  - cbn [map] in H. injection H as -> _. reflexivity.
  - cbn [map] in H. injection H as _ H. apply IH. exact H.
Qed.

End Pass.

Lemma unhandled_value_stops_resolution_witness :
  notOk (resolveValue 0 ∅
           (IR.BinaryExpression (IR.IntegerValue 1) "+"
              (IR.UnaryExpression "-" (IR.IntegerValue 2)))
           {| errors := []; curr := None |}).
Proof.
  exact (unhandled_value_stops_resolution 0 ∅
           (IR.BinaryExpression (IR.IntegerValue 1) "+"
              (IR.UnaryExpression "-" (IR.IntegerValue 2)))
           eq_refl {| errors := []; curr := None |}).
Defined.

Lemma unhandled_instruction_stops_resolution_witness :
  notOk (resolveBlock 0 ∅
           (IR.mkBlock [IR.Local tokZ None false true
                          (Some (IR.IntegerValue 1)); IR.Break] [] None None)
           {| errors := []; curr := None |}).
Proof.
  exact (unhandled_instruction_stops_resolution 0 ∅
           (IR.mkBlock [IR.Local tokZ None false true
                          (Some (IR.IntegerValue 1)); IR.Break] [] None None)
           IR.Break (or_intror (or_introl eq_refl)) eq_refl
           {| errors := []; curr := None |}).
Defined.

Lemma else_if_conditions_not_resolved_witness :
  resolveInstr 0 ∅
    (IR.IfStatement (IR.IntegerValue 1) IR.NewBlock
       [(IR.Identifier tokZ, IR.NewBlock)] None)
    {| errors := []; curr := None |}
  = resolveInstr 0 ∅
      (IR.IfStatement (IR.IntegerValue 1) IR.NewBlock
         [(IR.IntegerValue 0, IR.NewBlock)] None)
      {| errors := []; curr := None |}.
Proof.
  exact (else_if_conditions_not_resolved 0 ∅ (IR.IntegerValue 1) IR.NewBlock
           [(IR.Identifier tokZ, IR.NewBlock)]
           [(IR.IntegerValue 0, IR.NewBlock)] None
           {| errors := []; curr := None |} eq_refl).
Defined.

End ResolveProofs.
